(** * torchgen/model.py: the operator-schema data model

    A shallow embedding of the schema grammar of [torchgen/model.py]
    (types, alias annotations, arguments, returns, operator names, the
    argument classifier, [FunctionSchema] with its constructor checks,
    [kind()] and [signature()], and [NativeFunctionsGroup]), followed by
    the properties proved about it.

    Conventions of the embedding:
    - a Python [str] is a [string]; the characters the grammar inspects are
      all ASCII;
    - a function that can raise returns [option] ([None] = an exception),
      except the group constructor, which reports which check failed;
    - a frozen dataclass is a record inside a module named after the class;
      its [__post_init__] is the boolean [post_init], and [make] is the
      constructor call (record creation followed by [__post_init__]);
    - [__str__] is [str], [==] on dataclasses is [eqb]. *)

From Stdlib Require Import Bool Arith List Lia NArith ZArith.
From Stdlib Require Import Ascii String DecimalString DecimalN.
Import ListNotations.
Open Scope string_scope.
Open Scope bool_scope.

Set Implicit Arguments.

(** ** Exceptions as [option] *)

Notation "x <- e ;; k" :=
  (match e with Some x => k | None => None end)
  (at level 61, e at next level, right associativity).
Notation "' p <- e ;; k" :=
  (match e with Some p => k | None => None end)
  (at level 61, p pattern, e at next level, right associativity).
Notation "'assert' b ;; k" :=
  (if b then k else None)
  (at level 61, b at next level, right associativity).

(** ** Python string primitives *)

Module Py.

Definition newline : ascii := ascii_of_nat 10.

(** [bool(s)] for a string: non-empty. *)
Definition truthy (s : string) : bool :=
  match s with EmptyString => false | String _ _ => true end.

Fixpoint drop (n : nat) (s : string) : string :=
  match n, s with
  | S k, String _ s' => drop k s'
  | _, _ => s
  end.

Fixpoint rev_onto (s acc : string) : string :=
  match s with
  | EmptyString => acc
  | String c s' => rev_onto s' (String c acc)
  end.

Definition rev (s : string) : string := rev_onto s "".

Definition startswith (s p : string) : bool := String.prefix p s.

(** [s.endswith(suf)] *)
Definition endswith (s suf : string) : bool :=
  String.prefix (rev suf) (rev s).

(** [sub in s] *)
Fixpoint contains (s sub : string) : bool :=
  String.prefix sub s ||
  match s with
  | EmptyString => false
  | String _ s' => contains s' sub
  end.

(** [s.find(sub)], with [None] for Python's [-1]. *)
Fixpoint find (s sub : string) : option nat :=
  if String.prefix sub s then Some 0
  else match s with
       | EmptyString => None
       | String _ s' => option_map S (find s' sub)
       end.

(** [s.partition(sep)] when [sep] occurs: the text before the first
    occurrence and the text after it. *)
Fixpoint partition (s sep : string) : option (string * string) :=
  if String.prefix sep s then Some ("", drop (String.length sep) s)
  else match s with
       | EmptyString => None
       | String c s' =>
           match partition s' sep with
           | Some (a, b) => Some (String c a, b)
           | None => None
           end
       end.

(** [s.rpartition(sep)] when [sep] occurs: split at the last occurrence. *)
Fixpoint rpartition (s sep : string) : option (string * string) :=
  match s with
  | EmptyString =>
      if String.prefix sep s then Some ("", "") else None
  | String c s' =>
      match rpartition s' sep with
      | Some (a, b) => Some (String c a, b)
      | None =>
          if String.prefix sep s
          then Some ("", drop (String.length sep) s)
          else None
      end
  end.

(** [s.split(sep, 1)]: one or two pieces. *)
Definition split1 (s sep : string) : list string :=
  match partition s sep with
  | Some (a, b) => [a; b]
  | None => [s]
  end.

(** [s.rsplit(sep, 1)]: one or two pieces. *)
Definition rsplit1 (s sep : string) : list string :=
  match rpartition s sep with
  | Some (a, b) => [a; b]
  | None => [s]
  end.

(** [s.split(sep)] for a non-empty separator: occurrences are found left
    to right and do not overlap.  [skip] counts the characters of the
    separator just found that are still to be passed over; [cur] is the
    current piece, reversed. *)
Fixpoint split_aux (sep : string) (skip : nat) (cur s : string)
  : list string :=
  match s with
  | EmptyString => [rev cur]
  | String c s' =>
      match skip with
      | S k => split_aux sep k cur s'
      | O =>
          if String.prefix sep s
          then rev cur :: split_aux sep (String.length sep - 1) "" s'
          else split_aux sep 0 (String c cur) s'
      end
  end.

Definition split (s sep : string) : list string := split_aux sep 0 "" s.

(** [s.replace(old, new)] for a non-empty [old]. *)
Fixpoint replace_aux (old new : string) (skip : nat) (s : string) : string :=
  match s with
  | EmptyString => ""
  | String c s' =>
      match skip with
      | S k => replace_aux old new k s'
      | O =>
          if String.prefix old s
          then new ++ replace_aux old new (String.length old - 1) s'
          else String c (replace_aux old new 0 s')
      end
  end.

Definition replace (s old new : string) : string := replace_aux old new 0 s.

(** [sep.join(l)] *)
Definition join (sep : string) (l : list string) : string :=
  String.concat sep l.

Definition strip_prefix (p s : string) : option string :=
  if String.prefix p s then Some (drop (String.length p) s) else None.

Definition strip_suffix (suf s : string) : option string :=
  option_map rev (strip_prefix (rev suf) (rev s)).

Fixpoint all_chars (p : ascii -> bool) (s : string) : bool :=
  match s with
  | EmptyString => true
  | String c s' => p c && all_chars p s'
  end.

(** The longest prefix of [s] whose characters satisfy [p], and the rest. *)
Fixpoint span (p : ascii -> bool) (s : string) : string * string :=
  match s with
  | EmptyString => ("", "")
  | String c s' =>
      if p c then let (a, b) := span p s' in (String c a, b)
      else ("", s)
  end.

Definition is_digit (c : ascii) : bool :=
  let n := nat_of_ascii c in Nat.leb 48 n && Nat.leb n 57.

Definition is_lower (c : ascii) : bool :=
  let n := nat_of_ascii c in Nat.leb 97 n && Nat.leb n 122.

(** What the regular-expression dot matches: anything but a newline. *)
Definition is_dot (c : ascii) : bool := negb (Ascii.eqb c newline).

(** [int(s)] for a string of ASCII digits. *)
Definition int_of_digits (s : string) : N :=
  let fix go (acc : N) (s : string) : N :=
    match s with
    | EmptyString => acc
    | String c s' => go (acc * 10 + N.of_nat (nat_of_ascii c - 48))%N s'
    end
  in go 0%N s.

(** [str(n)] for an integer: its decimal digits, after a minus sign when
    it is negative. *)
Definition str_of_int (n : Z) : string :=
  NilZero.string_of_int (Z.to_int n).

(** A pattern that ends in [$] (without [re.MULTILINE]) may end at the end
    of the string or just before a newline that is its last character.
    [body] decides a match that ends exactly at the end of its input. *)
Definition dollar {A} (body : string -> option A) (s : string) : option A :=
  match body s with
  | Some r => Some r
  | None =>
      match strip_suffix (String newline "") s with
      | Some s' => body s'
      | None => None
      end
  end.

End Py.

(** ** Alias annotations *)

Module Annotation.

Record t := mk {
  alias_set : list string;
  is_write : bool;
  alias_set_after : string
}.

Definition eqb (a b : t) : bool :=
  (if list_eq_dec string_dec (alias_set a) (alias_set b) then true else false)
  && Bool.eqb (is_write a) (is_write b)
  && String.eqb (alias_set_after a) (alias_set_after b).

(** [__str__] *)
Definition str (self : t) : string :=
  let alias_set0 := Py.join "|" (alias_set self) in
  let alias_set1 :=
    if Py.truthy (alias_set_after self)
    then alias_set0 ++ " -> " ++ alias_set_after self
    else alias_set0 in
  let is_write0 := if is_write self then "!" else "" in
  alias_set1 ++ is_write0.

(** [re.match(r"^([a-z])(!?)(!?)$", s)]: groups 1 and 2. *)
Definition re_alias (s : string) : option (string * string) :=
  Py.dollar
    (fun s =>
       match s with
       | String c rest =>
           if Py.is_lower c then
             if String.eqb rest "" then Some (String c "", "")
             else if String.eqb rest "!" then Some (String c "", "!")
             else if String.eqb rest "!!" then Some (String c "", "!")
             else None
           else None
       | EmptyString => None
       end) s.

Definition parse (ann : string) : option t :=
  let becomes_wildcard_index := Py.find ann " -> *" in
  let (after_set, m) :=
    match becomes_wildcard_index with
    | Some i =>
        ("*",
         re_alias (String.substring 0 i ann
                   ++ Py.drop (i + String.length " -> *") ann))
    | None => ("", re_alias ann)
    end in
  '(g1, g2) <- m ;;
  let alias_set := [g1] in
  let is_write := String.eqb g2 "!" in
  let r := mk alias_set is_write after_set in
  assert String.eqb (str r) ann ;;
  Some r.

(** [==] on [Optional[Annotation]] *)
Definition opt_eqb (a b : option t) : bool :=
  match a, b with
  | Some x, Some y => eqb x y
  | None, None => true
  | _, _ => false
  end.

(** [ann is not None and ann.is_write] *)
Definition opt_is_write (a : option t) : bool :=
  match a with Some x => is_write x | None => false end.

End Annotation.

(** ** The type grammar *)

Module BaseTy.

Inductive t :=
| Generator | ScalarType | Tensor | int | Dimname | float | str | bool
| Layout | Device | Scalar | MemoryFormat | QScheme | Storage | Stream
| SymInt | ConstQuantizerPtr.

(** The enumeration's [.name]. *)
Definition name (b : t) : string :=
  match b with
  | Generator => "Generator" | ScalarType => "ScalarType"
  | Tensor => "Tensor" | int => "int" | Dimname => "Dimname"
  | float => "float" | str => "str" | bool => "bool"
  | Layout => "Layout" | Device => "Device" | Scalar => "Scalar"
  | MemoryFormat => "MemoryFormat" | QScheme => "QScheme"
  | Storage => "Storage" | Stream => "Stream" | SymInt => "SymInt"
  | ConstQuantizerPtr => "ConstQuantizerPtr"
  end.

Definition members : list t :=
  [Generator; ScalarType; Tensor; int; Dimname; float; str; bool; Layout;
   Device; Scalar; MemoryFormat; QScheme; Storage; Stream; SymInt;
   ConstQuantizerPtr].

(** [BaseTy[s]]; [None] is the [KeyError]. *)
Definition lookup (s : string) : option t :=
  List.find (fun b => String.eqb (name b) s) members.

Definition eqb (a b : t) : Datatypes.bool := String.eqb (name a) (name b).

End BaseTy.

Module Ty.

(** The class [Type] with its three subclasses [BaseType], [OptionalType]
    and [ListType]; the module is named [Ty] because [Type] is a keyword.
    A list size is a Python [int]; [int([0-9]+)] never makes it negative,
    but the constructor accepts any. *)
Inductive t :=
| BaseType (name : BaseTy.t)
| OptionalType (elem : t)
| ListType (elem : t) (size : option Z).

Fixpoint eqb (a b : t) : bool :=
  match a, b with
  | BaseType x, BaseType y => BaseTy.eqb x y
  | OptionalType x, OptionalType y => eqb x y
  | ListType x n, ListType y m =>
      eqb x y &&
      match n, m with
      | Some n, Some m => Z.eqb n m
      | None, None => true
      | _, _ => false
      end
  | _, _ => false
  end.

(** [__str__] of the three subclasses. *)
Fixpoint str (self : t) : string :=
  match self with
  | BaseType name => BaseTy.name name
  | OptionalType elem => str elem ++ "?"
  | ListType elem size =>
      let size0 :=
        match size with
        | Some n => if Z.eqb n 0 then "" else Py.str_of_int n
        | None => ""
        end in
      str elem ++ "[" ++ size0 ++ "]"
  end.

(** [re.match(r"^(.+)\?$", t)]: group 1. *)
Definition re_optional (t : string) : option string :=
  Py.dollar
    (fun t =>
       g <- Py.strip_suffix "?" t ;;
       assert Py.truthy g && Py.all_chars Py.is_dot g ;;
       Some g) t.

(** [re.match(r"^(.+)\[([0-9]+)?\]$", t)]: groups 1 and 2. *)
Definition re_list (t : string) : option (string * option string) :=
  Py.dollar
    (fun t =>
       u <- Py.strip_suffix "]" t ;;
       '(g, d) <- Py.rpartition u "[" ;;
       assert Py.truthy g && Py.all_chars Py.is_dot g ;;
       assert Py.all_chars Py.is_digit d ;;
       Some (g, if Py.truthy d then Some d else None)) t.

(** [Type.parse] and [Type._parse], which call each other on ever shorter
    strings; [fuel] bounds the depth of the calls. *)
Fixpoint parse_fuel (fuel : nat) (t : string) : option Ty.t :=
  match fuel with
  | O => None
  | S fuel =>
      r <- match re_optional t with
           | Some g1 =>
               e <- parse_fuel fuel g1 ;; Some (OptionalType e)
           | None =>
               match re_list t with
               | Some (g1, g2) =>
                   let size :=
                     option_map (fun d => Z.of_N (Py.int_of_digits d)) g2 in
                   e <- parse_fuel fuel g1 ;; Some (ListType e size)
               | None =>
                   b <- BaseTy.lookup t ;; Some (BaseType b)
               end
           end ;;
      assert String.eqb (str r) t ;;
      Some r
  end.

Definition parse (t : string) : option Ty.t :=
  parse_fuel (S (String.length t)) t.

End Ty.

(** ** Arguments and returns *)

(** The pattern of [Argument.parse] and [Return.parse], matched with
    [re.match]: the literal [Tensor(], a greedy non-empty group 1 of dots, a
    closing parenthesis, and a greedy dot-star group 2.  The match starts at
    the beginning of [s] and need not reach its end; neither group crosses a
    newline.  Returns groups 1 and 2. *)
Definition re_tensor_annotation (s : string) : option (string * string) :=
  rest <- Py.strip_prefix "Tensor(" s ;;
  let (line, _) := Py.span Py.is_dot rest in
  '(g1, g2) <- Py.rpartition line ")" ;;
  assert Py.truthy g1 ;;
  Some (g1, g2).

(** The part of [Argument.parse] and [Return.parse] that splits the
    annotation from the type: the type string and the annotation. *)
Definition parse_type_and_annot (type_and_annot : string)
  : option (Ty.t * option Annotation.t) :=
  '(type_s, annotation) <-
    match re_tensor_annotation type_and_annot with
    | Some (g1, g2) =>
        assert existsb (String.eqb g2) [""; "?"; "[]"] ;;
        annotation <- Annotation.parse g1 ;;
        Some ("Tensor" ++ g2, Some annotation)
    | None => Some (type_and_annot, None)
    end ;;
  type <- Ty.parse type_s ;;
  Some (type, annotation).

(** The type part of [Argument.__str__] and [Return.__str__]. *)
Definition str_type_and_annot (type : Ty.t) (annotation : option Annotation.t)
  : option string :=
  let type0 := Ty.str type in
  match annotation with
  | Some ann =>
      assert existsb (String.eqb type0) ["Tensor"; "Tensor?"; "Tensor[]"] ;;
      Some (Py.replace type0 "Tensor" ("Tensor(" ++ Annotation.str ann ++ ")"))
  | None => Some type0
  end.

Definition opt_string_eqb (a b : option string) : bool :=
  match a, b with
  | Some x, Some y => String.eqb x y
  | None, None => true
  | _, _ => false
  end.

Module Argument.

Record t := mk {
  name : string;
  type : Ty.t;
  default : option string;
  annotation : option Annotation.t
}.

Definition eqb (a b : t) : bool :=
  String.eqb (name a) (name b)
  && Ty.eqb (type a) (type b)
  && opt_string_eqb (default a) (default b)
  && Annotation.opt_eqb (annotation a) (annotation b).

Definition is_write (self : t) : bool :=
  Annotation.opt_is_write (annotation self).

(** [__str__]; [name] is always a string here, so the branch for
    [self.name is None] does not arise. *)
Definition str (self : t) : option string :=
  type0 <- str_type_and_annot (type self) (annotation self) ;;
  let mb_default :=
    match default self with
    | Some d => if Py.truthy d then "=" ++ d else ""
    | None => ""
    end in
  Some (type0 ++ " " ++ name self ++ mb_default).

Definition parse (arg : string) : option t :=
  '(type_and_annot, name_and_default) <-
    match Py.rsplit1 arg " " with
    | [a; b] => Some (a, b)
    | _ => None
    end ;;
  '(name, default) <-
    (if Py.contains name_and_default "="
     then match Py.split name_and_default "=" with
          | [n; d] => Some (n, Some d)
          | _ => None
          end
     else Some (name_and_default, None)) ;;
  '(type, annotation) <- parse_type_and_annot type_and_annot ;;
  let r := mk name type default annotation in
  assert opt_string_eqb (str r) (Some arg) ;;
  Some r.

End Argument.

Module Return.

Record t := mk {
  name : option string;
  type : Ty.t;
  annotation : option Annotation.t
}.

Definition eqb (a b : t) : bool :=
  opt_string_eqb (name a) (name b)
  && Ty.eqb (type a) (type b)
  && Annotation.opt_eqb (annotation a) (annotation b).

Definition is_write (self : t) : bool :=
  Annotation.opt_is_write (annotation self).

Definition str (self : t) : option string :=
  type0 <- str_type_and_annot (type self) (annotation self) ;;
  match name self with
  | None => Some type0
  | Some n => Some (type0 ++ " " ++ n)
  end.

Definition parse (arg : string) : option t :=
  '(type_and_annot, name) <-
    (if Py.contains arg " "
     then match Py.rsplit1 arg " " with
          | [a; b] => Some (a, Some b)
          | _ => None
          end
     else Some (arg, None)) ;;
  '(type, annotation) <- parse_type_and_annot type_and_annot ;;
  let r := mk name type annotation in
  assert opt_string_eqb (str r) (Some arg) ;;
  Some r.

End Return.

(** [tuple(map(f, l))] for an [f] that can raise. *)
Fixpoint map_opt {A B} (f : A -> option B) (l : list A) : option (list B) :=
  match l with
  | [] => Some []
  | x :: l' => y <- f x ;; ys <- map_opt f l' ;; Some (y :: ys)
  end.

Fixpoint list_eqb {A} (eqb : A -> A -> bool) (l1 l2 : list A) : bool :=
  match l1, l2 with
  | [], [] => true
  | x :: l1', y :: l2' => eqb x y && list_eqb eqb l1' l2'
  | _, _ => false
  end.

Definition nonempty {A} (l : list A) : bool :=
  match l with [] => false | _ :: _ => true end.

Module SelfArgument.

Record t := mk { argument : Argument.t }.

Definition eqb (a b : t) : bool := Argument.eqb (argument a) (argument b).

End SelfArgument.

Module TensorOptionsArguments.

Record t := mk {
  dtype : Argument.t;
  layout : Argument.t;
  device : Argument.t;
  pin_memory : Argument.t
}.

Definition eqb (a b : t) : bool :=
  Argument.eqb (dtype a) (dtype b)
  && Argument.eqb (layout a) (layout b)
  && Argument.eqb (device a) (device b)
  && Argument.eqb (pin_memory a) (pin_memory b).

Definition all (self : t) : list Argument.t :=
  [dtype self; layout self; device self; pin_memory self].

End TensorOptionsArguments.

Module Arguments.

Record t := mk {
  pre_self_positional : list Argument.t;
  self_arg : option SelfArgument.t;
  post_self_positional : list Argument.t;
  pre_tensor_options_kwarg_only : list Argument.t;
  tensor_options : option TensorOptionsArguments.t;
  post_tensor_options_kwarg_only : list Argument.t;
  out : list Argument.t
}.

Definition eqb (a b : t) : bool :=
  list_eqb Argument.eqb (pre_self_positional a) (pre_self_positional b)
  && match self_arg a, self_arg b with
     | Some x, Some y => SelfArgument.eqb x y
     | None, None => true
     | _, _ => false
     end
  && list_eqb Argument.eqb (post_self_positional a) (post_self_positional b)
  && list_eqb Argument.eqb (pre_tensor_options_kwarg_only a)
                           (pre_tensor_options_kwarg_only b)
  && match tensor_options a, tensor_options b with
     | Some x, Some y => TensorOptionsArguments.eqb x y
     | None, None => true
     | _, _ => false
     end
  && list_eqb Argument.eqb (post_tensor_options_kwarg_only a)
                           (post_tensor_options_kwarg_only b)
  && list_eqb Argument.eqb (out a) (out b).

Definition post_init (self : t) : bool :=
  (match self_arg self with
   | None => negb (nonempty (pre_self_positional self))
   | Some _ => true
   end)
  && (match tensor_options self with
      | None => negb (nonempty (post_tensor_options_kwarg_only self))
      | Some _ => true
      end)
  && (let mutable_pre_self_positionals :=
        filter Argument.is_write (pre_self_positional self) in
      Nat.eqb (List.length mutable_pre_self_positionals) 0).

(** The constructor call [Arguments(...)]. *)
Definition make (pre_self_positional : list Argument.t)
    (self_arg : option SelfArgument.t)
    (post_self_positional pre_tensor_options_kwarg_only : list Argument.t)
    (tensor_options : option TensorOptionsArguments.t)
    (post_tensor_options_kwarg_only out : list Argument.t) : option t :=
  let r := mk pre_self_positional self_arg post_self_positional
              pre_tensor_options_kwarg_only tensor_options
              post_tensor_options_kwarg_only out in
  assert post_init r ;; Some r.

Definition flat_positional (self : t) : list Argument.t :=
  pre_self_positional self
  ++ match self_arg self with
     | Some s => [SelfArgument.argument s]
     | None => []
     end
  ++ post_self_positional self.

Definition post_self_positional_mutable (self : t) : list Argument.t :=
  filter Argument.is_write (post_self_positional self).

Definition flat_kwarg_only (self : t) : list Argument.t :=
  pre_tensor_options_kwarg_only self
  ++ match tensor_options self with
     | Some o => TensorOptionsArguments.all o
     | None => []
     end
  ++ post_tensor_options_kwarg_only self.

Definition flat_all (self : t) : list Argument.t :=
  flat_positional self ++ flat_kwarg_only self ++ out self.

Definition strip_arg_annotation (strip_default : bool) (a : Argument.t)
  : Argument.t :=
  Argument.mk (Argument.name a) (Argument.type a)
              (if negb strip_default then Argument.default a else None)
              None.

Definition signature (strip_default : bool) (self : t) : option t :=
  let strip := strip_arg_annotation strip_default in
  make (map strip (pre_self_positional self))
       (match self_arg self with
        | Some s => Some (SelfArgument.mk (strip (SelfArgument.argument s)))
        | None => None
        end)
       (map strip (post_self_positional self))
       (map strip (pre_tensor_options_kwarg_only self)
        ++ map strip (post_tensor_options_kwarg_only self))
       None
       []
       [].

(** *** Phase 1: [_preparse] *)

(** The list that [arguments_acc] is bound to. *)
Inductive bucket := Positional | KwargOnly | Out.

Definition bucket_eqb (a b : bucket) : bool :=
  match a, b with
  | Positional, Positional | KwargOnly, KwargOnly | Out, Out => true
  | _, _ => false
  end.

(** The local variables of [_preparse]. *)
Record preparse_state := mk_state {
  positional : list Argument.t;
  kwarg_only : list Argument.t;
  st_out : list Argument.t;
  arguments_acc : bucket
}.

Definition preparse_init : preparse_state := mk_state [] [] [] Positional.

(** [arguments_acc.append(parg)] after [arguments_acc] was rebound. *)
Definition append_to (b : bucket) (parg : Argument.t) (st : preparse_state)
  : preparse_state :=
  match b with
  | Positional =>
      mk_state (positional st ++ [parg]) (kwarg_only st) (st_out st) b
  | KwargOnly =>
      mk_state (positional st) (kwarg_only st ++ [parg]) (st_out st) b
  | Out =>
      mk_state (positional st) (kwarg_only st) (st_out st ++ [parg]) b
  end.

(** One iteration of the loop of [_preparse] over a piece [arg] of
    [args.split(", ")]. *)
Definition preparse_step (st : preparse_state) (arg : string)
  : option preparse_state :=
  if negb (Py.truthy arg) then Some st
  else if String.eqb arg "*" then
    assert bucket_eqb (arguments_acc st) Positional ;;
    Some (mk_state (positional st) (kwarg_only st) (st_out st) KwargOnly)
  else
    parg <- Argument.parse arg ;;
    acc <-
      (if Argument.is_write parg then
         match arguments_acc st with
         | Positional => Some Positional
         | KwargOnly => Some Out
         | Out => Some Out
         end
       else
         assert negb (bucket_eqb (arguments_acc st) Out) ;;
         Some (arguments_acc st)) ;;
    Some (append_to acc parg st).

Fixpoint preparse_loop (st : preparse_state) (pieces : list string)
  : option preparse_state :=
  match pieces with
  | [] => Some st
  | arg :: rest => st' <- preparse_step st arg ;; preparse_loop st' rest
  end.

Definition _preparse (args : string)
  : option (list Argument.t * list Argument.t * list Argument.t) :=
  st <- preparse_loop preparse_init (Py.split args ", ") ;;
  Some (positional st, kwarg_only st, st_out st).

(** *** Phase 2: [parse] *)

(** The index found by the loop that looks for the argument named
    [self]. *)
Fixpoint find_self_ix (positional : list Argument.t) : option nat :=
  match positional with
  | [] => None
  | a :: rest =>
      if String.eqb (Argument.name a) "self" then Some 0
      else option_map S (find_self_ix rest)
  end.

(** [a.type in [ty, OptionalType(ty)]] and [a.name == name] *)
Definition pred (name : string) (ty : Ty.t) (a : Argument.t) : bool :=
  String.eqb (Argument.name a) name
  && existsb (Ty.eqb (Argument.type a)) [ty; Ty.OptionalType ty].

(** [Type.parse] of the four atom names, which cannot fail. *)
Definition predicates : list (Argument.t -> bool) :=
  [pred "dtype" (Ty.BaseType BaseTy.ScalarType);
   pred "layout" (Ty.BaseType BaseTy.Layout);
   pred "device" (Ty.BaseType BaseTy.Device);
   pred "pin_memory" (Ty.BaseType BaseTy.bool)].

(** The list that [kwarg_only_acc] is bound to. *)
Inductive kw_bucket := PreTensorOptions | PostTensorOptions.

Record group_state := mk_group {
  g_pre : list Argument.t;
  g_tensor_options : option TensorOptionsArguments.t;
  g_post : list Argument.t;
  kwarg_only_acc : kw_bucket
}.

Definition group_init : group_state := mk_group [] None [] PreTensorOptions.

Definition group_append (a : Argument.t) (st : group_state) : group_state :=
  match kwarg_only_acc st with
  | PreTensorOptions =>
      mk_group (g_pre st ++ [a]) (g_tensor_options st) (g_post st)
               PreTensorOptions
  | PostTensorOptions =>
      mk_group (g_pre st) (g_tensor_options st) (g_post st ++ [a])
               PostTensorOptions
  end.

(** The [while i < len(kwarg_only)] loop; [rest] is [kwarg_only[i:]], so
    that [i <= len(kwarg_only) - len(predicates)] says that [rest] has at
    least four elements. *)
Fixpoint group_loop (rest : list Argument.t) (st : group_state)
  : option group_state :=
  match rest with
  | [] => Some st
  | a :: rest1 =>
      match rest with
      | a0 :: a1 :: a2 :: a3 :: rest4 =>
          if forallb (fun pa => fst pa (snd pa))
                     (combine predicates [a0; a1; a2; a3])
          then
            assert match kwarg_only_acc st with
                   | PreTensorOptions => true
                   | PostTensorOptions => false
                   end ;;
            group_loop rest4
              (mk_group (g_pre st)
                        (Some (TensorOptionsArguments.mk a0 a1 a2 a3))
                        (g_post st) PostTensorOptions)
          else group_loop rest1 (group_append a st)
      | _ => group_loop rest1 (group_append a st)
      end
  end.

Definition parse (args : string) : option t :=
  '(positional, kwarg_only, out) <- _preparse args ;;
  let self_ix := find_self_ix positional in
  let '(pre_self_positional, self_arg, post_self_positional) :=
    match self_ix with
    | Some ix =>
        (firstn ix positional,
         option_map SelfArgument.mk (nth_error positional ix),
         skipn (ix + 1) positional)
    | None => ([], None, positional)
    end in
  st <- group_loop kwarg_only group_init ;;
  make pre_self_positional self_arg post_self_positional
       (g_pre st) (g_tensor_options st) (g_post st) out.

(** [__str__] *)
Definition str (self : t) : option string :=
  positional_s <- map_opt Argument.str (flat_positional self) ;;
  kwarg_only_s <- map_opt Argument.str (flat_kwarg_only self) ;;
  out_s <- map_opt Argument.str (out self) ;;
  let star :=
    if nonempty (flat_kwarg_only self) || nonempty (out self)
    then ["*"] else [] in
  Some (Py.join ", " (positional_s ++ star ++ kwarg_only_s ++ out_s)).

End Arguments.

(** ** Operator names *)

Definition AUGMENTED_ASSIGNMENT_NAMES : list string :=
  ["add"; "sub"; "mul"; "div"; "mod"; "pow"; "lshift"; "rshift"; "and";
   "xor"; "or"].

Module BaseOperatorName.

Record t := mk {
  base : string;
  inplace : bool;
  dunder_method : bool
}.

Definition eqb (a b : t) : bool :=
  String.eqb (base a) (base b)
  && Bool.eqb (inplace a) (inplace b)
  && Bool.eqb (dunder_method a) (dunder_method b).

Definition str (self : t) : string :=
  if dunder_method self then
    let i := if inplace self then "i" else "" in
    "__" ++ i ++ base self ++ "__"
  else
    let i := if inplace self then "_" else "" in
    base self ++ i.

Definition not_underscore (c : ascii) : bool := negb (Ascii.eqb c "_").

(** [re.match(r"^__([^_]+)__$", op)]: group 1. *)
Definition re_dunder (op : string) : option string :=
  Py.dollar
    (fun op =>
       rest <- Py.strip_prefix "__" op ;;
       let (g, tail) := Py.span not_underscore rest in
       assert Py.truthy g ;;
       assert String.eqb tail "__" ;;
       Some g) op.

(** [base[-1] == "_"] and [base[:-1]] for a non-empty [base]. *)
Definition strip_last_underscore (base : string) : option string :=
  Py.strip_suffix "_" base.

Definition parse (op : string) : option t :=
  assert negb (String.eqb op "") ;;
  assert negb (Py.endswith op "_out") ;;
  '(base, inplace, dunder_method) <-
    match re_dunder op with
    | Some base =>
        if existsb (fun n => String.eqb base ("i" ++ n))
                   AUGMENTED_ASSIGNMENT_NAMES
        then Some (Py.drop 1 base, true, true)
        else
          assert negb (Py.startswith base "i") ;;
          Some (base, false, true)
    | None =>
        match strip_last_underscore op with
        | Some base => Some (base, true, false)
        | None => Some (op, false, false)
        end
    end ;;
  let r := mk base inplace dunder_method in
  assert String.eqb (str r) op ;;
  Some r.

End BaseOperatorName.

Module OperatorName.

Record t := mk {
  name : BaseOperatorName.t;
  overload_name : string
}.

Definition eqb (a b : t) : bool :=
  BaseOperatorName.eqb (name a) (name b)
  && String.eqb (overload_name a) (overload_name b).

Definition str (self : t) : string :=
  if Py.truthy (overload_name self)
  then BaseOperatorName.str (name self) ++ "." ++ overload_name self
  else BaseOperatorName.str (name self).

Definition parse (op_name : string) : option t :=
  '(name, overload_name) <-
    (if Py.contains op_name "."
     then match Py.split1 op_name "." with
          | [n; o] => Some (n, o)
          | _ => None
          end
     else Some (op_name, "")) ;;
  b <- BaseOperatorName.parse name ;;
  let r := mk b overload_name in
  assert String.eqb (str r) op_name ;;
  Some r.

End OperatorName.

(** ** Function schemas *)

Module SchemaKind.

Inductive t := functional | inplace | out | mutable.

Definition eqb (a b : t) : bool :=
  match a, b with
  | functional, functional | inplace, inplace | out, out
  | mutable, mutable => true
  | _, _ => false
  end.

End SchemaKind.

(** [parse_returns] *)
Definition parse_returns (return_decl : string) : option (list Return.t) :=
  if String.eqb return_decl "()" then Some []
  else
    match return_decl with
    | EmptyString => None
    | String c0 _ =>
        let return_decl :=
          if Ascii.eqb c0 "(" && Py.endswith return_decl ")"
          then Py.rev (Py.drop 1 (Py.rev (Py.drop 1 return_decl)))
          else return_decl in
        map_opt Return.parse (Py.split return_decl ", ")
    end.

Module FunctionSchema.

Record t := mk {
  name : OperatorName.t;
  arguments : Arguments.t;
  returns : list Return.t
}.

Definition eqb (a b : t) : bool :=
  OperatorName.eqb (name a) (name b)
  && Arguments.eqb (arguments a) (arguments b)
  && list_eqb Return.eqb (returns a) (returns b).

Definition is_functional_fn (self : t) : bool :=
  Py.contains (OperatorName.overload_name (name self)) "functional".

(** [kind()]; [None] is the failure of [assert not (is_out and
    is_inplace)]. *)
Definition kind (self : t) : option SchemaKind.t :=
  let is_out := nonempty (Arguments.out (arguments self)) in
  let is_inplace := BaseOperatorName.inplace (OperatorName.name (name self)) in
  let is_mutable :=
    existsb Argument.is_write
            (Arguments.post_self_positional (arguments self)) in
  assert negb (is_out && is_inplace) ;;
  if is_inplace then Some SchemaKind.inplace
  else if is_out then Some SchemaKind.out
  else if is_mutable then Some SchemaKind.mutable
  else Some SchemaKind.functional.

Definition kind_is (self : t) (k : SchemaKind.t) : bool :=
  match kind self with
  | Some k' => SchemaKind.eqb k' k
  | None => false
  end.

Definition post_init (self : t) : bool :=
  let args := arguments self in
  forallb (fun ar => Annotation.opt_eqb (Argument.annotation (fst ar))
                                        (Return.annotation (snd ar)))
          (combine (Arguments.out args) (returns self))
  && forallb (fun a =>
                negb (existsb
                        (fun r => Annotation.opt_eqb (Argument.annotation a)
                                                     (Return.annotation r))
                        (returns self)))
             (Arguments.post_self_positional_mutable args)
  && (let out_and_self :=
        (Arguments.out args
         ++ filter (fun arg => String.eqb (Argument.name arg) "self")
                   (Arguments.flat_positional args))%list in
      let mutable_returns := filter Return.is_write (returns self) in
      let immutable_returns :=
        filter (fun ret => negb (Return.is_write ret)) (returns self) in
      (Nat.eqb (List.length mutable_returns) 0
       || Nat.eqb (List.length immutable_returns) 0)
      && forallb (fun ret =>
                    existsb
                      (fun arg =>
                         Annotation.opt_eqb (Return.annotation ret)
                                            (Argument.annotation arg))
                      out_and_self)
                 mutable_returns)
  && (if nonempty (Arguments.out args) then
        if existsb (fun a => negb (Ty.eqb (Argument.type a)
                                          (Ty.BaseType BaseTy.Tensor)))
                   (Arguments.out args)
        then Nat.eqb (List.length (returns self)) 0
        else Nat.eqb (List.length (Arguments.out args))
                     (List.length (returns self))
      else true)
  && (if BaseOperatorName.inplace (OperatorName.name (name self)) then
        match Arguments.self_arg args with
        | None => false
        | Some self_a =>
            let a := SelfArgument.argument self_a in
            Argument.is_write a
            && (if Ty.eqb (Argument.type a) (Ty.BaseType BaseTy.Tensor)
                then
                  match returns self with
                  | [r] => Annotation.opt_eqb (Return.annotation r)
                                              (Argument.annotation a)
                  | _ => false
                  end
                else Nat.eqb (List.length (returns self)) 0)
        end
      else true)
  && (match Arguments.tensor_options args with
      | Some _ => kind_is self SchemaKind.functional
      | None => true
      end)
  && (if is_functional_fn self
      then kind_is self SchemaKind.functional
      else true).

(** The constructor call [FunctionSchema(...)]. *)
Definition make (name : OperatorName.t) (arguments : Arguments.t)
    (returns : list Return.t) : option t :=
  let r := mk name arguments returns in
  assert post_init r ;; Some r.

Definition str (self : t) : option string :=
  all_arguments_str <- Arguments.str (arguments self) ;;
  returns_s <-
    match returns self with
    | [r] => Return.str r
    | rs => l <- map_opt Return.str rs ;;
            Some ("(" ++ Py.join ", " l ++ ")")
    end ;;
  Some (OperatorName.str (name self)
        ++ "(" ++ all_arguments_str ++ ") -> " ++ returns_s).

Definition strip_ret_annotation (keep_return_names : bool) (r : Return.t)
  : Return.t :=
  Return.mk (if keep_return_names then Return.name r else None)
            (Return.type r) None.

(** The two operator names for which [signature()] prints its arguments,
    restores a default by textual replacement and parses them again. *)
Definition reparse_with_default (self_name this_name old new : string)
    (args_sig : Arguments.t) : option Arguments.t :=
  if String.eqb self_name this_name
  then s <- Arguments.str args_sig ;;
       Arguments.parse (Py.replace s old new)
  else Some args_sig.

(** [signature()] with its keyword-only arguments [strip_default],
    [strip_view_copy_name] and [keep_return_names], which all default to
    [False]. *)
Definition signature
    (strip_default strip_view_copy_name keep_return_names : bool)
    (self : t) : option t :=
  let args := arguments self in
  let base_name0 := BaseOperatorName.base (OperatorName.name (name self)) in
  let base_name :=
    if strip_view_copy_name && Py.endswith base_name0 "_copy"
    then Py.replace base_name0 "_copy" ""
    else base_name0 in
  let returns_from_mutable_inputs :=
    map (fun a =>
           Return.mk (if keep_return_names
                      then Some (Argument.name a ++ "_out") else None)
                     (Argument.type a) None)
        (filter
           (fun a =>
              Argument.is_write a
              && negb (existsb
                         (fun r => Annotation.opt_eqb (Argument.annotation a)
                                                      (Return.annotation r))
                         (returns self)))
           (match Arguments.self_arg args with
            | Some s => [SelfArgument.argument s]
            | None => []
            end
            ++ Arguments.out args
            ++ Arguments.post_self_positional args)%list) in
  let original_returns :=
    map (strip_ret_annotation keep_return_names) (returns self) in
  let returns := (original_returns ++ returns_from_mutable_inputs)%list in
  args_sig <- Arguments.signature strip_default args ;;
  args_sig <- reparse_with_default (OperatorName.str (name self))
                "arange.start_step" "Scalar step" "Scalar step=1" args_sig ;;
  args_sig <- reparse_with_default (OperatorName.str (name self))
                "bernoulli.p" "float p" "float p=0.5" args_sig ;;
  make (OperatorName.mk
          (BaseOperatorName.mk
             base_name false
             (BaseOperatorName.dunder_method (OperatorName.name (name self))))
          "")
       args_sig returns.

Definition not_lparen (c : ascii) : bool := negb (Ascii.eqb c "(").

(** One attempt of [decl_re] at the beginning of [s]: the groups [name],
    [args] and [returns], and the number of characters matched.  The
    [name] group is the longest run of characters other than an opening
    parenthesis, which an opening parenthesis must follow; on the rest of
    that line, the greedy [args] group ends at the last [") -> "], and
    [returns] is what follows up to the end of the line. *)
Definition decl_re_match (s : string)
  : option (string * string * string * nat) :=
  let (name, after) := Py.span not_lparen s in
  assert Py.truthy name ;;
  rest <- Py.strip_prefix "(" after ;;
  let (line, _) := Py.span Py.is_dot rest in
  '(args, returns) <- Py.rpartition line ") -> " ;;
  Some (name, args, returns,
        String.length name + 1 + String.length line).

(** [decl_re.findall(func)]: the matches from left to right, each search
    resuming where the previous match ended.  [skip] counts the characters
    of the last match still to be passed over. *)
Fixpoint decl_re_findall_aux (skip : nat) (s : string)
  : list (string * string * string) :=
  match s with
  | EmptyString => []
  | String _ s' =>
      match skip with
      | S k => decl_re_findall_aux k s'
      | O =>
          match decl_re_match s with
          | Some (n, a, r, len) =>
              (n, a, r) :: decl_re_findall_aux (len - 1) s'
          | None => decl_re_findall_aux 0 s'
          end
      end
  end.

Definition decl_re_findall (func : string) : list (string * string * string) :=
  decl_re_findall_aux 0 func.

Definition parse (func : string) : option t :=
  '(ops, args, return_decl) <-
    match decl_re_findall func with
    | [d] => Some d
    | _ => None
    end ;;
  name <- OperatorName.parse ops ;;
  arguments <- Arguments.parse args ;;
  returns <- parse_returns return_decl ;;
  r <- make name arguments returns ;;
  assert opt_string_eqb (str r) (Some func) ;;
  Some r.

End FunctionSchema.

(** ** Native functions and their groups *)

Module NativeFunction.

(** The fields of [NativeFunction] that [NativeFunctionsGroup] reads. *)
Record t := mk {
  func : FunctionSchema.t;
  autogen : list OperatorName.t;
  structured : bool;
  structured_delegate : option OperatorName.t;
  has_composite_implicit_autograd_kernel : bool;
  tags : list string
}.

End NativeFunction.

Module NativeFunctionsGroup.

Record t := mk {
  functional : NativeFunction.t;
  inplace : option NativeFunction.t;
  mutable : option NativeFunction.t;
  out : NativeFunction.t
}.

(** What stops the construction of a group. *)
Inductive error :=
| SignatureMismatch (message : string)
    (** the [AssertionError] raised for two members whose signatures
        differ *)
| AssertionFailed
    (** one of the [assert] statements *)
| GeneratedMismatch
    (** one of the two [RuntimeError]s about the [generated] tag *)
| Raised.
    (** an exception out of [signature()], [kind()] or [__str__] *)

Definition result (A : Type) : Type := (error + A)%type.

Definition structured (self : t) : bool :=
  NativeFunction.structured (out self).

Definition opt_to_list {A} (o : option A) : list A :=
  match o with Some x => [x] | None => [] end.

(** The members in the order [functions()] yields them. *)
Definition functions (self : t) : list NativeFunction.t :=
  ([functional self; out self]
   ++ opt_to_list (inplace self) ++ opt_to_list (mutable self))%list.

(** The first loop of [__post_init__]. *)
Fixpoint check_signatures (test_sig : FunctionSchema.t)
    (fs : list NativeFunction.t) : result unit :=
  match fs with
  | [] => inr tt
  | f :: rest =>
      match FunctionSchema.signature false false false
              (NativeFunction.func f) with
      | None => inl Raised
      | Some f_sig =>
          if negb (FunctionSchema.eqb test_sig f_sig) then
            match FunctionSchema.str test_sig, FunctionSchema.str f_sig with
            | Some a, Some b =>
                inl (SignatureMismatch
                       ("NativeFunctionsGroup constructed from two NativeFunctions that don't have matching signatures: "
                        ++ a ++ " != " ++ b))
            | _, _ => inl Raised
            end
          else check_signatures test_sig rest
      end
  end.

(** [assert f.func.kind() == k] *)
Definition check_kind (f : NativeFunction.t) (k : SchemaKind.t)
  : result unit :=
  match FunctionSchema.kind (NativeFunction.func f) with
  | None => inl Raised
  | Some k' => if SchemaKind.eqb k' k then inr tt else inl AssertionFailed
  end.

Definition check (b : bool) : result unit :=
  if b then inr tt else inl AssertionFailed.

Definition opt_name_eqb (a : option OperatorName.t) (b : OperatorName.t)
  : bool :=
  match a with Some x => OperatorName.eqb x b | None => false end.

Notation "e1 >> e2" :=
  (match e1 with inl err => inl err | inr _ => e2 end)
  (at level 62, right associativity).

Definition post_init (self : t) : result unit :=
  match FunctionSchema.signature false false false
          (NativeFunction.func (functional self)) with
  | None => inl Raised
  | Some test_sig =>
      check_signatures test_sig (functions self) >>
      check_kind (functional self) SchemaKind.functional >>
      check_kind (out self) SchemaKind.out >>
      match inplace self with
      | Some f => check_kind f SchemaKind.inplace
      | None => inr tt
      end >>
      match mutable self with
      | Some f => check_kind f SchemaKind.mutable
      | None => inr tt
      end >>
      (if structured self then
         check (negb (NativeFunction.has_composite_implicit_autograd_kernel
                        (out self))) >>
         check (opt_name_eqb
                  (NativeFunction.structured_delegate (functional self))
                  (FunctionSchema.name (NativeFunction.func (out self)))) >>
         match inplace self with
         | Some f =>
             check (opt_name_eqb
                      (NativeFunction.structured_delegate f)
                      (FunctionSchema.name (NativeFunction.func (out self))))
         | None => inr tt
         end
       else inr tt) >>
      (let generated_fns :=
         map (fun f => OperatorName.str
                         (FunctionSchema.name (NativeFunction.func f)))
             (filter (fun f => existsb (String.eqb "generated")
                                       (NativeFunction.tags f))
                     (functions self)) in
       let generated_fns_str := Py.join ", " generated_fns in
       (* [f] is still bound to the last member the first loop visited *)
       let f := last (functions self) (functional self) in
       let expected_generated_fns := NativeFunction.autogen f in
       let expected_generated_fns_str :=
         Py.join ", " (map OperatorName.str expected_generated_fns) in
       if Nat.eqb (List.length expected_generated_fns) 0
          && Nat.ltb 0 (List.length generated_fns)
       then inl GeneratedMismatch
       else if negb (String.eqb expected_generated_fns_str generated_fns_str)
       then inl GeneratedMismatch
       else inr tt)
  end.

(** The constructor call [NativeFunctionsGroup(...)]. *)
Definition make (functional : NativeFunction.t)
    (inplace mutable : option NativeFunction.t) (out : NativeFunction.t)
  : result t :=
  let r := mk functional inplace mutable out in
  post_init r >> inr r.

(** A [Dict[SchemaKind, NativeFunction]]: what each key is bound to. *)
Definition dict : Type := SchemaKind.t -> option NativeFunction.t.

Definition dict_len (d : dict) : nat :=
  List.length
    (opt_to_list (d SchemaKind.functional)
     ++ opt_to_list (d SchemaKind.inplace)
     ++ opt_to_list (d SchemaKind.out)
     ++ opt_to_list (d SchemaKind.mutable))%list.

(** [from_dict]; the four [pop]s empty the dictionary, so [assert not d]
    holds. *)
Definition from_dict (d : dict) : result (option t) :=
  check (Nat.ltb 0 (dict_len d)) >>
  if Nat.eqb (dict_len d) 1 then inr None
  else
    let functional := d SchemaKind.functional in
    let inplace := d SchemaKind.inplace in
    let mutable := d SchemaKind.mutable in
    let out := d SchemaKind.out in
    match functional with
    | None => inl AssertionFailed
    | Some functional =>
        match out with
        | None => inr None
        | Some out =>
            match make functional inplace mutable out with
            | inl err => inl err
            | inr g => inr (Some g)
            end
        end
    end.

End NativeFunctionsGroup.

(** ** Vocabulary of the statements *)

(** The fixed quad in the words of the specification: names and types of
    four arguments, in this order. *)
Definition is_tensor_options_quad (a0 a1 a2 a3 : Argument.t) : Prop :=
  let named (a : Argument.t) (name : string) (ty : BaseTy.t) :=
    Argument.name a = name
    /\ (Argument.type a = Ty.BaseType ty
        \/ Argument.type a = Ty.OptionalType (Ty.BaseType ty)) in
  named a0 "dtype" BaseTy.ScalarType
  /\ named a1 "layout" BaseTy.Layout
  /\ named a2 "device" BaseTy.Device
  /\ named a3 "pin_memory" BaseTy.bool.

(** Four consecutive elements of [l] form the quad. *)
Definition has_tensor_options_quad (l : list Argument.t) : Prop :=
  exists pre a0 a1 a2 a3 post,
    l = (pre ++ a0 :: a1 :: a2 :: a3 :: post)%list
    /\ is_tensor_options_quad a0 a1 a2 a3.

(** The test at the head of the loop of [Arguments.parse], on
    [kwarg_only[i:]]. *)
Definition quad_head (l : list Argument.t)
  : option (TensorOptionsArguments.t * list Argument.t) :=
  match l with
  | a0 :: a1 :: a2 :: a3 :: rest4 =>
      if forallb (fun pa => fst pa (snd pa))
                 (combine Arguments.predicates [a0; a1; a2; a3])
      then Some (TensorOptionsArguments.mk a0 a1 a2 a3, rest4)
      else None
  | _ => None
  end.

(** The two operator names that [signature()] treats specially. *)
Definition reparsed_name (n : OperatorName.t) : bool :=
  String.eqb (OperatorName.str n) "arange.start_step"
  || String.eqb (OperatorName.str n) "bernoulli.p".

(** [signature()] with its default keyword arguments. *)
Definition default_signature : FunctionSchema.t -> option FunctionSchema.t :=
  FunctionSchema.signature false false false.

(** The value [signature()] builds for an operator name that it does not
    treat specially. *)
Definition plain_signature (x : FunctionSchema.t) : FunctionSchema.t :=
  let strip := Arguments.strip_arg_annotation false in
  let args := FunctionSchema.arguments x in
  FunctionSchema.mk
    (OperatorName.mk
       (BaseOperatorName.mk
          (BaseOperatorName.base (OperatorName.name (FunctionSchema.name x)))
          false
          (BaseOperatorName.dunder_method
             (OperatorName.name (FunctionSchema.name x))))
       "")
    (Arguments.mk
       (map strip (Arguments.pre_self_positional args))
       (match Arguments.self_arg args with
        | Some s => Some (SelfArgument.mk (strip (SelfArgument.argument s)))
        | None => None
        end)
       (map strip (Arguments.post_self_positional args))
       (map strip (Arguments.pre_tensor_options_kwarg_only args)
        ++ map strip (Arguments.post_tensor_options_kwarg_only args))%list
       None [] [])
    (map (FunctionSchema.strip_ret_annotation false) (FunctionSchema.returns x)
     ++ map (fun a => Return.mk None (Argument.type a) None)
         (filter
            (fun a =>
               Argument.is_write a
               && negb (existsb
                          (fun r => Annotation.opt_eqb (Argument.annotation a)
                                                       (Return.annotation r))
                          (FunctionSchema.returns x)))
            (match Arguments.self_arg args with
             | Some s => [SelfArgument.argument s]
             | None => []
             end
             ++ Arguments.out args
             ++ Arguments.post_self_positional args)))%list.

(** An argument whose [__str__] does not raise. *)
Definition printable (a : Argument.t) : Prop := Argument.str a <> None.

(** An argument list whose [__str__] does not raise. *)
Definition all_printable (a : Arguments.t) : Prop :=
  Forall printable (Arguments.flat_positional a)
  /\ Forall printable (Arguments.flat_kwarg_only a)
  /\ Forall printable (Arguments.out a).

(** ** Further methods of the data model *)

(** [FunctionSchema.schema_order_arguments] *)
Definition schema_order_arguments (self : FunctionSchema.t) : list Argument.t :=
  (Arguments.flat_positional (FunctionSchema.arguments self)
   ++ Arguments.flat_kwarg_only (FunctionSchema.arguments self)
   ++ Arguments.out (FunctionSchema.arguments self))%list.

(** [FunctionSchema.returns_are_aliased] *)
Definition returns_are_aliased (self : FunctionSchema.t) : bool :=
  existsb Return.is_write (FunctionSchema.returns self).

(** [FunctionSchema.is_out_fn] *)
Definition is_out_fn (self : FunctionSchema.t) : bool :=
  nonempty (Arguments.out (FunctionSchema.arguments self)).

(** [FunctionSchema.modifies_arguments] *)
Definition modifies_arguments (self : FunctionSchema.t) : option bool :=
  k <- FunctionSchema.kind self ;;
  Some (existsb (SchemaKind.eqb k)
          [SchemaKind.inplace; SchemaKind.out; SchemaKind.mutable]).

(** [FunctionSchema.aliased_return_names]: for every return the name of
    the one argument with the same annotation, if there is one; more than
    one such argument raises. *)
Definition aliased_return_names (self : FunctionSchema.t)
  : option (list (option string)) :=
  map_opt
    (fun r =>
       let aliased_args :=
         filter (fun a =>
                   match Argument.annotation a with
                   | Some _ => Annotation.opt_eqb (Argument.annotation a)
                                                  (Return.annotation r)
                   | None => false
                   end)
                (Arguments.flat_all (FunctionSchema.arguments self)) in
       match aliased_args with
       | [] => Some None
       | [a] => Some (Some (Argument.name a))
       | _ => None
       end)
    (FunctionSchema.returns self).

(** [FunctionSchema.view_signature] *)
Definition view_signature (self : FunctionSchema.t) : option FunctionSchema.t :=
  FunctionSchema.signature false true false self.

(** [FunctionSchema.with_name] *)
Definition with_name (self : FunctionSchema.t) (name : OperatorName.t)
  : option FunctionSchema.t :=
  FunctionSchema.make name (FunctionSchema.arguments self)
                      (FunctionSchema.returns self).

(** [Arguments.mutable_arg_names] *)
Definition mutable_arg_names (self : Arguments.t) : list string :=
  map Argument.name (filter Argument.is_write (Arguments.flat_all self)).

(** [Arguments.remove_self_annotation]; [dataclasses.replace] calls the
    constructor again. *)
Definition remove_self_annotation (self : Arguments.t) : option Arguments.t :=
  s <- Arguments.self_arg self ;;
  let a := SelfArgument.argument s in
  Arguments.make (Arguments.pre_self_positional self)
    (Some (SelfArgument.mk
             (Argument.mk (Argument.name a) (Argument.type a)
                          (Argument.default a) None)))
    (Arguments.post_self_positional self)
    (Arguments.pre_tensor_options_kwarg_only self)
    (Arguments.tensor_options self)
    (Arguments.post_tensor_options_kwarg_only self)
    (Arguments.out self).

(** [Arguments.with_out_args] *)
Definition with_out_args (self : Arguments.t) (outs : list Argument.t)
  : option Arguments.t :=
  assert Nat.eqb (List.length (Arguments.out self)) 0 ;;
  Arguments.make (Arguments.pre_self_positional self)
    (Arguments.self_arg self)
    (Arguments.post_self_positional self)
    (Arguments.pre_tensor_options_kwarg_only self)
    (Arguments.tensor_options self)
    (Arguments.post_tensor_options_kwarg_only self)
    outs.

(** The pieces of [args.split(", ")] that [_preparse] parses as
    arguments: the non-empty ones other than the star. *)
Definition argument_pieces (args : string) : list string :=
  filter (fun arg => Py.truthy arg && negb (String.eqb arg "*"))
         (Py.split args ", ").

(** ** View operators and their groups *)

(** [tag in f.tags] *)
Definition has_tag (tag : string) (f : NativeFunction.t) : bool :=
  existsb (String.eqb tag) (NativeFunction.tags f).

(** [NativeFunction.is_view_op] *)
Definition is_view_op (f : NativeFunction.t) : bool :=
  let rets := FunctionSchema.returns (NativeFunction.func f) in
  let is_non_mutating_view :=
    Nat.ltb 0 (List.length rets)
    && existsb (fun r => match Return.annotation r with
                         | Some a => negb (Annotation.is_write a)
                         | None => false
                         end) rets in
  let is_inplace_view := has_tag "inplace_view" f in
  let is_wildcard_view :=
    existsb (fun inp => match Argument.annotation inp with
                        | Some a =>
                            negb (String.eqb (Annotation.alias_set_after a) "")
                        | None => false
                        end)
            (schema_order_arguments (NativeFunction.func f)) in
  is_non_mutating_view || is_inplace_view || is_wildcard_view.

(** [NativeFunction.root_name] *)
Definition root_name (f : NativeFunction.t) : string :=
  BaseOperatorName.base
    (OperatorName.name (FunctionSchema.name (NativeFunction.func f))).

(** [gets_generated_view_copy] *)
Definition gets_generated_view_copy (f : NativeFunction.t) : bool :=
  if negb (is_view_op f) then false
  else if NativeFunction.has_composite_implicit_autograd_kernel f then false
  else if has_tag "inplace_view" f then false
  else true.

(** [get_view_copy_name] *)
Definition get_view_copy_name (f : NativeFunction.t) : option OperatorName.t :=
  let list_of_ops_with_explicit_view_copy_operators := ["narrow"] in
  let n := FunctionSchema.name (NativeFunction.func f) in
  assert (if negb (existsb (String.eqb (OperatorName.str n))
                           list_of_ops_with_explicit_view_copy_operators)
          then gets_generated_view_copy f else true) ;;
  let base_name := BaseOperatorName.base (OperatorName.name n) ++ "_copy" in
  Some (OperatorName.mk
          (BaseOperatorName.mk
             base_name false
             (BaseOperatorName.dunder_method (OperatorName.name n)))
          (OperatorName.overload_name n)).

(** [==] on two results of [signature()], either of which may have
    raised. *)
Definition signatures_equal (a b : option FunctionSchema.t) : bool :=
  match a, b with
  | Some x, Some y => FunctionSchema.eqb x y
  | _, _ => false
  end.

Module NativeFunctionsViewGroup.

Record t := mk {
  view : NativeFunction.t;
  view_copy : option NativeFunction.t;
  view_inplace : option NativeFunction.t
}.

(** [__post_init__]: [true] when no assertion fails and no call raises. *)
Definition post_init (self : t) : bool :=
  is_view_op (view self)
  && match view_copy self with
     | None => negb (gets_generated_view_copy (view self))
     | Some vc =>
         Py.endswith
           (BaseOperatorName.base
              (OperatorName.name (FunctionSchema.name (NativeFunction.func vc))))
           "_copy"
         && signatures_equal
              (FunctionSchema.signature false false false
                 (NativeFunction.func (view self)))
              (FunctionSchema.signature false true false
                 (NativeFunction.func vc))
         && has_tag "view_copy" vc
     end
  && match view_inplace self with
     | Some vi =>
         signatures_equal
           (FunctionSchema.signature false false false
              (NativeFunction.func (view self)))
           (FunctionSchema.signature false false false (NativeFunction.func vi))
     | None => true
     end
  && (if NativeFunction.has_composite_implicit_autograd_kernel (view self)
      then match view_inplace self with
           | Some vi => NativeFunction.has_composite_implicit_autograd_kernel vi
           | None => true
           end
      else true).

(** The constructor call [NativeFunctionsViewGroup(...)]. *)
Definition make (view : NativeFunction.t)
    (view_copy view_inplace : option NativeFunction.t) : option t :=
  let r := mk view view_copy view_inplace in
  assert post_init r ;; Some r.

(** [functions(include_copy)] *)
Definition functions (include_copy : bool) (self : t) : list NativeFunction.t :=
  ([view self]
   ++ match view_inplace self with Some vi => [vi] | None => [] end
   ++ match view_copy self with
      | Some vc => if include_copy then [vc] else []
      | None => []
      end)%list.

(** [composite] *)
Definition composite (self : t) : bool :=
  NativeFunction.has_composite_implicit_autograd_kernel (view self).

End NativeFunctionsViewGroup.

(** A type each of whose explicit list sizes is a positive integer. *)
Fixpoint sized_lists_positive (t : Ty.t) : bool :=
  match t with
  | Ty.BaseType _ => true
  | Ty.OptionalType elem => sized_lists_positive elem
  | Ty.ListType elem size =>
      sized_lists_positive elem
      && match size with
         | Some n => Z.ltb 0 n
         | None => true
         end
  end.

(** * Properties *)

Unset Implicit Arguments.

(** ** Boolean equality is sound *)

Lemma opt_string_eqb_eq (a b : option string) :
  opt_string_eqb a b = true -> a = b.
Proof.
  destruct a as [x|], b as [y|]; simpl; try discriminate; auto.
  intros H. apply String.eqb_eq in H. now subst.
Qed.

Lemma list_eqb_eq {A} (eqb : A -> A -> bool)
    (eqb_eq : forall x y, eqb x y = true -> x = y) (l1 l2 : list A) :
  list_eqb eqb l1 l2 = true -> l1 = l2.
Proof.
  revert l2. induction l1 as [|x l1 IH]; intros [|y l2]; simpl;
    try discriminate; auto.
  intros H. apply andb_true_iff in H as [Hx Hl].
  f_equal; auto.
Qed.

Lemma Annotation_eqb_eq (a b : Annotation.t) :
  Annotation.eqb a b = true -> a = b.
Proof.
  destruct a as [s1 w1 a1], b as [s2 w2 a2]. unfold Annotation.eqb. simpl.
  intros H. apply andb_true_iff in H as [H Ha].
  apply andb_true_iff in H as [Hs Hw].
  destruct (list_eq_dec string_dec s1 s2); try discriminate.
  apply Bool.eqb_prop in Hw. apply String.eqb_eq in Ha. now subst.
Qed.

Lemma Annotation_opt_eqb_eq (a b : option Annotation.t) :
  Annotation.opt_eqb a b = true -> a = b.
Proof.
  destruct a, b; simpl; try discriminate; auto.
  intros H. f_equal. now apply Annotation_eqb_eq.
Qed.

Lemma BaseTy_eqb_eq (a b : BaseTy.t) : BaseTy.eqb a b = true -> a = b.
Proof.
  destruct a, b; intros H; try reflexivity; discriminate H.
Qed.

Lemma Ty_eqb_eq (a b : Ty.t) : Ty.eqb a b = true -> a = b.
Proof.
  revert b. induction a as [x|x IH|x IH n]; intros [y|y|y m]; simpl;
    try discriminate.
  - intros H. f_equal. now apply BaseTy_eqb_eq.
  - intros H. f_equal. now apply IH.
  - intros H. apply andb_true_iff in H as [Hx Hn].
    f_equal; [now apply IH|].
    destruct n, m; try discriminate; auto.
    apply Z.eqb_eq in Hn. now subst.
Qed.

Lemma Argument_eqb_eq (a b : Argument.t) : Argument.eqb a b = true -> a = b.
Proof.
  destruct a, b. unfold Argument.eqb. simpl. intros H.
  repeat (apply andb_true_iff in H as [H ?]).
  apply String.eqb_eq in H.
  f_equal; auto using Ty_eqb_eq, opt_string_eqb_eq, Annotation_opt_eqb_eq.
Qed.

Lemma Return_eqb_eq (a b : Return.t) : Return.eqb a b = true -> a = b.
Proof.
  destruct a, b. unfold Return.eqb. simpl. intros H.
  repeat (apply andb_true_iff in H as [H ?]).
  f_equal; auto using Ty_eqb_eq, opt_string_eqb_eq, Annotation_opt_eqb_eq.
Qed.

Lemma Argument_list_eqb_eq (l1 l2 : list Argument.t) :
  list_eqb Argument.eqb l1 l2 = true -> l1 = l2.
Proof. apply list_eqb_eq, Argument_eqb_eq. Qed.

Lemma Return_list_eqb_eq (l1 l2 : list Return.t) :
  list_eqb Return.eqb l1 l2 = true -> l1 = l2.
Proof. apply list_eqb_eq, Return_eqb_eq. Qed.

Lemma TensorOptionsArguments_eqb_eq (a b : TensorOptionsArguments.t) :
  TensorOptionsArguments.eqb a b = true -> a = b.
Proof.
  destruct a, b. unfold TensorOptionsArguments.eqb. simpl. intros H.
  do 3 (apply andb_true_iff in H as [H ?]).
  f_equal; now apply Argument_eqb_eq.
Qed.

Lemma Arguments_eqb_eq (a b : Arguments.t) : Arguments.eqb a b = true -> a = b.
Proof.
  destruct a as [p1 s1 q1 k1 o1 r1 u1], b as [p2 s2 q2 k2 o2 r2 u2].
  unfold Arguments.eqb. simpl. intros H.
  do 6 (apply andb_true_iff in H as [H ?]).
  assert (Hs : s1 = s2).
  { destruct s1 as [[x]|], s2 as [[y]|]; try discriminate; auto.
    unfold SelfArgument.eqb in *. simpl in *.
    do 2 f_equal. now apply Argument_eqb_eq. }
  assert (Ho : o1 = o2).
  { destruct o1, o2; try discriminate; auto.
    f_equal. now apply TensorOptionsArguments_eqb_eq. }
  f_equal; auto using Argument_list_eqb_eq.
Qed.

Lemma OperatorName_eqb_eq (a b : OperatorName.t) :
  OperatorName.eqb a b = true -> a = b.
Proof.
  destruct a as [[b1 i1 d1] o1], b as [[b2 i2 d2] o2].
  unfold OperatorName.eqb, BaseOperatorName.eqb. simpl. intros H.
  repeat (apply andb_true_iff in H as [H ?]).
  apply String.eqb_eq in H.
  repeat match goal with
         | E : Bool.eqb _ _ = true |- _ => apply Bool.eqb_prop in E
         | E : String.eqb _ _ = true |- _ => apply String.eqb_eq in E
         end.
  now subst.
Qed.

Lemma FunctionSchema_eqb_eq (a b : FunctionSchema.t) :
  FunctionSchema.eqb a b = true -> a = b.
Proof.
  destruct a, b. unfold FunctionSchema.eqb. simpl. intros H.
  do 2 (apply andb_true_iff in H as [H ?]).
  f_equal; auto using OperatorName_eqb_eq, Arguments_eqb_eq,
    Return_list_eqb_eq.
Qed.

(** ** Parsing then printing *)

(** Take apart a hypothesis that says a chain of option binds and assertions
    returned a value. *)
Ltac unbind H :=
  repeat match type of H with
         | match ?e with _ => _ end = Some _ =>
             let E := fresh "E" in
             destruct e eqn:E; try discriminate H
         | (let (_, _) := ?e in _) = Some _ =>
             let E := fresh "E" in
             destruct e eqn:E
         end.

Lemma Ty_parse_fuel_str (fuel : nat) (s : string) (r : Ty.t) :
  Ty.parse_fuel fuel s = Some r -> Ty.str r = s.
Proof.
  destruct fuel as [|fuel]; simpl; [discriminate|].
  intros H.
  match type of H with
  | match ?e with _ => _ end = _ => destruct e as [r0|]; [|discriminate H]
  end.
  destruct (String.eqb (Ty.str r0) s) eqn:E; [|discriminate H].
  injection H as <-. now apply String.eqb_eq.
Qed.

Lemma Annotation_parse_str (s : string) (r : Annotation.t) :
  Annotation.parse s = Some r -> Annotation.str r = s.
Proof.
  unfold Annotation.parse. intros H. unbind H.
  injection H as <-. now apply String.eqb_eq.
Qed.

Lemma Argument_parse_str (s : string) (r : Argument.t) :
  Argument.parse s = Some r -> Argument.str r = Some s.
Proof.
  unfold Argument.parse. intros H. unbind H.
  injection H as <-. now apply opt_string_eqb_eq.
Qed.

Lemma Return_parse_str (s : string) (r : Return.t) :
  Return.parse s = Some r -> Return.str r = Some s.
Proof.
  unfold Return.parse. intros H. unbind H.
  injection H as <-. now apply opt_string_eqb_eq.
Qed.

Lemma BaseOperatorName_parse_str (s : string) (r : BaseOperatorName.t) :
  BaseOperatorName.parse s = Some r -> BaseOperatorName.str r = s.
Proof.
  unfold BaseOperatorName.parse. intros H. unbind H.
  injection H as <-. now apply String.eqb_eq.
Qed.

Lemma OperatorName_parse_str (s : string) (r : OperatorName.t) :
  OperatorName.parse s = Some r -> OperatorName.str r = s.
Proof.
  unfold OperatorName.parse. intros H. unbind H.
  injection H as <-. now apply String.eqb_eq.
Qed.

Lemma FunctionSchema_parse_str (s : string) (r : FunctionSchema.t) :
  FunctionSchema.parse s = Some r -> FunctionSchema.str r = Some s.
Proof.
  unfold FunctionSchema.parse. intros H. unbind H.
  injection H as <-. now apply opt_string_eqb_eq.
Qed.

(** C1: for each of [FunctionSchema], [Type], [Annotation], [Argument],
    [Return] and [OperatorName], printing the result of a successful parse
    of [s] gives back [s]. *)
Theorem parse_then_print_round_trip (s : string) :
  (forall r, FunctionSchema.parse s = Some r -> FunctionSchema.str r = Some s)
  /\ (forall r, Ty.parse s = Some r -> Ty.str r = s)
  /\ (forall r, Annotation.parse s = Some r -> Annotation.str r = s)
  /\ (forall r, Argument.parse s = Some r -> Argument.str r = Some s)
  /\ (forall r, Return.parse s = Some r -> Return.str r = Some s)
  /\ (forall r, OperatorName.parse s = Some r -> OperatorName.str r = s).
Proof.
  repeat split; intros r H.
  - now apply FunctionSchema_parse_str.
  - now apply Ty_parse_fuel_str with (fuel := S (String.length s)).
  - now apply Annotation_parse_str.
  - now apply Argument_parse_str.
  - now apply Return_parse_str.
  - now apply OperatorName_parse_str.
Qed.

Lemma parse_then_print_round_trip_witness :
  exists r,
    FunctionSchema.parse
      "add.Tensor(Tensor self, Tensor other, *, Scalar alpha=1) -> Tensor"
    = Some r
    /\ FunctionSchema.str r
       = Some "add.Tensor(Tensor self, Tensor other, *, Scalar alpha=1) -> Tensor".
Proof.
  eexists. split; [vm_compute; reflexivity|].
  apply (parse_then_print_round_trip
           "add.Tensor(Tensor self, Tensor other, *, Scalar alpha=1) -> Tensor").
  vm_compute. reflexivity.
Defined.

(** ** [kind()] *)

Lemma nonempty_true {A} (l : list A) : nonempty l = true <-> l <> [].
Proof. destruct l; simpl; split; congruence. Qed.

(** A schema that [FunctionSchema.parse] accepts, with an out-argument and
    an inplace operator name: [kind()] fails its assertion instead of
    answering [out]. *)
Lemma kind_out_and_inplace_counterexample :
  exists x,
    FunctionSchema.parse
      "add_(Tensor(a!) self, *, Tensor(a!) out) -> Tensor(a!)" = Some x
    /\ Arguments.out (FunctionSchema.arguments x) <> []
    /\ FunctionSchema.kind x <> Some SchemaKind.out.
Proof.
  eexists. split; [vm_compute; reflexivity|].
  split; [discriminate|]. vm_compute. discriminate.
Qed.

(** C2, amended: [kind()] fails exactly when the schema has out-arguments
    and an inplace operator name at once; whenever it returns, the answer is
    [out] if there are out-arguments, else [inplace] if the name encodes
    inplace, else [mutable] if a post-self positional argument is
    write-annotated, else [functional]. *)
Theorem kind_precedence (x : FunctionSchema.t) :
  let is_out := nonempty (Arguments.out (FunctionSchema.arguments x)) in
  let is_inplace :=
    BaseOperatorName.inplace (OperatorName.name (FunctionSchema.name x)) in
  let is_mutable :=
    existsb Argument.is_write
      (Arguments.post_self_positional (FunctionSchema.arguments x)) in
  (FunctionSchema.kind x = None <-> is_out = true /\ is_inplace = true)
  /\ forall k, FunctionSchema.kind x = Some k ->
       (is_out = true -> k = SchemaKind.out)
       /\ (is_out = false -> is_inplace = true -> k = SchemaKind.inplace)
       /\ (is_out = false -> is_inplace = false -> is_mutable = true ->
           k = SchemaKind.mutable)
       /\ (is_out = false -> is_inplace = false -> is_mutable = false ->
           k = SchemaKind.functional).
Proof.
  unfold FunctionSchema.kind. cbv zeta.
  destruct (nonempty _), (BaseOperatorName.inplace _), (existsb _ _); simpl;
    (split; [split; [intros H; try discriminate H; auto
                    |intros [? ?]; try discriminate; auto]
            |intros k H; try discriminate H; injection H as <-;
             repeat split; intros; try discriminate; auto]).
Qed.

Lemma kind_precedence_witness :
  exists x k,
    FunctionSchema.parse
      "add.out(Tensor self, Tensor(a!) other, *, Tensor(b!) out) -> Tensor(b!)"
    = Some x
    /\ FunctionSchema.kind x = Some k
    /\ k = SchemaKind.out.
Proof.
  eexists. eexists. split; [vm_compute; reflexivity|].
  match goal with
  | |- FunctionSchema.kind ?x = Some _ /\ _ =>
      assert (Hk : FunctionSchema.kind x = Some SchemaKind.out)
        by (vm_compute; reflexivity);
      split; [exact Hk|];
      apply (proj1 (proj2 (kind_precedence x) _ Hk)); vm_compute; reflexivity
  end.
Defined.

(** ** Constructor checks of [FunctionSchema] *)

Lemma Ty_eqb_false (a b : Ty.t) : a <> b -> Ty.eqb a b = false.
Proof.
  intros H. destruct (Ty.eqb a b) eqn:E; auto.
  apply Ty_eqb_eq in E. contradiction.
Qed.

(** The conjuncts of [FunctionSchema.post_init], in the order of the
    source. *)
Ltac split_post_init H :=
  unfold FunctionSchema.post_init in H; cbv zeta in H;
  do 6 (apply andb_true_iff in H as [H ?]).

Lemma make_post_init name args rets x :
  FunctionSchema.make name args rets = Some x ->
  x = FunctionSchema.mk name args rets /\ FunctionSchema.post_init x = true.
Proof.
  unfold FunctionSchema.make.
  destruct (FunctionSchema.post_init _) eqn:E; [|discriminate].
  intros H. injection H as <-. auto.
Qed.

(** C6: a constructed schema with at least one out-argument has no return
    when some out-argument is not of type [Tensor], and as many returns as
    out-arguments otherwise. *)
Theorem out_arguments_determine_return_count name args rets x :
  FunctionSchema.make name args rets = Some x ->
  Arguments.out (FunctionSchema.arguments x) <> [] ->
  ((exists a, In a (Arguments.out (FunctionSchema.arguments x))
              /\ Argument.type a <> Ty.BaseType BaseTy.Tensor) ->
   List.length (FunctionSchema.returns x) = 0)
  /\ ((forall a, In a (Arguments.out (FunctionSchema.arguments x)) ->
                 Argument.type a = Ty.BaseType BaseTy.Tensor) ->
      List.length (FunctionSchema.returns x)
      = List.length (Arguments.out (FunctionSchema.arguments x))).
Proof.
  intros Hmk Hout. apply make_post_init in Hmk as [_ Hpost].
  split_post_init Hpost.
  match goal with
  | E : (if nonempty _ then _ else _) = true |- _ => rename E into Hcheck
  end.
  apply nonempty_true in Hout. rewrite Hout in Hcheck.
  split.
  - intros (a & Hin & Hty).
    destruct (existsb _ _) eqn:Eex in Hcheck.
    + now apply Nat.eqb_eq in Hcheck.
    + rewrite <- not_true_iff_false in Eex. exfalso. apply Eex.
      apply existsb_exists. exists a. split; auto.
      now rewrite Ty_eqb_false.
  - intros Hall.
    destruct (existsb _ _) eqn:Eex in Hcheck.
    + apply existsb_exists in Eex as (a & Hin & Hne).
      rewrite (Hall a Hin) in Hne. discriminate Hne.
    + apply Nat.eqb_eq in Hcheck. auto.
Qed.

Lemma out_arguments_determine_return_count_witness :
  exists x,
    FunctionSchema.parse
      "_foreach_add.out(Tensor[] self, Scalar s, *, Tensor(a!)[] out) -> ()"
    = Some x
    /\ List.length (FunctionSchema.returns x) = 0.
Proof.
  eexists. split; [vm_compute; reflexivity|].
  match goal with
  | |- List.length (FunctionSchema.returns ?x) = _ =>
      refine (proj1 (@out_arguments_determine_return_count
                       (FunctionSchema.name x) (FunctionSchema.arguments x)
                       (FunctionSchema.returns x) x _ _) _)
  end.
  - vm_compute. reflexivity.
  - vm_compute. discriminate.
  - eexists. split; [vm_compute; left; reflexivity|vm_compute; discriminate].
Defined.

(** C7: a constructed schema with an inplace operator name has a
    write-annotated [self]; if [self] is a bare [Tensor] there is exactly
    one return and its annotation is that of [self], otherwise there is no
    return. *)
Theorem inplace_name_requires_mutable_self name args rets x :
  FunctionSchema.make name args rets = Some x ->
  BaseOperatorName.inplace (OperatorName.name (FunctionSchema.name x)) = true ->
  exists self_a ann,
    Arguments.self_arg (FunctionSchema.arguments x) = Some self_a
    /\ Argument.annotation (SelfArgument.argument self_a) = Some ann
    /\ Annotation.is_write ann = true
    /\ (Argument.type (SelfArgument.argument self_a)
        = Ty.BaseType BaseTy.Tensor ->
        exists r, FunctionSchema.returns x = [r]
                  /\ Return.annotation r = Some ann)
    /\ (Argument.type (SelfArgument.argument self_a)
        <> Ty.BaseType BaseTy.Tensor ->
        FunctionSchema.returns x = []).
Proof.
  intros Hmk Hin. apply make_post_init in Hmk as [_ Hpost].
  split_post_init Hpost.
  match goal with
  | E : (if BaseOperatorName.inplace _ then _ else _) = true |- _ =>
      rename E into Hcheck
  end.
  rewrite Hin in Hcheck.
  destruct (Arguments.self_arg _) as [self_a|]; [|discriminate].
  apply andb_true_iff in Hcheck as [Hw Hret].
  unfold Argument.is_write, Annotation.opt_is_write in Hw.
  destruct (Argument.annotation (SelfArgument.argument self_a)) as [ann|] eqn:Ea;
    [|discriminate].
  exists self_a, ann. repeat split; auto.
  - intros Hty. rewrite Hty in Hret. simpl in Hret.
    destruct (FunctionSchema.returns x) as [|r [|]]; try discriminate.
    exists r. split; auto. now apply Annotation_opt_eqb_eq.
  - intros Hty. rewrite (Ty_eqb_false _ _ Hty) in Hret.
    apply Nat.eqb_eq in Hret. now apply length_zero_iff_nil.
Qed.

Lemma inplace_name_requires_mutable_self_witness :
  exists x,
    FunctionSchema.parse
      "add_.Tensor(Tensor(a!) self, Tensor other, *, Scalar alpha=1) -> Tensor(a!)"
    = Some x
    /\ exists self_a, Arguments.self_arg (FunctionSchema.arguments x) = Some self_a.
Proof.
  eexists. split; [vm_compute; reflexivity|].
  match goal with
  | |- exists s, Arguments.self_arg (FunctionSchema.arguments ?x) = _ =>
      destruct (@inplace_name_requires_mutable_self
                  (FunctionSchema.name x) (FunctionSchema.arguments x)
                  (FunctionSchema.returns x) x)
        as (self_a & ann & H & _);
      [vm_compute; reflexivity|vm_compute; reflexivity|]
  end.
  exists self_a. exact H.
Defined.

(** ** Dunder operator names *)

Lemma span_stops (p : ascii -> bool) (x : string) (c : ascii) (rest : string) :
  Py.all_chars p x = true -> p c = false ->
  Py.span p (x ++ String c rest) = (x, String c rest).
Proof.
  intros Hx Hc. induction x as [|d x IH]; simpl in *.
  - now rewrite Hc.
  - apply andb_true_iff in Hx as [Hd Hx]. rewrite Hd, (IH Hx). reflexivity.
Qed.

Lemma strip_prefix_app (p s : string) : Py.strip_prefix p (p ++ s) = Some s.
Proof.
  unfold Py.strip_prefix. induction p as [|c p IH]; simpl.
  - now destruct s.
  - destruct (ascii_dec c c) as [_|Hne]; [|now elim Hne].
    destruct (String.prefix p (p ++ s)); [exact IH|discriminate IH].
Qed.

Lemma re_dunder_matches (x : string) :
  Py.all_chars BaseOperatorName.not_underscore x = true ->
  Py.truthy x = true ->
  BaseOperatorName.re_dunder ("__" ++ x ++ "__") = Some x.
Proof.
  intros Hall Hne. unfold BaseOperatorName.re_dunder, Py.dollar.
  rewrite strip_prefix_app.
  rewrite span_stops by (auto; reflexivity).
  rewrite Hne. reflexivity.
Qed.

(** C10: a name of the dunder form whose inner name starts with [i] and is
    not [i] followed by an augmented-assignment name does not parse. *)
Theorem dunder_i_name_rejected (rest : string) :
  Py.all_chars BaseOperatorName.not_underscore rest = true ->
  ~ In rest AUGMENTED_ASSIGNMENT_NAMES ->
  BaseOperatorName.parse ("__i" ++ rest ++ "__") = None.
Proof.
  intros Hall Hnot. unfold BaseOperatorName.parse.
  change ("__i" ++ rest ++ "__") with ("__" ++ String "i" rest ++ "__").
  destruct (negb (String.eqb _ "")); [|reflexivity].
  destruct (negb (Py.endswith _ "_out")); [|reflexivity].
  rewrite re_dunder_matches by (simpl; auto).
  destruct (existsb _ AUGMENTED_ASSIGNMENT_NAMES) eqn:E.
  - apply existsb_exists in E as (n & Hin & Heq).
    apply String.eqb_eq in Heq. injection Heq as ->. contradiction.
  - replace (Py.startswith (String "i" rest) "i") with true
      by (now destruct rest).
    reflexivity.
Qed.

Lemma dunder_i_name_rejected_witness :
  BaseOperatorName.parse "__imag__" = None.
Proof.
  apply (dunder_i_name_rejected "mag").
  - reflexivity.
  - simpl. intros H.
    repeat (destruct H as [H|H]; [discriminate H|]). exact H.
Defined.

(** ** Phase 1 of the argument classifier *)

Lemma Argument_parse_is_argument (arg : string) (parg : Argument.t) :
  Argument.parse arg = Some parg ->
  Py.truthy arg = true /\ String.eqb arg "*" = false.
Proof.
  intros H. split.
  - destruct arg; [discriminate H|reflexivity].
  - destruct (String.eqb arg "*") eqn:E; [|reflexivity].
    apply String.eqb_eq in E. subst arg. discriminate H.
Qed.

Lemma preparse_step_argument (st : Arguments.preparse_state) (arg : string)
    (parg : Argument.t) :
  Argument.parse arg = Some parg ->
  Arguments.preparse_step st arg =
  (if Argument.is_write parg then
     match Arguments.arguments_acc st with
     | Arguments.Positional => Some (Arguments.append_to Arguments.Positional parg st)
     | _ => Some (Arguments.append_to Arguments.Out parg st)
     end
   else
     match Arguments.arguments_acc st with
     | Arguments.Out => None
     | b => Some (Arguments.append_to b parg st)
     end).
Proof.
  intros H. unfold Arguments.preparse_step.
  destruct (Argument_parse_is_argument _ _ H) as [-> ->]. simpl negb. cbv iota.
  rewrite H.
  destruct (Argument.is_write parg), (Arguments.arguments_acc st); reflexivity.
Qed.

Lemma preparse_step_out_stays (st st' : Arguments.preparse_state)
    (arg : string) :
  Arguments.arguments_acc st = Arguments.Out ->
  Arguments.preparse_step st arg = Some st' ->
  Arguments.arguments_acc st' = Arguments.Out.
Proof.
  intros Hacc. unfold Arguments.preparse_step. rewrite Hacc.
  destruct (negb (Py.truthy arg)).
  - intros H. injection H as <-. exact Hacc.
  - destruct (String.eqb arg "*"); [discriminate|].
    destruct (Argument.parse arg) as [parg|]; [|discriminate].
    destruct (Argument.is_write parg); simpl; [|discriminate].
    intros H. injection H as <-. reflexivity.
Qed.

Lemma preparse_loop_out_stays (pieces : list string) :
  forall st st',
    Arguments.arguments_acc st = Arguments.Out ->
    Arguments.preparse_loop st pieces = Some st' ->
    Arguments.arguments_acc st' = Arguments.Out.
Proof.
  induction pieces as [|arg rest IH]; simpl; intros st st' Hacc H.
  - injection H as <-. exact Hacc.
  - destruct (Arguments.preparse_step st arg) as [st1|] eqn:E; [|discriminate].
    eapply IH; [|exact H]. eapply preparse_step_out_stays; eauto.
Qed.

Lemma preparse_loop_out_rejects (pieces : list string) :
  forall st arg parg,
    Arguments.arguments_acc st = Arguments.Out ->
    In arg pieces ->
    Argument.parse arg = Some parg ->
    Argument.is_write parg = false ->
    Arguments.preparse_loop st pieces = None.
Proof.
  induction pieces as [|a rest IH]; simpl; intros st arg parg Hacc Hin Hp Hw.
  - contradiction.
  - destruct (Arguments.preparse_step st a) as [st1|] eqn:E; [|reflexivity].
    destruct Hin as [->|Hin].
    + rewrite (preparse_step_argument st _ _ Hp), Hw, Hacc in E. discriminate E.
    + eapply IH; eauto. eapply preparse_step_out_stays; eauto.
Qed.

Lemma preparse_loop_app (p1 p2 : list string) :
  forall st,
    Arguments.preparse_loop st (p1 ++ p2) =
    match Arguments.preparse_loop st p1 with
    | Some st1 => Arguments.preparse_loop st1 p2
    | None => None
    end.
Proof.
  induction p1 as [|a p1 IH]; simpl; intros st; [reflexivity|].
  destruct (Arguments.preparse_step st a); auto.
Qed.

Lemma preparse_loop_out_collects (pieces : list string) :
  forall st st',
    Arguments.arguments_acc st = Arguments.Out ->
    Arguments.preparse_loop st pieces = Some st' ->
    exists pargs,
      map_opt Argument.parse (filter Py.truthy pieces) = Some pargs
      /\ Forall (fun a => Argument.is_write a = true) pargs
      /\ st' = Arguments.mk_state (Arguments.positional st)
                 (Arguments.kwarg_only st)
                 (Arguments.st_out st ++ pargs) Arguments.Out.
Proof.
  induction pieces as [|arg rest IH]; cbn [Arguments.preparse_loop filter];
    intros st st' Hacc H.
  - injection H as <-. exists []. split; [reflexivity|]. split; [constructor|].
    rewrite app_nil_r, <- Hacc. now destruct st.
  - destruct (Arguments.preparse_step st arg) as [st1|] eqn:E; [|discriminate].
    unfold Arguments.preparse_step in E. rewrite Hacc in E.
    destruct (Py.truthy arg); cbn [negb] in E; cbv iota in E.
    2:{ injection E as <-. now apply IH. }
    destruct (String.eqb arg "*"); [discriminate E|].
    destruct (Argument.parse arg) as [parg|] eqn:Ep; [|discriminate E].
    destruct (Argument.is_write parg) eqn:Ew; [|discriminate E].
    injection E as <-.
    apply IH in H as (pargs & Hmap & Hall & ->); [|reflexivity].
    exists (parg :: pargs). cbn [map_opt]. rewrite Ep, Hmap.
    split; [reflexivity|]. split; [now constructor|].
    cbn [Arguments.append_to Arguments.positional Arguments.kwarg_only
         Arguments.st_out].
    now rewrite <- app_assoc.
Qed.

(** C4: in [_preparse], (1) a write-annotated argument met while the target
    is the kwarg-only list goes to the out list and makes it the target;
    (2) once the target is the out list it stays so to the end of the scan;
    (3) a step from the positional target never makes the out list the
    target, and a write-annotated argument met there stays positional;
    (4) once the target is the out list, an argument without a write
    annotation among the remaining pieces makes the scan, and with it
    [_preparse], fail; (5) once the target is the out list, a
    write-annotated argument is appended to the out list; (6) and a scan
    that goes on from there and succeeds leaves the positional and the
    kwarg-only list as they are and appends to the out list, in their
    order, the arguments parsed from all the remaining non-empty pieces,
    each of which is write-annotated. *)
Theorem preparse_out_switch :
  (forall st arg parg,
      Arguments.arguments_acc st = Arguments.KwargOnly ->
      Argument.parse arg = Some parg ->
      Argument.is_write parg = true ->
      Arguments.preparse_step st arg =
      Some (Arguments.mk_state (Arguments.positional st)
              (Arguments.kwarg_only st)
              (Arguments.st_out st ++ [parg]) Arguments.Out))
  /\ (forall st pieces st',
         Arguments.arguments_acc st = Arguments.Out ->
         Arguments.preparse_loop st pieces = Some st' ->
         Arguments.arguments_acc st' = Arguments.Out)
  /\ (forall st arg st',
         Arguments.arguments_acc st = Arguments.Positional ->
         Arguments.preparse_step st arg = Some st' ->
         Arguments.arguments_acc st' <> Arguments.Out
         /\ forall parg,
              Argument.parse arg = Some parg ->
              Argument.is_write parg = true ->
              st' = Arguments.mk_state (Arguments.positional st ++ [parg])
                      (Arguments.kwarg_only st) (Arguments.st_out st)
                      Arguments.Positional)
  /\ (forall before st after arg parg,
         Arguments.preparse_loop Arguments.preparse_init before = Some st ->
         Arguments.arguments_acc st = Arguments.Out ->
         In arg after ->
         Argument.parse arg = Some parg ->
         Argument.is_write parg = false ->
         Arguments.preparse_loop Arguments.preparse_init (before ++ after)
         = None)
  /\ (forall st arg parg,
         Arguments.arguments_acc st = Arguments.Out ->
         Argument.parse arg = Some parg ->
         Argument.is_write parg = true ->
         Arguments.preparse_step st arg =
         Some (Arguments.mk_state (Arguments.positional st)
                 (Arguments.kwarg_only st)
                 (Arguments.st_out st ++ [parg]) Arguments.Out))
  /\ (forall st pieces st',
         Arguments.arguments_acc st = Arguments.Out ->
         Arguments.preparse_loop st pieces = Some st' ->
         exists pargs,
           map_opt Argument.parse (filter Py.truthy pieces) = Some pargs
           /\ Forall (fun a => Argument.is_write a = true) pargs
           /\ Arguments.positional st' = Arguments.positional st
           /\ Arguments.kwarg_only st' = Arguments.kwarg_only st
           /\ Arguments.st_out st' = (Arguments.st_out st ++ pargs)%list).
Proof.
  repeat apply conj.
  - intros st arg parg Hacc Hp Hw.
    rewrite (preparse_step_argument st _ _ Hp), Hw, Hacc. reflexivity.
  - intros st pieces st'. apply preparse_loop_out_stays.
  - intros st arg st' Hacc Hstep. split.
    + unfold Arguments.preparse_step in Hstep. rewrite Hacc in Hstep.
      destruct (negb (Py.truthy arg)).
      { injection Hstep as <-. rewrite Hacc. discriminate. }
      destruct (String.eqb arg "*").
      { injection Hstep as <-. discriminate. }
      destruct (Argument.parse arg) as [parg|]; [|discriminate].
      destruct (Argument.is_write parg); simpl in Hstep;
        injection Hstep as <-; discriminate.
    + intros parg Hp Hw.
      rewrite (preparse_step_argument st _ _ Hp), Hw, Hacc in Hstep.
      injection Hstep as <-. reflexivity.
  - intros before st after arg parg Hrun Hacc Hin Hp Hw.
    rewrite preparse_loop_app, Hrun.
    eapply preparse_loop_out_rejects; eauto.
  - intros st arg parg Hacc Hp Hw.
    rewrite (preparse_step_argument st _ _ Hp), Hw, Hacc. reflexivity.
  - intros st pieces st' Hacc Hrun.
    destruct (preparse_loop_out_collects _ _ _ Hacc Hrun)
      as (pargs & Hmap & Hall & ->).
    exists pargs. repeat split; assumption.
Qed.

Lemma preparse_out_switch_witness :
  Arguments.preparse_loop Arguments.preparse_init
    (Py.split "Tensor x, *, Tensor(a!) out, int y" ", ") = None
  /\ exists o1 o2 st,
       Argument.parse "Tensor(a!) o1" = Some o1
       /\ Argument.parse "Tensor(b!) o2" = Some o2
       /\ Arguments.preparse_loop Arguments.preparse_init
            (Py.split "Tensor x, *, int k, Tensor(a!) o1, Tensor(b!) o2" ", ")
          = Some st
       /\ Arguments.st_out st = [o1; o2].
Proof.
  split.
  - change (Py.split "Tensor x, *, Tensor(a!) out, int y" ", ")
      with (["Tensor x"; "*"; "Tensor(a!) out"] ++ ["int y"])%list.
    destruct preparse_out_switch as (_ & _ & _ & H & _).
    eapply H with (arg := "int y").
    + vm_compute. reflexivity.
    + reflexivity.
    + left. reflexivity.
    + vm_compute. reflexivity.
    + reflexivity.
  - eexists. eexists. eexists.
    split; [vm_compute; reflexivity|]. split; [vm_compute; reflexivity|].
    split; [vm_compute; reflexivity|]. vm_compute. reflexivity.
Defined.

(** ** Phase 2 of the argument classifier: the tensor-options bundle *)

Lemma pred_spec (name : string) (ty : BaseTy.t) (a : Argument.t) :
  Arguments.pred name (Ty.BaseType ty) a = true <->
  Argument.name a = name
  /\ (Argument.type a = Ty.BaseType ty
      \/ Argument.type a = Ty.OptionalType (Ty.BaseType ty)).
Proof.
  unfold Arguments.pred. simpl existsb.
  rewrite andb_true_iff, String.eqb_eq, orb_false_r, orb_true_iff.
  split; intros [Hn Ht]; split; auto.
  - destruct Ht as [Ht|Ht]; apply Ty_eqb_eq in Ht; auto.
  - destruct Ht as [->| ->]; simpl; destruct ty; auto.
Qed.

Lemma quad_head_spec (l : list Argument.t) o rest4 :
  quad_head l = Some (o, rest4) <->
  exists a0 a1 a2 a3,
    l = a0 :: a1 :: a2 :: a3 :: rest4
    /\ o = TensorOptionsArguments.mk a0 a1 a2 a3
    /\ is_tensor_options_quad a0 a1 a2 a3.
Proof.
  unfold is_tensor_options_quad. cbv zeta. split.
  - destruct l as [|a0 [|a1 [|a2 [|a3 r]]]]; simpl; try discriminate.
    destruct (Arguments.pred "dtype" _ a0) eqn:E0; [|discriminate].
    destruct (Arguments.pred "layout" _ a1) eqn:E1; [|discriminate].
    destruct (Arguments.pred "device" _ a2) eqn:E2; [|discriminate].
    destruct (Arguments.pred "pin_memory" _ a3) eqn:E3; [|discriminate].
    simpl. intros H. injection H as <- <-.
    exists a0, a1, a2, a3. rewrite <- !pred_spec. repeat split; assumption.
  - intros (a0 & a1 & a2 & a3 & -> & -> & H).
    rewrite <- !pred_spec in H. destruct H as (H0 & H1 & H2 & H3).
    simpl. rewrite H0, H1, H2, H3. reflexivity.
Qed.

Lemma group_loop_cons (a : Argument.t) (rest1 : list Argument.t)
    (st : Arguments.group_state) :
  Arguments.group_loop (a :: rest1) st =
  match quad_head (a :: rest1) with
  | Some (o, rest4) =>
      match Arguments.kwarg_only_acc st with
      | Arguments.PreTensorOptions =>
          Arguments.group_loop rest4
            (Arguments.mk_group (Arguments.g_pre st) (Some o)
               (Arguments.g_post st) Arguments.PostTensorOptions)
      | Arguments.PostTensorOptions => None
      end
  | None => Arguments.group_loop rest1 (Arguments.group_append a st)
  end.
Proof.
  destruct rest1 as [|a1 [|a2 [|a3 rest4]]]; try reflexivity.
  simpl.
  destruct (Arguments.pred "dtype" _ a && _);
    [destruct (Arguments.kwarg_only_acc st)|]; reflexivity.
Qed.

(** After the bundle was found every argument goes to the post-options
    list, and a second quad stops the parse. *)
Lemma group_loop_after_bundle (rest : list Argument.t) :
  forall st st',
    Arguments.kwarg_only_acc st = Arguments.PostTensorOptions ->
    Arguments.group_loop rest st = Some st' ->
    Arguments.g_tensor_options st' = Arguments.g_tensor_options st
    /\ Arguments.g_pre st' = Arguments.g_pre st
    /\ Arguments.g_post st' = (Arguments.g_post st ++ rest)%list.
Proof.
  induction rest as [|a rest IH]; intros st st' Hacc H.
  - simpl in H. injection H as <-. now rewrite app_nil_r.
  - rewrite group_loop_cons, Hacc in H.
    destruct (quad_head (a :: rest)) as [[o r4]|]; [discriminate|].
    apply IH in H.
    + unfold Arguments.group_append in H. rewrite Hacc in H. simpl in H.
      destruct H as (-> & -> & ->). now rewrite <- app_assoc.
    + unfold Arguments.group_append. now rewrite Hacc.
Qed.

Lemma has_quad_cons (a : Argument.t) (rest : list Argument.t) :
  has_tensor_options_quad (a :: rest) ->
  (exists o r4, quad_head (a :: rest) = Some (o, r4))
  \/ has_tensor_options_quad rest.
Proof.
  intros (pre & a0 & a1 & a2 & a3 & post & Heq & Hq).
  destruct pre as [|b pre]; simpl in Heq.
  - left. exists (TensorOptionsArguments.mk a0 a1 a2 a3), post.
    apply quad_head_spec. exists a0, a1, a2, a3. rewrite Heq. auto.
  - right. injection Heq as -> ->. exists pre, a0, a1, a2, a3, post. auto.
Qed.

(** Before the bundle is found: either no quad occurs and everything goes
    to the pre-options list, or the first quad becomes the bundle and splits
    the list. *)
Lemma group_loop_before_bundle (rest : list Argument.t) :
  forall st st',
    Arguments.kwarg_only_acc st = Arguments.PreTensorOptions ->
    Arguments.g_tensor_options st = None ->
    Arguments.g_post st = [] ->
    Arguments.group_loop rest st = Some st' ->
    (Arguments.g_tensor_options st' = None
     /\ ~ has_tensor_options_quad rest
     /\ Arguments.g_pre st' = (Arguments.g_pre st ++ rest)%list
     /\ Arguments.g_post st' = [])
    \/ (exists o p,
           Arguments.g_tensor_options st' = Some o
           /\ is_tensor_options_quad
                (TensorOptionsArguments.dtype o)
                (TensorOptionsArguments.layout o)
                (TensorOptionsArguments.device o)
                (TensorOptionsArguments.pin_memory o)
           /\ rest = (p ++ TensorOptionsArguments.all o
                        ++ Arguments.g_post st')%list
           /\ Arguments.g_pre st' = (Arguments.g_pre st ++ p)%list).
Proof.
  induction rest as [|a rest IH]; intros st st' Hacc Hto Hpost H.
  - simpl in H. injection H as <-. left. repeat split; auto.
    + intros (pre & a0 & a1 & a2 & a3 & post & Heq & _).
      destruct pre; discriminate Heq.
    + now rewrite app_nil_r.
  - rewrite group_loop_cons, Hacc in H.
    destruct (quad_head (a :: rest)) as [[o r4]|] eqn:Eq.
    + right. apply group_loop_after_bundle in H as (Ht & Hp & Hq);
        [|reflexivity].
      simpl in Ht, Hp, Hq. rewrite Hpost in Hq. simpl in Hq.
      apply quad_head_spec in Eq as (a0 & a1 & a2 & a3 & Hl & -> & Hquad).
      exists (TensorOptionsArguments.mk a0 a1 a2 a3), [].
      rewrite Ht, Hp, Hq, Hl, app_nil_r. simpl.
      split; [reflexivity|]. split; [exact Hquad|]. split; reflexivity.
    + apply IH in H.
      * unfold Arguments.group_append in H. rewrite Hacc in H. simpl in H.
        destruct H as [(Ht & Hno & Hp & Hq)|(o & p & Ht & Hquad & Hl & Hp)].
        -- left. repeat split; auto.
           ++ intros Hc. apply has_quad_cons in Hc as [(o & r4 & Hc)|Hc];
                [congruence|contradiction].
           ++ now rewrite Hp, <- app_assoc.
        -- right. exists o, (a :: p).
           split; [exact Ht|]. split; [exact Hquad|].
           split; [rewrite Hl; reflexivity|].
           now rewrite Hp, <- app_assoc.
      * unfold Arguments.group_append. now rewrite Hacc.
      * unfold Arguments.group_append. now rewrite Hacc.
      * unfold Arguments.group_append. now rewrite Hacc.
Qed.

Lemma Arguments_make_fields p s q k o r u a :
  Arguments.make p s q k o r u = Some a -> a = Arguments.mk p s q k o r u.
Proof.
  unfold Arguments.make. destruct (Arguments.post_init _); [|discriminate].
  intros H. now injection H as <-.
Qed.

Lemma find_self_ix_nth (l : list Argument.t) (ix : nat) :
  Arguments.find_self_ix l = Some ix -> exists x, nth_error l ix = Some x.
Proof.
  revert ix. induction l as [|a l IH]; simpl; intros ix H; [discriminate|].
  destruct (String.eqb (Argument.name a) "self").
  - injection H as <-. exists a. reflexivity.
  - destruct (Arguments.find_self_ix l) as [j|]; [|discriminate].
    injection H as <-. simpl. now apply IH.
Qed.

(** What [Arguments.parse] returns, in terms of the two phases. *)
Lemma Arguments_parse_fields (args : string) (a : Arguments.t)
    (positional kwarg_only out : list Argument.t) :
  Arguments._preparse args = Some (positional, kwarg_only, out) ->
  Arguments.parse args = Some a ->
  exists st,
    Arguments.group_loop kwarg_only Arguments.group_init = Some st
    /\ Arguments.tensor_options a = Arguments.g_tensor_options st
    /\ Arguments.pre_tensor_options_kwarg_only a = Arguments.g_pre st
    /\ Arguments.post_tensor_options_kwarg_only a = Arguments.g_post st
    /\ Arguments.out a = out
    /\ Arguments.flat_positional a = positional.
Proof.
  intros Hpre Hparse. unfold Arguments.parse in Hparse. rewrite Hpre in Hparse.
  destruct (Arguments.group_loop kwarg_only Arguments.group_init)
    as [st|]; [|destruct (Arguments.find_self_ix positional); discriminate].
  exists st. split; [reflexivity|].
  destruct (Arguments.find_self_ix positional) as [ix|] eqn:Eix;
    apply Arguments_make_fields in Hparse; subst a;
    unfold Arguments.flat_positional; simpl; repeat split.
  destruct (find_self_ix_nth _ _ Eix) as (x & Hx). rewrite Hx. simpl.
  rewrite Nat.add_1_r. now apply firstn_skipn_middle.
Qed.

(** C5: for a parsed argument list, with [kwarg_only] the kwarg-only list
    of phase 1: the bundle is present exactly when four consecutive
    kwarg-only arguments form the quad; when it is absent all kwarg-only
    arguments are in the pre-options list; when it is present it is a quad
    and splits the kwarg-only list into pre-options arguments, its four
    arguments and post-options arguments. *)
Theorem tensor_options_iff_quad (args : string) (a : Arguments.t)
    (positional kwarg_only out : list Argument.t) :
  Arguments._preparse args = Some (positional, kwarg_only, out) ->
  Arguments.parse args = Some a ->
  (Arguments.tensor_options a <> None <-> has_tensor_options_quad kwarg_only)
  /\ (Arguments.tensor_options a = None ->
      Arguments.pre_tensor_options_kwarg_only a = kwarg_only
      /\ Arguments.post_tensor_options_kwarg_only a = [])
  /\ (forall o, Arguments.tensor_options a = Some o ->
        is_tensor_options_quad
          (TensorOptionsArguments.dtype o) (TensorOptionsArguments.layout o)
          (TensorOptionsArguments.device o)
          (TensorOptionsArguments.pin_memory o)
        /\ kwarg_only
           = (Arguments.pre_tensor_options_kwarg_only a
              ++ TensorOptionsArguments.all o
              ++ Arguments.post_tensor_options_kwarg_only a)%list).
Proof.
  intros Hpre Hparse.
  destruct (Arguments_parse_fields _ _ _ _ _ Hpre Hparse) as (st & Hfields).
  destruct Hfields as (Eg & -> & -> & -> & _). clear Hparse.
  apply group_loop_before_bundle in Eg; [|reflexivity..]. simpl in Eg.
  destruct Eg as [(Ht & Hno & Hp & Hq)|(o & p & Ht & Hquad & Hl & Hp)];
    rewrite Ht.
  - split; [split; [congruence|contradiction]|].
    split; [auto|discriminate].
  - split; [split; [intros _|discriminate]|].
    + destruct o as [a0 a1 a2 a3].
      exists p, a0, a1, a2, a3, (Arguments.g_post st). auto.
    + split; [discriminate|].
      intros o' Ho'. injection Ho' as <-. rewrite Hp. auto.
Qed.

Lemma tensor_options_iff_quad_witness :
  exists a kwarg_only,
    Arguments.parse
      "Tensor self, *, ScalarType dtype, Layout? layout, Device device, bool pin_memory"
    = Some a
    /\ Arguments.tensor_options a <> None
    /\ has_tensor_options_quad kwarg_only.
Proof.
  eexists. eexists. split; [vm_compute; reflexivity|].
  split; [vm_compute; discriminate|].
  refine (proj1 (proj1 (@tensor_options_iff_quad
    "Tensor self, *, ScalarType dtype, Layout? layout, Device device, bool pin_memory"
    _ _ _ _ _ _)) _).
  - vm_compute. reflexivity.
  - vm_compute. reflexivity.
  - vm_compute. discriminate.
Defined.

(** ** The buckets partition the argument list *)

Lemma Arguments_parse_flat (args : string) (a : Arguments.t)
    (positional kwarg_only out : list Argument.t) :
  Arguments._preparse args = Some (positional, kwarg_only, out) ->
  Arguments.parse args = Some a ->
  Arguments.flat_positional a = positional
  /\ Arguments.flat_kwarg_only a = kwarg_only
  /\ Arguments.out a = out.
Proof.
  intros Hpre Hparse.
  destruct (Arguments_parse_fields _ _ _ _ _ Hpre Hparse)
    as (st & Eg & Ht & Hp & Hq & Ho & Hpos).
  split; [exact Hpos|]. split; [|exact Ho].
  unfold Arguments.flat_kwarg_only. rewrite Ht, Hp, Hq.
  apply group_loop_before_bundle in Eg; [|reflexivity..]. simpl in Eg.
  destruct Eg as [(-> & _ & -> & ->)|(o & p & -> & _ & Hl & ->)].
  - simpl. now rewrite app_nil_r.
  - now rewrite Hl.
Qed.

(** ** Printing never fails on what the parser or [signature()] built *)

Lemma preparse_step_printable (st st' : Arguments.preparse_state)
    (arg : string) :
  Forall printable (Arguments.positional st) ->
  Forall printable (Arguments.kwarg_only st) ->
  Forall printable (Arguments.st_out st) ->
  Arguments.preparse_step st arg = Some st' ->
  Forall printable (Arguments.positional st')
  /\ Forall printable (Arguments.kwarg_only st')
  /\ Forall printable (Arguments.st_out st').
Proof.
  intros Hp Hk Ho. unfold Arguments.preparse_step.
  destruct (negb (Py.truthy arg)); [intros H; injection H as <-; auto|].
  destruct (String.eqb arg "*").
  { destruct (Arguments.bucket_eqb _ _); [|discriminate].
    intros H. injection H as <-. auto. }
  destruct (Argument.parse arg) as [parg|] eqn:E; [|discriminate].
  assert (Hparg : Forall printable [parg]).
  { constructor; [|constructor]. unfold printable.
    rewrite (Argument_parse_str _ _ E). discriminate. }
  match goal with
  | |- match ?e with _ => _ end = _ -> _ => destruct e as [b|]; [|discriminate]
  end.
  intros H. injection H as <-.
  destruct b; simpl; repeat split; auto; apply Forall_app; auto.
Qed.

Lemma preparse_loop_printable (pieces : list string) :
  forall st st',
    Forall printable (Arguments.positional st) ->
    Forall printable (Arguments.kwarg_only st) ->
    Forall printable (Arguments.st_out st) ->
    Arguments.preparse_loop st pieces = Some st' ->
    Forall printable (Arguments.positional st')
    /\ Forall printable (Arguments.kwarg_only st')
    /\ Forall printable (Arguments.st_out st').
Proof.
  induction pieces as [|arg rest IH]; simpl; intros st st' Hp Hk Ho H.
  - injection H as <-. auto.
  - destruct (Arguments.preparse_step st arg) as [st1|] eqn:E; [|discriminate].
    destruct (preparse_step_printable _ _ _ Hp Hk Ho E) as (? & ? & ?).
    eapply IH; eauto.
Qed.

Lemma map_opt_some {A B} (f : A -> option B) (l : list A) :
  Forall (fun x => f x <> None) l -> exists l', map_opt f l = Some l'.
Proof.
  induction 1 as [|x l Hx _ (l' & IH)]; simpl.
  - eauto.
  - destruct (f x) as [y|]; [|contradiction]. rewrite IH. eauto.
Qed.

Lemma Arguments_str_some (a : Arguments.t) :
  Forall printable (Arguments.flat_positional a) ->
  Forall printable (Arguments.flat_kwarg_only a) ->
  Forall printable (Arguments.out a) ->
  exists s, Arguments.str a = Some s.
Proof.
  intros Hp Hk Ho. unfold Arguments.str.
  destruct (map_opt_some Argument.str _ Hp) as (lp & ->).
  destruct (map_opt_some Argument.str _ Hk) as (lk & ->).
  destruct (map_opt_some Argument.str _ Ho) as (lo & ->).
  eauto.
Qed.

Lemma Arguments_parse_printable (args : string) (a : Arguments.t) :
  Arguments.parse args = Some a ->
  Forall printable (Arguments.flat_positional a)
  /\ Forall printable (Arguments.flat_kwarg_only a)
  /\ Forall printable (Arguments.out a).
Proof.
  intros Hparse.
  destruct (Arguments._preparse args) as [[[p k] o]|] eqn:Hpre.
  - destruct (Arguments_parse_flat _ _ _ _ _ Hpre Hparse) as (-> & -> & ->).
    unfold Arguments._preparse in Hpre.
    destruct (Arguments.preparse_loop _ _) as [st|] eqn:E; [|discriminate].
    injection Hpre as <- <- <-.
    eapply preparse_loop_printable; [| | |exact E]; constructor.
  - unfold Arguments.parse in Hparse. rewrite Hpre in Hparse. discriminate.
Qed.


(** ** [signature()] *)

Abbreviation strip := (Arguments.strip_arg_annotation false).

Lemma filter_none {A} (f : A -> bool) (l : list A) :
  (forall x, In x l -> f x = false) -> filter f l = [].
Proof.
  induction l as [|x l IH]; simpl; intros H; [reflexivity|].
  rewrite (H x) by now left. apply IH. intros y Hy. apply H. now right.
Qed.

Lemma filter_write_strip (l : list Argument.t) :
  filter Argument.is_write (map strip l) = [].
Proof.
  apply filter_none. intros a Ha.
  apply in_map_iff in Ha as (b & <- & _). reflexivity.
Qed.

Lemma existsb_write_strip (l : list Argument.t) :
  existsb Argument.is_write (map strip l) = false.
Proof. induction l as [|a l IH]; simpl; auto. Qed.

Lemma map_strip_strip (l : list Argument.t) :
  map strip (map strip l) = map strip l.
Proof. rewrite map_map. apply map_ext. intros a. reflexivity. Qed.

Lemma Forall_printable_strip (l : list Argument.t) :
  Forall printable (map strip l).
Proof.
  apply Forall_forall. intros a Ha.
  apply in_map_iff in Ha as (b & <- & _).
  unfold printable, Argument.str. simpl. discriminate.
Qed.

(** The returns of a signature carry neither annotation nor name. *)
Lemma plain_signature_returns (x : FunctionSchema.t) :
  Forall (fun r => Return.annotation r = None /\ Return.name r = None)
         (FunctionSchema.returns (plain_signature x)).
Proof.
  unfold plain_signature. simpl. apply Forall_app. split;
    apply Forall_forall; intros r Hr;
    apply in_map_iff in Hr as (b & <- & _); auto.
Qed.

Lemma filter_return_write (rs : list Return.t) :
  Forall (fun r => Return.annotation r = None /\ Return.name r = None) rs ->
  filter Return.is_write rs = [].
Proof.
  intros H. apply filter_none. intros r Hr.
  rewrite Forall_forall in H. destruct (H r Hr) as [Ha _].
  unfold Return.is_write. now rewrite Ha.
Qed.

Lemma map_strip_ret_fixed (rs : list Return.t) :
  Forall (fun r => Return.annotation r = None /\ Return.name r = None) rs ->
  map (FunctionSchema.strip_ret_annotation false) rs = rs.
Proof.
  induction 1 as [|r rs [Ha Hn] _ IH]; simpl; [reflexivity|].
  rewrite IH. f_equal. destruct r as [n t a]. simpl in *. now subst.
Qed.

Lemma Arguments_signature_plain (x : FunctionSchema.t) :
  Arguments.post_init (FunctionSchema.arguments x) = true ->
  Arguments.signature false (FunctionSchema.arguments x)
  = Some (FunctionSchema.arguments (plain_signature x))
  /\ Arguments.post_init (FunctionSchema.arguments (plain_signature x)) = true.
Proof.
  intros Hpost.
  assert (H : Arguments.post_init
                (FunctionSchema.arguments (plain_signature x)) = true).
  { unfold Arguments.post_init in *. simpl.
    apply andb_true_iff in Hpost as [Hpost _].
    apply andb_true_iff in Hpost as [Hself _].
    rewrite filter_write_strip.
    destruct (Arguments.self_arg (FunctionSchema.arguments x)).
    - reflexivity.
    - destruct (Arguments.pre_self_positional (FunctionSchema.arguments x));
        [reflexivity|discriminate Hself]. }
  split; [|exact H].
  unfold Arguments.signature, Arguments.make.
  change (Arguments.mk _ _ _ _ _ _ _)
    with (FunctionSchema.arguments (plain_signature x)).
  now rewrite H.
Qed.

Lemma plain_signature_post_init (x : FunctionSchema.t) :
  FunctionSchema.post_init (plain_signature x) = true.
Proof.
  unfold FunctionSchema.post_init. cbv zeta.
  rewrite (filter_return_write _ (plain_signature_returns x)).
  unfold Arguments.post_self_positional_mutable.
  change (Arguments.post_self_positional
            (FunctionSchema.arguments (plain_signature x)))
    with (map strip (Arguments.post_self_positional
                       (FunctionSchema.arguments x))).
  rewrite filter_write_strip.
  reflexivity.
Qed.

Lemma reparsed_name_false (n : OperatorName.t) :
  reparsed_name n = false ->
  String.eqb (OperatorName.str n) "arange.start_step" = false
  /\ String.eqb (OperatorName.str n) "bernoulli.p" = false.
Proof. unfold reparsed_name. apply orb_false_iff. Qed.

(** For an operator name that is not treated specially, [signature()]
    returns, and returns [plain_signature]. *)
Lemma default_signature_plain (x : FunctionSchema.t) :
  Arguments.post_init (FunctionSchema.arguments x) = true ->
  reparsed_name (FunctionSchema.name x) = false ->
  default_signature x = Some (plain_signature x).
Proof.
  intros Hpost Hname.
  destruct (Arguments_signature_plain x Hpost) as [Hsig _].
  destruct (reparsed_name_false _ Hname) as [Ha Hb].
  unfold default_signature, FunctionSchema.signature. cbv zeta.
  rewrite Hsig. unfold FunctionSchema.reparse_with_default.
  rewrite Ha, Hb. unfold FunctionSchema.make.
  change (FunctionSchema.mk _ _ _) with (plain_signature x).
  now rewrite plain_signature_post_init.
Qed.

Lemma plain_signature_idempotent (x : FunctionSchema.t) :
  plain_signature (plain_signature x) = plain_signature x.
Proof.
  unfold plain_signature at 1.
  rewrite (map_strip_ret_fixed _ (plain_signature_returns x)).
  rewrite filter_none.
  - rewrite app_nil_r. unfold plain_signature. simpl.
    rewrite map_app, !map_strip_strip, app_nil_r.
    destruct (Arguments.self_arg (FunctionSchema.arguments x)); reflexivity.
  - intros a Ha. simpl in Ha.
    assert (Hw : Argument.is_write a = false).
    { destruct (Arguments.self_arg (FunctionSchema.arguments x)); simpl in Ha.
      - destruct Ha as [<-|Ha]; [reflexivity|].
        apply in_map_iff in Ha as (b & <- & _). reflexivity.
      - apply in_map_iff in Ha as (b & <- & _). reflexivity. }
    now rewrite Hw.
Qed.

(** *** Operator names out of the parser contain no dot in their base *)

Lemma prefix_empty (s : string) : String.prefix "" s = true.
Proof. now destruct s. Qed.

Lemma prefix_cons (c1 : ascii) (p : string) (c2 : ascii) (s : string) :
  String.prefix (String c1 p) (String c2 s)
  = Ascii.eqb c1 c2 && String.prefix p s.
Proof.
  change (String.prefix (String c1 p) (String c2 s))
    with (if ascii_dec c1 c2 then String.prefix p s else false).
  destruct (ascii_dec c1 c2) as [->|H].
  - now rewrite Ascii.eqb_refl.
  - apply Ascii.eqb_neq in H. now rewrite H.
Qed.

Lemma partition_dot (s a b : string) :
  Py.partition s "." = Some (a, b) -> Py.contains a "." = false.
Proof.
  revert a. induction s as [|c s IH]; intros a; [discriminate|].
  cbn [Py.partition]. rewrite prefix_cons, prefix_empty, andb_true_r.
  destruct (Ascii.eqb "." c) eqn:Ec.
  - intros H. injection H as <- _. reflexivity.
  - destruct (Py.partition s ".") as [[a' b']|]; [|discriminate].
    intros H. injection H as <- <-.
    cbn [Py.contains]. rewrite prefix_cons, Ec. simpl. now apply IH.
Qed.

Lemma OperatorName_parse_no_dot (s : string) (n : OperatorName.t) :
  OperatorName.parse s = Some n ->
  Py.contains (BaseOperatorName.str (OperatorName.name n)) "." = false.
Proof.
  unfold OperatorName.parse. intros H.
  destruct (Py.contains s ".") eqn:Ec.
  - unfold Py.split1 in H.
    destruct (Py.partition s ".") as [[a b]|] eqn:Ep; [|discriminate H].
    destruct (BaseOperatorName.parse a) as [bn|] eqn:Eb; [|discriminate H].
    destruct (String.eqb _ s); [|discriminate H]. injection H as <-. simpl.
    rewrite (BaseOperatorName_parse_str _ _ Eb). eapply partition_dot; eauto.
  - destruct (BaseOperatorName.parse s) as [bn|] eqn:Eb; [|discriminate H].
    destruct (String.eqb _ s); [|discriminate H]. injection H as <-. simpl.
    now rewrite (BaseOperatorName_parse_str _ _ Eb).
Qed.

Lemma append_empty_r (s : string) : s ++ "" = s.
Proof. induction s as [|c s IH]; simpl; [reflexivity|now rewrite IH]. Qed.

Lemma plain_name_not_reparsed (x : FunctionSchema.t) :
  Py.contains
    (BaseOperatorName.str (OperatorName.name (FunctionSchema.name x))) "."
  = false ->
  reparsed_name (FunctionSchema.name (plain_signature x)) = false.
Proof.
  destruct x as [[[base inplace dunder] overload] args rets].
  unfold reparsed_name, OperatorName.str, BaseOperatorName.str. simpl.
  destruct dunder; [reflexivity|].
  rewrite append_empty_r. intros Hdot.
  apply orb_false_iff. split.
  - destruct (String.eqb base "arange.start_step") eqn:E; [|reflexivity].
    apply String.eqb_eq in E. subst base. destruct inplace; discriminate Hdot.
  - destruct (String.eqb base "bernoulli.p") eqn:E; [|reflexivity].
    apply String.eqb_eq in E. subst base. destruct inplace; discriminate Hdot.
Qed.

Lemma Arguments_parse_post_init (args : string) (a : Arguments.t) :
  Arguments.parse args = Some a -> Arguments.post_init a = true.
Proof.
  unfold Arguments.parse. intros H.
  destruct (Arguments._preparse args) as [[[p k] o]|]; [|discriminate H].
  destruct (Arguments.group_loop k Arguments.group_init) as [st|];
    [|destruct (Arguments.find_self_ix p); discriminate H].
  unfold Arguments.make in H.
  destruct (Arguments.find_self_ix p);
    match type of H with
    | (if Arguments.post_init ?r then _ else _) = _ =>
        destruct (Arguments.post_init r) eqn:E; [|discriminate H]
    end; injection H as <-; exact E.
Qed.

Lemma FunctionSchema_parse_parts (s : string) (x : FunctionSchema.t) :
  FunctionSchema.parse s = Some x ->
  (exists ops, OperatorName.parse ops = Some (FunctionSchema.name x))
  /\ (exists args, Arguments.parse args = Some (FunctionSchema.arguments x))
  /\ FunctionSchema.post_init x = true.
Proof.
  unfold FunctionSchema.parse. intros H.
  destruct (FunctionSchema.decl_re_findall s) as [|[[ops args] rd] [|]];
    try discriminate H.
  destruct (OperatorName.parse ops) as [n|] eqn:En; [|discriminate H].
  destruct (Arguments.parse args) as [a|] eqn:Ea; [|discriminate H].
  destruct (parse_returns rd) as [rs|]; [|discriminate H].
  destruct (FunctionSchema.make n a rs) as [r|] eqn:Em; [|discriminate H].
  destruct (opt_string_eqb _ _); [|discriminate H]. injection H as <-.
  apply make_post_init in Em as [-> Hp]. simpl. eauto.
Qed.

(** *** The two reparsed operator names *)

(** C3: [signature()] is not idempotent.  For a schema named
    [arange.start_step], [signature()] parses its printed arguments
    again; here the drop of the bundle left a quad in the kwarg-only
    arguments, which the second parse bundles, so that the result [y] of
    [signature()] carries a tensor-options bundle, and a second
    [signature()], which drops it, does not return [y]. *)
Theorem signature_not_idempotent_counterexample :
  exists x y,
    FunctionSchema.parse
      "arange.start_step(Scalar start, *, ScalarType dtype, ScalarType dtype, Layout layout, Device device, bool pin_memory, Layout layout, Device device, bool pin_memory) -> Tensor"
    = Some x
    /\ default_signature x = Some y
    /\ Arguments.tensor_options (FunctionSchema.arguments y) <> None
    /\ default_signature y <> Some y.
Proof.
  eexists. eexists. split; [vm_compute; reflexivity|].
  split; [vm_compute; reflexivity|].
  split; vm_compute; discriminate.
Qed.

(** C9: the result of [signature()] can carry a tensor-options bundle.
    For a schema named [bernoulli.p], [signature()] parses its printed
    arguments again, and the second parse bundles the quad that the drop
    of the bundle left in the kwarg-only arguments. *)
Theorem signature_keeps_bundle_counterexample :
  exists x y,
    FunctionSchema.parse
      "bernoulli.p(Tensor self, float p, *, ScalarType dtype, ScalarType dtype, Layout layout, Device device, bool pin_memory, Layout layout, Device device, bool pin_memory) -> Tensor"
    = Some x
    /\ default_signature x = Some y
    /\ Arguments.tensor_options (FunctionSchema.arguments y) <> None.
Proof.
  eexists. eexists. split; [vm_compute; reflexivity|].
  split; [vm_compute; reflexivity|]. vm_compute. discriminate.
Qed.

(** *** The shape of a signature *)

Lemma plain_signature_arguments (x : FunctionSchema.t) :
  Arguments.tensor_options (FunctionSchema.arguments (plain_signature x))
  = None
  /\ Arguments.out (FunctionSchema.arguments (plain_signature x)) = []
  /\ Forall (fun a => Argument.annotation a = None)
            (Arguments.flat_all
               (FunctionSchema.arguments (plain_signature x))).
Proof.
  split; [reflexivity|]. split; [reflexivity|].
  unfold Arguments.flat_all, Arguments.flat_positional,
    Arguments.flat_kwarg_only. simpl. rewrite app_nil_r.
  assert (Hs : forall l, Forall (fun a => Argument.annotation a = None)
                                (map strip l)).
  { intros l. apply Forall_forall. intros a Ha.
    apply in_map_iff in Ha as (b & <- & _). reflexivity. }
  repeat (apply Forall_app; split); auto.
  destruct (Arguments.self_arg (FunctionSchema.arguments x));
    repeat constructor.
Qed.

Lemma reparse_post_init (self_name this_name old new : string)
    (a a' : Arguments.t) :
  FunctionSchema.reparse_with_default self_name this_name old new a
  = Some a' ->
  Arguments.post_init a = true -> Arguments.post_init a' = true.
Proof.
  unfold FunctionSchema.reparse_with_default.
  destruct (String.eqb self_name this_name).
  - destruct (Arguments.str a) as [t|]; [|discriminate].
    intros H _. eapply Arguments_parse_post_init; eauto.
  - intros H. now injection H as <-.
Qed.

(** Whatever [signature()] returns has the name and the returns of
    [plain_signature], and arguments that passed the checks of
    [Arguments]. *)
Lemma signature_result (x y : FunctionSchema.t) :
  default_signature x = Some y ->
  FunctionSchema.name y = FunctionSchema.name (plain_signature x)
  /\ FunctionSchema.returns y = FunctionSchema.returns (plain_signature x)
  /\ Arguments.post_init (FunctionSchema.arguments y) = true.
Proof.
  unfold default_signature, FunctionSchema.signature. cbv zeta. intros H.
  destruct (Arguments.signature _ _) as [a1|] eqn:E1; [|discriminate H].
  destruct (FunctionSchema.reparse_with_default _ _ _ _ a1) as [a2|] eqn:E2;
    [|discriminate H].
  destruct (FunctionSchema.reparse_with_default _ _ _ _ a2) as [a3|] eqn:E3;
    [|discriminate H].
  apply make_post_init in H as [-> _]. simpl.
  split; [reflexivity|]. split; [reflexivity|].
  apply (reparse_post_init _ _ _ _ _ _ E3).
  apply (reparse_post_init _ _ _ _ _ _ E2).
  unfold Arguments.signature, Arguments.make in E1.
  match type of E1 with
  | (if Arguments.post_init ?r then _ else _) = _ =>
      destruct (Arguments.post_init r) eqn:E; [|discriminate E1]
  end.
  now injection E1 as <-.
Qed.

(** Whatever [signature()] returns has an empty overload name, a cleared
    inplace flag and no annotation on any return; for a constructed schema
    whose operator name is not one of the two reparsed ones, [signature()]
    returns a schema with no out-arguments, no tensor-options bundle, no
    annotation on any argument, and of functional kind. *)
Theorem signature_is_functional_shape (x : FunctionSchema.t) :
  (forall y, default_signature x = Some y ->
     OperatorName.overload_name (FunctionSchema.name y) = ""
     /\ BaseOperatorName.inplace (OperatorName.name (FunctionSchema.name y))
        = false
     /\ Forall (fun r => Return.annotation r = None)
               (FunctionSchema.returns y))
  /\ (Arguments.post_init (FunctionSchema.arguments x) = true ->
      reparsed_name (FunctionSchema.name x) = false ->
      exists y,
        default_signature x = Some y
        /\ Arguments.out (FunctionSchema.arguments y) = []
        /\ Arguments.tensor_options (FunctionSchema.arguments y) = None
        /\ Forall (fun a => Argument.annotation a = None)
                  (Arguments.flat_all (FunctionSchema.arguments y))
        /\ Forall (fun r => Return.annotation r = None)
                  (FunctionSchema.returns y)
        /\ FunctionSchema.kind y = Some SchemaKind.functional).
Proof.
  split.
  - intros y H. destruct (signature_result _ _ H) as (-> & -> & _).
    split; [reflexivity|]. split; [reflexivity|].
    eapply Forall_impl; [|apply plain_signature_returns]. now intros r [? _].
  - intros Hpost Hname. exists (plain_signature x).
    destruct (plain_signature_arguments x) as (Hto & Hout & Hann).
    split; [now apply default_signature_plain|].
    split; [exact Hout|]. split; [exact Hto|]. split; [exact Hann|].
    split.
    + eapply Forall_impl; [|apply plain_signature_returns]. now intros r [? _].
    + unfold FunctionSchema.kind. simpl. now rewrite existsb_write_strip.
Qed.

Lemma signature_is_functional_shape_witness :
  exists x,
    FunctionSchema.parse
      "add.out(Tensor self, Tensor other, *, Scalar alpha=1, Tensor(a!) out) -> Tensor(a!)"
    = Some x
    /\ exists y, default_signature x = Some y
                 /\ FunctionSchema.kind y = Some SchemaKind.functional.
Proof.
  eexists. split; [vm_compute; reflexivity|].
  match goal with
  | |- exists y, default_signature ?x = _ /\ _ =>
      destruct (proj2 (signature_is_functional_shape x))
        as (y & Hy & _ & _ & _ & _ & Hk);
      [vm_compute; reflexivity|vm_compute; reflexivity|];
      exists y; split; assumption
  end.
Defined.

(** *** The result of [signature()] can be printed *)

Lemma Arguments_signature_printable (args a : Arguments.t) :
  Arguments.signature false args = Some a -> all_printable a.
Proof.
  unfold Arguments.signature. intros H.
  apply Arguments_make_fields in H. subst a.
  unfold all_printable, Arguments.flat_positional, Arguments.flat_kwarg_only.
  simpl. repeat split.
  - apply Forall_app. split; [apply Forall_printable_strip|].
    apply Forall_app. split; [|apply Forall_printable_strip].
    destruct (Arguments.self_arg args); repeat constructor.
    unfold printable, Argument.str. simpl. discriminate.
  - rewrite app_nil_r. apply Forall_app.
    split; apply Forall_printable_strip.
  - constructor.
Qed.

Lemma reparse_printable (self_name this_name old new : string)
    (a a' : Arguments.t) :
  FunctionSchema.reparse_with_default self_name this_name old new a = Some a' ->
  all_printable a -> all_printable a'.
Proof.
  unfold FunctionSchema.reparse_with_default.
  destruct (String.eqb self_name this_name).
  - destruct (Arguments.str a); [|discriminate].
    intros H _. now apply Arguments_parse_printable in H.
  - intros H. now injection H as <-.
Qed.

Lemma Return_str_some (r : Return.t) :
  Return.annotation r = None -> Return.str r <> None.
Proof.
  intros H. unfold Return.str. rewrite H. simpl.
  destruct (Return.name r); discriminate.
Qed.

Lemma signature_printable (x y : FunctionSchema.t) :
  default_signature x = Some y -> exists s, FunctionSchema.str y = Some s.
Proof.
  unfold default_signature, FunctionSchema.signature. cbv zeta. intros H.
  destruct (Arguments.signature _ _) as [a1|] eqn:E1; [|discriminate H].
  destruct (FunctionSchema.reparse_with_default _ _ _ _ a1) as [a2|] eqn:E2;
    [|discriminate H].
  destruct (FunctionSchema.reparse_with_default _ _ _ _ a2) as [a3|] eqn:E3;
    [|discriminate H].
  apply make_post_init in H as [-> _].
  apply Arguments_signature_printable in E1.
  apply (reparse_printable _ _ _ _ _ _ E2) in E1.
  apply (reparse_printable _ _ _ _ _ _ E3) in E1.
  destruct E1 as (Hp & Hk & Ho).
  destruct (Arguments_str_some a3 Hp Hk Ho) as (sa & Hsa).
  pose proof (plain_signature_returns x) as Hr.
  unfold FunctionSchema.str.
  change (FunctionSchema.arguments (FunctionSchema.mk _ a3 _)) with a3.
  rewrite Hsa.
  change (FunctionSchema.returns (FunctionSchema.mk _ a3 _))
    with (FunctionSchema.returns (plain_signature x)).
  assert (Hall : Forall (fun r => Return.str r <> None)
                        (FunctionSchema.returns (plain_signature x))).
  { eapply Forall_impl; [|exact Hr]. intros r [Ha _].
    now apply Return_str_some. }
  destruct (map_opt_some Return.str _ Hall) as (l & Hl).
  destruct (FunctionSchema.returns (plain_signature x)) as [|r [|r' rs]].
  - simpl. eauto.
  - simpl in Hl. destruct (Return.str r); [eauto|discriminate Hl].
  - rewrite Hl. eauto.
Qed.

(** ** Function groups *)

Abbreviation sig_of f := (default_signature (NativeFunction.func f)).

Lemma check_signatures_ok (t : FunctionSchema.t)
    (fs : list NativeFunction.t) :
  NativeFunctionsGroup.check_signatures t fs = inr tt ->
  forall f, In f fs -> sig_of f = Some t.
Proof.
  induction fs as [|f fs IH]; simpl; intros H g Hg; [contradiction|].
  fold (sig_of f) in H.
  destruct (sig_of f) as [s|] eqn:Es; [|discriminate H].
  destruct (FunctionSchema.eqb t s) eqn:Eq; simpl in H.
  - apply FunctionSchema_eqb_eq in Eq. subst s.
    destruct Hg as [<-|Hg]; auto.
  - destruct (FunctionSchema.str t), (FunctionSchema.str s); discriminate H.
Qed.

Lemma check_signatures_mismatch (t : FunctionSchema.t)
    (fs : list NativeFunction.t) :
  (exists st, FunctionSchema.str t = Some st) ->
  (forall f, In f fs -> sig_of f <> None) ->
  (exists f, In f fs /\ sig_of f <> Some t) ->
  exists message,
    NativeFunctionsGroup.check_signatures t fs
    = inl (NativeFunctionsGroup.SignatureMismatch message).
Proof.
  intros (st & Hst) Hall Hex.
  induction fs as [|f fs IH]; simpl.
  - destruct Hex as (f & [] & _).
  - fold (sig_of f).
    destruct (sig_of f) as [s|] eqn:Es;
      [|now destruct (Hall f (or_introl eq_refl))].
    destruct (FunctionSchema.eqb t s) eqn:Eq; simpl.
    + apply FunctionSchema_eqb_eq in Eq. subst s. apply IH.
      * intros g Hg. apply Hall. now right.
      * destruct Hex as (g & [<-|Hg] & Hne); [congruence|eauto].
    + destruct (signature_printable _ _ Es) as (ss & Hss).
      rewrite Hst, Hss. eauto.
Qed.

Lemma group_make_inv (functional : NativeFunction.t)
    (inplace mutable : option NativeFunction.t) (out : NativeFunction.t)
    (g : NativeFunctionsGroup.t) :
  NativeFunctionsGroup.make functional inplace mutable out = inr g ->
  g = NativeFunctionsGroup.mk functional inplace mutable out
  /\ exists t,
       sig_of functional = Some t
       /\ NativeFunctionsGroup.check_signatures t
            (NativeFunctionsGroup.functions g) = inr tt.
Proof.
  unfold NativeFunctionsGroup.make.
  destruct (NativeFunctionsGroup.post_init _) as [e|u] eqn:E; [discriminate|].
  intros H. injection H as <-. split; [reflexivity|].
  unfold NativeFunctionsGroup.post_init in E.
  cbn [NativeFunctionsGroup.functional] in E.
  change (FunctionSchema.signature false false false)
    with default_signature in E.
  destruct (sig_of functional) as [t|]; [|discriminate E].
  exists t. split; [reflexivity|].
  destruct (NativeFunctionsGroup.check_signatures t _) as [e|[]];
    [discriminate E|reflexivity].
Qed.

(** C8: when every member's [signature()] returns and some member's differs
    from the functional member's, the constructor of the group stops with
    the signature-mismatch error, and so does [from_dict] on a dictionary
    that holds a functional and an out member. *)
Theorem group_signature_mismatch_fails (functional : NativeFunction.t)
    (inplace mutable : option NativeFunction.t) (out : NativeFunction.t) :
  let members :=
    NativeFunctionsGroup.functions
      (NativeFunctionsGroup.mk functional inplace mutable out) in
  (forall f, In f members -> sig_of f <> None) ->
  (exists f, In f members /\ sig_of f <> sig_of functional) ->
  (exists message,
      NativeFunctionsGroup.make functional inplace mutable out
      = inl (NativeFunctionsGroup.SignatureMismatch message))
  /\ (forall d : NativeFunctionsGroup.dict,
         d SchemaKind.functional = Some functional ->
         d SchemaKind.inplace = inplace ->
         d SchemaKind.mutable = mutable ->
         d SchemaKind.out = Some out ->
         exists message,
           NativeFunctionsGroup.from_dict d
           = inl (NativeFunctionsGroup.SignatureMismatch message)).
Proof.
  intros members Hall Hex.
  assert (Hmake : exists message,
             NativeFunctionsGroup.make functional inplace mutable out
             = inl (NativeFunctionsGroup.SignatureMismatch message)).
  { destruct (sig_of functional) as [t|] eqn:Et.
    2:{ exfalso. apply (Hall functional); [now left|exact Et]. }
    destruct (check_signatures_mismatch t members) as (message & Hm); auto.
    { eapply signature_printable; eauto. }
    exists message.
    unfold NativeFunctionsGroup.make, NativeFunctionsGroup.post_init.
    simpl NativeFunctionsGroup.functional. fold (sig_of functional).
    rewrite Et. fold members. rewrite Hm. reflexivity. }
  split; [exact Hmake|].
  intros d Hf Hi Hm Ho. destruct Hmake as (message & Hmake).
  exists message. unfold NativeFunctionsGroup.from_dict.
  unfold NativeFunctionsGroup.dict_len. rewrite Hf, Hi, Hm, Ho, Hmake.
  destruct inplace, mutable; reflexivity.
Qed.

Lemma group_signature_mismatch_fails_witness :
  exists x_functional x_out,
    FunctionSchema.parse "add.Tensor(Tensor self, Tensor other) -> Tensor"
    = Some x_functional
    /\ FunctionSchema.parse
         "sub.out(Tensor self, Tensor other, *, Tensor(a!) out) -> Tensor(a!)"
       = Some x_out
    /\ exists message,
         NativeFunctionsGroup.make
           (NativeFunction.mk x_functional [] false None false [])
           None None
           (NativeFunction.mk x_out [] false None false [])
         = inl (NativeFunctionsGroup.SignatureMismatch message).
Proof.
  eexists. eexists.
  split; [vm_compute; reflexivity|]. split; [vm_compute; reflexivity|].
  apply group_signature_mismatch_fails.
  - intros f [<-|[<-|[]]]; vm_compute; discriminate.
  - eexists. split; [right; left; reflexivity|]. vm_compute. discriminate.
Defined.

(** *** The fixed points of [signature()] *)

Lemma map_strip_id (l : list Argument.t) :
  Forall (fun a => Argument.annotation a = None) l -> map strip l = l.
Proof.
  induction 1 as [|a l Ha _ IH]; simpl; [reflexivity|].
  rewrite IH. f_equal. destruct a as [n t d ann]. simpl in *. now subst.
Qed.

Lemma filter_write_plain (p : Argument.t -> bool) (l : list Argument.t) :
  Forall (fun a => Argument.annotation a = None) l ->
  filter (fun a => Argument.is_write a && p a) l = [].
Proof.
  intros H. apply filter_none. intros a Ha.
  rewrite Forall_forall in H. unfold Argument.is_write.
  now rewrite (H a Ha).
Qed.

(** A schema with the name and the returns of a signature is left as it
    is by [plain_signature] exactly when its arguments carry no bundle,
    no out-argument and no annotation. *)
Lemma plain_signature_fixed (y : FunctionSchema.t) :
  Arguments.post_init (FunctionSchema.arguments y) = true ->
  OperatorName.overload_name (FunctionSchema.name y) = "" ->
  BaseOperatorName.inplace (OperatorName.name (FunctionSchema.name y))
  = false ->
  Forall (fun r => Return.annotation r = None /\ Return.name r = None)
         (FunctionSchema.returns y) ->
  (plain_signature y = y
   <-> Arguments.tensor_options (FunctionSchema.arguments y) = None
       /\ Arguments.out (FunctionSchema.arguments y) = []
       /\ Forall (fun a => Argument.annotation a = None)
                 (Arguments.flat_all (FunctionSchema.arguments y))).
Proof.
  intros Hpost Hov Hinp Hrets. split.
  - intros H. pose proof (plain_signature_arguments y) as S.
    now rewrite H in S.
  - intros (Hto & Hout & Hann).
    destruct y as [[[b i d] ov] [pre self post kpre to kpost out] rets].
    simpl in *. subst ov i to out.
    unfold Arguments.post_init in Hpost. simpl in Hpost.
    apply andb_true_iff in Hpost as [Hpost _].
    apply andb_true_iff in Hpost as [_ Hk].
    destruct kpost; [|discriminate Hk].
    unfold Arguments.flat_all, Arguments.flat_positional,
      Arguments.flat_kwarg_only in Hann. simpl in Hann.
    rewrite !app_nil_r in Hann.
    apply Forall_app in Hann as [Hpos Hkpre].
    apply Forall_app in Hpos as [Hpre Hpos].
    apply Forall_app in Hpos as [Hself Hpostl].
    unfold plain_signature. simpl.
    rewrite (map_strip_ret_fixed _ Hrets).
    rewrite filter_write_plain, !app_nil_r, !map_strip_id; try assumption.
    + destruct self as [[sa]|]; [|reflexivity].
      apply Forall_inv in Hself. destruct sa as [n t dflt ann].
      simpl in *. now subst.
    + apply Forall_app. split; [exact Hself|exact Hpostl].
Qed.

(** For whatever [x.signature()] returns, as long as its operator name is
    not one of the two reparsed ones (which it never is for a schema out
    of [FunctionSchema.parse]), a second [signature()] returns it again
    exactly when it carries no tensor-options bundle, no out-argument and
    no annotated argument; and for a constructed schema whose own name is
    not reparsed, [signature()] returns such a schema. *)
Theorem signature_fixed_points :
  (forall x y,
      default_signature x = Some y ->
      reparsed_name (FunctionSchema.name y) = false ->
      (default_signature y = Some y
       <-> Arguments.tensor_options (FunctionSchema.arguments y) = None
           /\ Arguments.out (FunctionSchema.arguments y) = []
           /\ Forall (fun a => Argument.annotation a = None)
                     (Arguments.flat_all (FunctionSchema.arguments y))))
  /\ (forall s x y,
         FunctionSchema.parse s = Some x ->
         default_signature x = Some y ->
         reparsed_name (FunctionSchema.name y) = false)
  /\ (forall x,
         Arguments.post_init (FunctionSchema.arguments x) = true ->
         reparsed_name (FunctionSchema.name x) = false ->
         exists y,
           default_signature x = Some y
           /\ (reparsed_name (FunctionSchema.name y) = false ->
               default_signature y = Some y)).
Proof.
  assert (Hfix : forall x y,
             default_signature x = Some y ->
             reparsed_name (FunctionSchema.name y) = false ->
             (default_signature y = Some y
              <-> Arguments.tensor_options (FunctionSchema.arguments y) = None
                  /\ Arguments.out (FunctionSchema.arguments y) = []
                  /\ Forall (fun a => Argument.annotation a = None)
                            (Arguments.flat_all
                               (FunctionSchema.arguments y)))).
  { intros x y Hy Hname.
    destruct (signature_result _ _ Hy) as (Hn & Hr & Hpost).
    rewrite (default_signature_plain y Hpost Hname).
    rewrite <- (plain_signature_fixed y Hpost).
    - split; [intros H; now injection H|intros ->; reflexivity].
    - now rewrite Hn.
    - now rewrite Hn.
    - rewrite Hr. apply plain_signature_returns. }
  split; [exact Hfix|]. split.
  - intros s x y Hparse Hy.
    destruct (FunctionSchema_parse_parts _ _ Hparse) as ((ops & Hops) & _).
    apply OperatorName_parse_no_dot in Hops.
    destruct (signature_result _ _ Hy) as (-> & _).
    now apply plain_name_not_reparsed.
  - intros x Hpost Hname. exists (plain_signature x).
    pose proof (default_signature_plain x Hpost Hname) as Hy.
    split; [exact Hy|]. intros Hname'.
    apply (Hfix x _ Hy Hname'). apply plain_signature_arguments.
Qed.

Lemma signature_fixed_points_witness :
  exists x y,
    FunctionSchema.parse
      "arange.start_step(Scalar start, Scalar end, Scalar step, *, ScalarType? dtype=None, Layout? layout=None, Device? device=None, bool? pin_memory=None) -> Tensor"
    = Some x
    /\ default_signature x = Some y
    /\ default_signature y = Some y.
Proof.
  eexists. eexists. split; [vm_compute; reflexivity|].
  match goal with
  | |- default_signature ?x = Some ?y /\ _ =>
      assert (Hy : default_signature x = Some y) by (vm_compute; reflexivity)
  end.
  split; [exact Hy|].
  match type of Hy with
  | default_signature ?x = Some ?y =>
      apply (proj1 signature_fixed_points x y Hy)
  end.
  - vm_compute. reflexivity.
  - split; [reflexivity|]. split; [reflexivity|].
    vm_compute. repeat constructor.
Defined.

(** All members of a constructed group have the same [signature()],
    which returns for each of them. *)
Theorem group_members_share_signature functional inplace mutable out g :
  NativeFunctionsGroup.make functional inplace mutable out = inr g ->
  exists t,
    forall f, In f (NativeFunctionsGroup.functions g) -> sig_of f = Some t.
Proof.
  intros Hg. apply group_make_inv in Hg as (_ & t & _ & Hcheck).
  exists t. now apply check_signatures_ok.
Qed.

Lemma group_members_share_signature_witness :
  exists x_functional x_out,
    FunctionSchema.parse "add.Tensor(Tensor self, Tensor other) -> Tensor"
    = Some x_functional
    /\ FunctionSchema.parse
         "add.out(Tensor self, Tensor other, *, Tensor(a!) out) -> Tensor(a!)"
       = Some x_out
    /\ default_signature x_out = default_signature x_functional.
Proof.
  eexists. eexists.
  split; [vm_compute; reflexivity|]. split; [vm_compute; reflexivity|].
  match goal with
  | |- default_signature ?xo = default_signature ?xf =>
      pose (f := NativeFunction.mk xf [] false None false []);
      pose (o := NativeFunction.mk xo [] false None false []);
      destruct (NativeFunctionsGroup.make f None None o) as [e|g0] eqn:Em;
      [vm_compute in Em; discriminate Em|];
      destruct (group_members_share_signature f None None o g0 Em)
        as (t & Ht);
      assert (Hg : g0 = NativeFunctionsGroup.mk f None None o)
        by (vm_compute in Em; now injection Em as <-);
      subst g0;
      change (sig_of o = sig_of f);
      rewrite (Ht o), (Ht f); [reflexivity|now left|right; now left]
  end.
Defined.

(** ** The fuel of [Type.parse] always suffices *)

Lemma rev_onto_length (s acc : string) :
  String.length (Py.rev_onto s acc) = String.length s + String.length acc.
Proof.
  revert acc. induction s as [|c s IH]; intros acc; simpl; [reflexivity|].
  rewrite IH. simpl. lia.
Qed.

Lemma rev_length (s : string) : String.length (Py.rev s) = String.length s.
Proof. unfold Py.rev. rewrite rev_onto_length. simpl. lia. Qed.

Lemma strip_prefix_length (p s r : string) :
  Py.strip_prefix p s = Some r ->
  String.length s = String.length p + String.length r.
Proof.
  unfold Py.strip_prefix. revert s r.
  induction p as [|c p IH]; intros s r.
  - rewrite prefix_empty. simpl. intros H. now injection H as <-.
  - destruct s as [|d s]; [discriminate|].
    rewrite prefix_cons. destruct (Ascii.eqb c d); [|discriminate].
    simpl. intros H. f_equal. now apply IH.
Qed.

Lemma strip_suffix_length (suf s r : string) :
  Py.strip_suffix suf s = Some r ->
  String.length s = String.length r + String.length suf.
Proof.
  unfold Py.strip_suffix.
  destruct (Py.strip_prefix (Py.rev suf) (Py.rev s)) as [q|] eqn:E;
    [|discriminate].
  simpl. intros H. injection H as <-.
  apply strip_prefix_length in E. rewrite !rev_length in *. lia.
Qed.

Lemma rpartition_bracket_length (s a b : string) :
  Py.rpartition s "[" = Some (a, b) -> String.length a < String.length s.
Proof.
  revert a. induction s as [|c s IH]; intros a; [discriminate|].
  cbn [Py.rpartition].
  destruct (Py.rpartition s "[") as [[a' b']|].
  - intros H. injection H as <- <-. simpl. specialize (IH a' eq_refl). lia.
  - destruct (String.prefix "[" (String c s)); [|discriminate].
    intros H. injection H as <- _. simpl. lia.
Qed.

Lemma dollar_inv {A} (body : string -> option A) (s : string) (r : A) :
  Py.dollar body s = Some r ->
  exists s', body s' = Some r /\ String.length s' <= String.length s.
Proof.
  unfold Py.dollar. destruct (body s) as [r0|] eqn:E.
  - intros H. injection H as <-. eauto.
  - destruct (Py.strip_suffix _ s) as [s'|] eqn:Es; [|discriminate].
    intros H. exists s'. split; [exact H|].
    apply strip_suffix_length in Es. lia.
Qed.

Lemma re_optional_shorter (t g : string) :
  Ty.re_optional t = Some g -> String.length g < String.length t.
Proof.
  unfold Ty.re_optional. intros H.
  apply dollar_inv in H as (t' & H & Hle).
  destruct (Py.strip_suffix "?" t') as [g'|] eqn:E; [|discriminate H].
  destruct (Py.truthy g' && _); [|discriminate H]. injection H as <-.
  apply strip_suffix_length in E. simpl in E. lia.
Qed.

Lemma re_list_shorter (t g : string) (d : option string) :
  Ty.re_list t = Some (g, d) -> String.length g < String.length t.
Proof.
  unfold Ty.re_list. intros H.
  apply dollar_inv in H as (t' & H & Hle).
  destruct (Py.strip_suffix "]" t') as [u|] eqn:E; [|discriminate H].
  destruct (Py.rpartition u "[") as [[g' d']|] eqn:Er; [|discriminate H].
  destruct (Py.truthy g' && _); [|discriminate H].
  destruct (Py.all_chars Py.is_digit d'); [|discriminate H].
  injection H as <- _.
  apply strip_suffix_length in E. apply rpartition_bracket_length in Er.
  simpl in E. lia.
Qed.

(** With more fuel than the string is long, [parse_fuel] does not depend on
    the fuel: [Ty.parse] never fails for lack of it. *)
Lemma Ty_parse_fuel_enough (f1 : nat) :
  forall f2 t,
    String.length t < f1 -> String.length t < f2 ->
    Ty.parse_fuel f1 t = Ty.parse_fuel f2 t.
Proof.
  induction f1 as [|f1 IH]; intros f2 t H1 H2; [lia|].
  destruct f2 as [|f2]; [lia|]. cbn [Ty.parse_fuel].
  destruct (Ty.re_optional t) as [g|] eqn:Eo.
  - apply re_optional_shorter in Eo.
    rewrite (IH f2 g) by lia. reflexivity.
  - destruct (Ty.re_list t) as [[g d]|] eqn:El; [|reflexivity].
    apply re_list_shorter in El.
    rewrite (IH f2 g) by lia. reflexivity.
Qed.

(** ** The examples of the specification *)

Example example_functional :
  option_map
    (fun x => (FunctionSchema.kind x,
               Arguments.out (FunctionSchema.arguments x),
               List.length (FunctionSchema.returns x)))
    (FunctionSchema.parse
       "add.Tensor(Tensor self, Tensor other, *, Scalar alpha=1) -> Tensor")
  = Some (Some SchemaKind.functional, [], 1).
Proof. vm_compute. reflexivity. Qed.

Example example_inplace :
  option_map FunctionSchema.kind
    (FunctionSchema.parse
       "add_.Tensor(Tensor(a!) self, Tensor other, *, Scalar alpha=1) -> Tensor(a!)")
  = Some (Some SchemaKind.inplace).
Proof. vm_compute. reflexivity. Qed.

Example example_out :
  option_map
    (fun x => (FunctionSchema.kind x,
               List.length (Arguments.out (FunctionSchema.arguments x))))
    (FunctionSchema.parse
       "add.out(Tensor self, Tensor other, *, Scalar alpha=1, Tensor(a!) out) -> Tensor(a!)")
  = Some (Some SchemaKind.out, 1).
Proof. vm_compute. reflexivity. Qed.

Example example_tensor_options :
  option_map
    (fun x =>
       option_map
         (fun o => map Argument.name (TensorOptionsArguments.all o))
         (Arguments.tensor_options (FunctionSchema.arguments x)))
    (FunctionSchema.parse
       "_foo(Tensor self, *, ScalarType dtype, Layout layout, Device device, bool pin_memory) -> Tensor")
  = Some (Some ["dtype"; "layout"; "device"; "pin_memory"]).
Proof. vm_compute. reflexivity. Qed.

Example example_decl_re_findall :
  FunctionSchema.decl_re_findall "f(a) -> b) -> c"
  = [("f", "a) -> b", "c")].
Proof. vm_compute. reflexivity. Qed.

Example example_type_rejects_zero_size : Ty.parse "int[0]" = None.
Proof. vm_compute. reflexivity. Qed.

(** ** The classifier keeps the arguments in their written order *)

Lemma preparse_step_order (st st' : Arguments.preparse_state) (arg : string) :
  let flat s := (Arguments.positional s ++ Arguments.kwarg_only s
                 ++ Arguments.st_out s)%list in
  let ordered s :=
    match Arguments.arguments_acc s with
    | Arguments.Positional =>
        Arguments.kwarg_only s = [] /\ Arguments.st_out s = []
    | Arguments.KwargOnly => Arguments.st_out s = []
    | Arguments.Out => True
    end in
  ordered st ->
  Arguments.preparse_step st arg = Some st' ->
  ordered st'
  /\ (if Py.truthy arg && negb (String.eqb arg "*")
      then exists parg, Argument.parse arg = Some parg
                        /\ flat st' = (flat st ++ [parg])%list
      else flat st' = flat st).
Proof.
  intros flat ordered Hord. unfold Arguments.preparse_step.
  destruct (Py.truthy arg); simpl negb; cbv iota.
  2:{ intros H. injection H as <-. simpl. auto. }
  destruct (String.eqb arg "*"); simpl.
  { destruct (Arguments.bucket_eqb _ _) eqn:Eb; [|discriminate].
    intros H. injection H as <-. split; [|reflexivity].
    unfold ordered in *. simpl.
    destruct (Arguments.arguments_acc st); try discriminate Eb. tauto. }
  destruct (Argument.parse arg) as [parg|]; [|discriminate].
  destruct st as [p k o acc]. unfold ordered, flat in *. simpl in *.
  destruct (Argument.is_write parg), acc; simpl; try discriminate;
    intros H; injection H as <-; simpl;
    (split; [tauto|exists parg; split; [reflexivity|]]);
    match goal with
    | Hd : _ /\ _ |- _ => destruct Hd; subst
    | Hd : _ = [] |- _ => subst
    | _ => idtac
    end;
    repeat rewrite app_nil_r; repeat rewrite <- app_assoc; reflexivity.
Qed.

Lemma preparse_loop_order (pieces : list string) :
  forall st st',
    match Arguments.arguments_acc st with
    | Arguments.Positional =>
        Arguments.kwarg_only st = [] /\ Arguments.st_out st = []
    | Arguments.KwargOnly => Arguments.st_out st = []
    | Arguments.Out => True
    end ->
    Arguments.preparse_loop st pieces = Some st' ->
    exists l,
      map_opt Argument.parse
        (filter (fun arg => Py.truthy arg && negb (String.eqb arg "*")) pieces)
      = Some l
      /\ (Arguments.positional st' ++ Arguments.kwarg_only st'
          ++ Arguments.st_out st')%list
         = ((Arguments.positional st ++ Arguments.kwarg_only st
             ++ Arguments.st_out st) ++ l)%list.
Proof.
  induction pieces as [|arg rest IH]; intros st st' Hord H; simpl in H.
  - injection H as <-. exists []. split; [reflexivity|now rewrite app_nil_r].
  - destruct (Arguments.preparse_step st arg) as [st1|] eqn:E; [|discriminate].
    destruct (preparse_step_order st st1 arg Hord E) as [Hord1 Hflat].
    destruct (IH st1 st' Hord1 H) as (l & Hl & Hst').
    simpl filter.
    destruct (Py.truthy arg && negb (String.eqb arg "*")).
    + destruct Hflat as (parg & Hp & Hflat). exists (parg :: l).
      simpl. rewrite Hp, Hl. split; [reflexivity|].
      rewrite Hst', Hflat, <- app_assoc. reflexivity.
    + exists l. split; [exact Hl|]. now rewrite Hst', Hflat.
Qed.

(** The arguments of a parsed list, read bucket after bucket, are the
    argument pieces of the input, each parsed on its own, in the order in
    which they were written. *)
Theorem parsed_arguments_in_written_order (args : string) (a : Arguments.t) :
  Arguments.parse args = Some a ->
  map_opt Argument.parse (argument_pieces args) = Some (Arguments.flat_all a).
Proof.
  intros Hparse.
  destruct (Arguments._preparse args) as [[[p k] o]|] eqn:Hpre.
  2:{ unfold Arguments.parse in Hparse. rewrite Hpre in Hparse.
      discriminate Hparse. }
  destruct (Arguments_parse_flat _ _ _ _ _ Hpre Hparse) as (Hp & Hk & Ho).
  unfold Arguments.flat_all. rewrite Hp, Hk, Ho.
  unfold Arguments._preparse in Hpre.
  destruct (Arguments.preparse_loop _ _) as [st|] eqn:E; [|discriminate].
  injection Hpre as <- <- <-.
  apply preparse_loop_order in E as (l & Hl & Hflat); [|simpl; auto].
  unfold argument_pieces. rewrite Hl, Hflat. reflexivity.
Qed.

Lemma parsed_arguments_in_written_order_witness :
  exists a,
    Arguments.parse "Tensor self, Tensor other, *, Scalar alpha=1, Tensor(a!) out"
    = Some a
    /\ map_opt Argument.parse
         (argument_pieces
            "Tensor self, Tensor other, *, Scalar alpha=1, Tensor(a!) out")
       = Some (Arguments.flat_all a).
Proof.
  eexists. split; [vm_compute; reflexivity|].
  apply parsed_arguments_in_written_order. vm_compute. reflexivity.
Defined.

(** ** Annotations sit on tensor shapes only *)

Lemma parse_type_and_annot_shape (s : string) (ty : Ty.t)
    (ann : Annotation.t) :
  parse_type_and_annot s = Some (ty, Some ann) ->
  In ty [Ty.BaseType BaseTy.Tensor;
         Ty.OptionalType (Ty.BaseType BaseTy.Tensor);
         Ty.ListType (Ty.BaseType BaseTy.Tensor) None].
Proof.
  unfold parse_type_and_annot.
  destruct (re_tensor_annotation s) as [[g1 g2]|].
  - simpl existsb.
    destruct (String.eqb g2 "") eqn:E0;
      [|destruct (String.eqb g2 "?") eqn:E1;
        [|destruct (String.eqb g2 "[]") eqn:E2; [|discriminate]]];
      apply String.eqb_eq in E0 || apply String.eqb_eq in E1
      || apply String.eqb_eq in E2; subst g2; simpl;
      (destruct (Annotation.parse g1); [|discriminate]);
      vm_compute Ty.parse; intros H; injection H as <- _; simpl; auto.
  - destruct (Ty.parse s); discriminate.
Qed.

(** A parsed argument or return that carries an annotation has one of
    the types [Tensor], [Tensor?] and [Tensor[]]. *)
Theorem annotated_types_are_tensor_shapes :
  (forall arg a,
      Argument.parse arg = Some a ->
      Argument.annotation a <> None ->
      In (Argument.type a)
         [Ty.BaseType BaseTy.Tensor;
          Ty.OptionalType (Ty.BaseType BaseTy.Tensor);
          Ty.ListType (Ty.BaseType BaseTy.Tensor) None])
  /\ (forall arg r,
         Return.parse arg = Some r ->
         Return.annotation r <> None ->
         In (Return.type r)
            [Ty.BaseType BaseTy.Tensor;
             Ty.OptionalType (Ty.BaseType BaseTy.Tensor);
             Ty.ListType (Ty.BaseType BaseTy.Tensor) None]).
Proof.
  split.
  - intros arg a H Hann. unfold Argument.parse in H.
    destruct (Py.rsplit1 arg " ") as [|ta [|nd [|]]]; try discriminate H.
    match type of H with
    | match ?e with _ => _ end = _ =>
        destruct e as [[n d]|]; [|discriminate H]
    end.
    destruct (parse_type_and_annot ta) as [[ty ann]|] eqn:E;
      [|discriminate H].
    destruct (opt_string_eqb _ _); [|discriminate H].
    injection H as <-. simpl in *.
    destruct ann as [ann|]; [|contradiction].
    eapply parse_type_and_annot_shape; eauto.
  - intros arg r H Hann. unfold Return.parse in H.
    match type of H with
    | match ?e with _ => _ end = _ =>
        destruct e as [[ta n]|]; [|discriminate H]
    end.
    destruct (parse_type_and_annot ta) as [[ty ann]|] eqn:E;
      [|discriminate H].
    destruct (opt_string_eqb _ _); [|discriminate H].
    injection H as <-. simpl in *.
    destruct ann as [ann|]; [|contradiction].
    eapply parse_type_and_annot_shape; eauto.
Qed.

Lemma annotated_types_are_tensor_shapes_witness :
  exists a,
    Argument.parse "Tensor(a!)[] out" = Some a
    /\ In (Argument.type a)
          [Ty.BaseType BaseTy.Tensor;
           Ty.OptionalType (Ty.BaseType BaseTy.Tensor);
           Ty.ListType (Ty.BaseType BaseTy.Tensor) None].
Proof.
  eexists. split; [vm_compute; reflexivity|].
  apply (proj1 annotated_types_are_tensor_shapes "Tensor(a!)[] out").
  - vm_compute. reflexivity.
  - vm_compute. discriminate.
Defined.

(** ** Annotations: printing then parsing *)

Lemma re_alias_shape (s g1 g2 : string) :
  Annotation.re_alias s = Some (g1, g2) ->
  exists c, Py.is_lower c = true /\ g1 = String c "".
Proof.
  unfold Annotation.re_alias. intros H.
  apply dollar_inv in H as (s' & H & _).
  destruct s' as [|c rest]; [discriminate H|].
  destruct (Py.is_lower c) eqn:El; [|discriminate H].
  exists c. split; [exact El|].
  destruct (String.eqb rest ""); [now injection H as <- _|].
  destruct (String.eqb rest "!"); [now injection H as <- _|].
  destruct (String.eqb rest "!!"); [now injection H as <- _|discriminate H].
Qed.

(** The annotations that [Annotation.parse] returns are those with one
    lower-case letter as alias set and an after-set that is empty or the
    wildcard, and each of them is the parse of its printed form. *)
Theorem annotation_print_then_parse :
  (forall s a,
      Annotation.parse s = Some a ->
      exists c,
        Py.is_lower c = true
        /\ Annotation.alias_set a = [String c ""]
        /\ (Annotation.alias_set_after a = ""
            \/ Annotation.alias_set_after a = "*"))
  /\ (forall c w after,
         Py.is_lower c = true ->
         after = "" \/ after = "*" ->
         Annotation.parse
           (Annotation.str (Annotation.mk [String c ""] w after))
         = Some (Annotation.mk [String c ""] w after)).
Proof.
  split.
  - intros s a H. unfold Annotation.parse in H.
    destruct (Py.find s " -> *") as [i|];
      match type of H with
      | match ?e with _ => _ end = _ =>
          destruct e as [[g1 g2]|] eqn:E; [|discriminate H]
      end;
      apply re_alias_shape in E as (c & Hc & ->);
      (destruct (String.eqb _ s); [|discriminate H]);
      injection H as <-; exists c; simpl; auto.
  - intros c w after Hc Hafter.
    destruct c as [[] [] [] [] [] [] [] []]; try discriminate Hc;
      destruct w; destruct Hafter as [-> | ->]; vm_compute; reflexivity.
Qed.

Lemma annotation_print_then_parse_witness :
  Annotation.parse "a -> *!"
  = Some (Annotation.mk ["a"] true "*").
Proof.
  apply (proj2 annotation_print_then_parse "a"%char true "*").
  - reflexivity.
  - right. reflexivity.
Defined.

(** ** More consequences of the constructor checks *)

Lemma filter_nil_inv {A} (f : A -> bool) (l : list A) :
  filter f l = [] -> forall x, In x l -> f x = false.
Proof.
  induction l as [|y l IH]; simpl; intros H x Hx; [contradiction|].
  destruct (f y) eqn:E; [discriminate H|].
  destruct Hx as [<-|Hx]; auto.
Qed.

(** In a constructed schema with a write-annotated return, every return is
    write-annotated and has the annotation of an out-argument or of the
    positional argument named [self]. *)
Theorem aliased_returns_are_uniform name args rets x :
  FunctionSchema.make name args rets = Some x ->
  returns_are_aliased x = true ->
  forall r, In r (FunctionSchema.returns x) ->
    Return.is_write r = true
    /\ exists arg,
         (In arg (Arguments.out (FunctionSchema.arguments x))
          \/ (In arg (Arguments.flat_positional (FunctionSchema.arguments x))
              /\ Argument.name arg = "self"))
         /\ Argument.annotation arg = Return.annotation r.
Proof.
  intros Hmk Hal r Hr. apply make_post_init in Hmk as [_ Hpost].
  split_post_init Hpost.
  match goal with
  | E : (_ || _) && _ = true |- _ =>
      apply andb_true_iff in E as [Huni Hall]
  end.
  assert (Hw : Return.is_write r = true).
  { apply orb_true_iff in Huni as [Hm|Hi].
    - apply Nat.eqb_eq, length_zero_iff_nil in Hm.
      unfold returns_are_aliased in Hal.
      apply existsb_exists in Hal as (r' & Hr' & Hw').
      now rewrite (filter_nil_inv _ _ Hm r' Hr') in Hw'.
    - apply Nat.eqb_eq, length_zero_iff_nil in Hi.
      apply (filter_nil_inv _ _ Hi) in Hr.
      now apply negb_false_iff in Hr. }
  split; [exact Hw|].
  rewrite forallb_forall in Hall.
  specialize (Hall r (proj2 (filter_In _ _ _) (conj Hr Hw))).
  apply existsb_exists in Hall as (arg & Harg & Heq).
  exists arg. split.
  - apply in_app_or in Harg as [Ho|Hs]; [now left|right].
    apply filter_In in Hs as [Hin Hn]. now apply String.eqb_eq in Hn.
  - symmetry. now apply Annotation_opt_eqb_eq.
Qed.

Lemma aliased_returns_are_uniform_witness :
  exists x,
    FunctionSchema.parse
      "add_.Tensor(Tensor(a!) self, Tensor other, *, Scalar alpha=1) -> Tensor(a!)"
    = Some x
    /\ forall r, In r (FunctionSchema.returns x) -> Return.is_write r = true.
Proof.
  eexists. split; [vm_compute; reflexivity|].
  intros r Hr.
  match type of Hr with
  | In r (FunctionSchema.returns ?x) =>
      refine (proj1 (aliased_returns_are_uniform
                       (FunctionSchema.name x) (FunctionSchema.arguments x)
                       (FunctionSchema.returns x) x _ _ r Hr));
      vm_compute; reflexivity
  end.
Defined.

Lemma combine_forallb_map {A B C} (f : A -> C) (g : B -> C)
    (eqb : C -> C -> bool) (eqb_eq : forall x y, eqb x y = true -> x = y)
    (l1 : list A) :
  forall l2 : list B,
    List.length l1 = List.length l2 ->
    forallb (fun ab => eqb (f (fst ab)) (g (snd ab))) (combine l1 l2) = true ->
    map f l1 = map g l2.
Proof.
  induction l1 as [|a l1 IH]; intros [|b l2] Hlen H; try discriminate;
    [reflexivity|].
  simpl in *. apply andb_true_iff in H as [Hab H].
  f_equal; [now apply eqb_eq|]. apply IH; [lia|exact H].
Qed.

(** In a constructed schema whose out-arguments exist and are all of type
    [Tensor], the returns carry, one for one and in order, the annotations
    of the out-arguments. *)
Theorem out_schema_returns_its_out_arguments name args rets x :
  FunctionSchema.make name args rets = Some x ->
  Arguments.out (FunctionSchema.arguments x) <> [] ->
  (forall a, In a (Arguments.out (FunctionSchema.arguments x)) ->
             Argument.type a = Ty.BaseType BaseTy.Tensor) ->
  map Return.annotation (FunctionSchema.returns x)
  = map Argument.annotation (Arguments.out (FunctionSchema.arguments x)).
Proof.
  intros Hmk Hout Hall. apply make_post_init in Hmk as [_ Hpost].
  split_post_init Hpost.
  match goal with
  | E : (if nonempty _ then _ else _) = true |- _ => rename E into Hcheck
  end.
  apply nonempty_true in Hout. rewrite Hout in Hcheck.
  destruct (existsb _ _) eqn:Eex in Hcheck.
  { apply existsb_exists in Eex as (a & Hin & Hne).
    rewrite (Hall a Hin) in Hne. discriminate Hne. }
  apply Nat.eqb_eq in Hcheck. symmetry.
  eapply combine_forallb_map;
    [exact Annotation_opt_eqb_eq|exact Hcheck|exact Hpost].
Qed.

Lemma out_schema_returns_its_out_arguments_witness :
  exists x,
    FunctionSchema.parse
      "max.dim_max(Tensor self, int dim, *, Tensor(a!) max, Tensor(b!) max_values) -> (Tensor(a!) values, Tensor(b!) indices)"
    = Some x
    /\ map Return.annotation (FunctionSchema.returns x)
       = map Argument.annotation (Arguments.out (FunctionSchema.arguments x)).
Proof.
  eexists. split; [vm_compute; reflexivity|].
  match goal with
  | |- map _ (FunctionSchema.returns ?x) = _ =>
      apply (out_schema_returns_its_out_arguments
               (FunctionSchema.name x) (FunctionSchema.arguments x)
               (FunctionSchema.returns x) x)
  end.
  - vm_compute. reflexivity.
  - vm_compute. discriminate.
  - intros a [<-|[<-|[]]]; reflexivity.
Defined.

(** A constructed schema that has a tensor-options bundle, or whose
    overload name contains [functional], is of functional kind: it has no
    out-argument, no inplace name and no write-annotated post-self
    positional argument. *)
Theorem tensor_options_only_on_functional name args rets x :
  FunctionSchema.make name args rets = Some x ->
  Arguments.tensor_options (FunctionSchema.arguments x) <> None
  \/ FunctionSchema.is_functional_fn x = true ->
  FunctionSchema.kind x = Some SchemaKind.functional
  /\ Arguments.out (FunctionSchema.arguments x) = []
  /\ BaseOperatorName.inplace (OperatorName.name (FunctionSchema.name x))
     = false
  /\ forall a, In a (Arguments.post_self_positional
                       (FunctionSchema.arguments x)) ->
               Argument.is_write a = false.
Proof.
  intros Hmk Hor. apply make_post_init in Hmk as [_ Hpost].
  split_post_init Hpost.
  assert (Hk : FunctionSchema.kind_is x SchemaKind.functional = true).
  { destruct Hor as [Hto|Hfn].
    - destruct (Arguments.tensor_options _); [assumption|contradiction].
    - match goal with
      | E : (if FunctionSchema.is_functional_fn x then _ else _) = true |- _ =>
          now rewrite Hfn in E
      end. }
  clear - Hk. unfold FunctionSchema.kind_is in Hk.
  destruct (FunctionSchema.kind x) as [k|] eqn:Ek; [|discriminate Hk].
  destruct k; try discriminate Hk. clear Hk.
  split; [reflexivity|]. unfold FunctionSchema.kind in Ek.
  destruct (Arguments.out (FunctionSchema.arguments x)); simpl in Ek;
    destruct (BaseOperatorName.inplace
                (OperatorName.name (FunctionSchema.name x)));
    simpl in Ek; try discriminate Ek;
    destruct (existsb Argument.is_write
                (Arguments.post_self_positional (FunctionSchema.arguments x)))
      eqn:Ee; try discriminate Ek.
  repeat split. intros a Ha.
  destruct (Argument.is_write a) eqn:Ew; [|reflexivity].
  rewrite <- Ee. symmetry. apply existsb_exists. eauto.
Qed.

Lemma tensor_options_only_on_functional_witness :
  exists x,
    FunctionSchema.parse
      "_foo(Tensor self, *, ScalarType dtype, Layout layout, Device device, bool pin_memory) -> Tensor"
    = Some x
    /\ FunctionSchema.kind x = Some SchemaKind.functional.
Proof.
  eexists. split; [vm_compute; reflexivity|].
  match goal with
  | |- FunctionSchema.kind ?x = _ =>
      apply (tensor_options_only_on_functional
               (FunctionSchema.name x) (FunctionSchema.arguments x)
               (FunctionSchema.returns x) x)
  end.
  - vm_compute. reflexivity.
  - left. vm_compute. discriminate.
Defined.

(** ** [aliased_return_names] *)

Lemma map_opt_Forall2 {A B} (f : A -> option B) (l : list A) :
  forall l', map_opt f l = Some l' -> Forall2 (fun x y => f x = Some y) l l'.
Proof.
  induction l as [|x l IH]; simpl; intros l' H.
  - injection H as <-. constructor.
  - destruct (f x) as [y|] eqn:E; [|discriminate H].
    destruct (map_opt f l) as [ys|]; [|discriminate H].
    injection H as <-. constructor; auto.
Qed.

Lemma Annotation_eqb_refl (a : Annotation.t) : Annotation.eqb a a = true.
Proof.
  unfold Annotation.eqb.
  destruct (list_eq_dec string_dec _ _) as [_|Hne]; [|now elim Hne].
  now rewrite Bool.eqb_reflx, String.eqb_refl.
Qed.

Lemma post_init_mutable_return (x : FunctionSchema.t) (r : Return.t) :
  FunctionSchema.post_init x = true ->
  In r (FunctionSchema.returns x) ->
  Return.is_write r = true ->
  exists arg,
    In arg (Arguments.flat_all (FunctionSchema.arguments x))
    /\ Argument.annotation arg = Return.annotation r.
Proof.
  intros Hpost Hr Hw. split_post_init Hpost.
  match goal with
  | E : (_ || _) && _ = true |- _ => apply andb_true_iff in E as [_ Hall]
  end.
  rewrite forallb_forall in Hall.
  specialize (Hall r (proj2 (filter_In _ _ _) (conj Hr Hw))).
  apply existsb_exists in Hall as (arg & Harg & Heq).
  exists arg. split; [|symmetry; now apply Annotation_opt_eqb_eq].
  unfold Arguments.flat_all.
  apply in_app_or in Harg as [Ho|Hs].
  - apply in_or_app. right. apply in_or_app. now right.
  - apply filter_In in Hs as [Hin _]. apply in_or_app. now left.
Qed.

(** When [aliased_return_names] returns, it has one entry per return; the
    entry of a return without annotation is [None]; an entry [Some n]
    names an argument with the annotation of that return; and in a
    constructed schema the entry of every write-annotated return is such a
    name. *)
Theorem aliased_return_names_entries name args rets x l :
  FunctionSchema.make name args rets = Some x ->
  aliased_return_names x = Some l ->
  Forall2
    (fun r o =>
       (Return.annotation r = None -> o = None)
       /\ (forall n, o = Some n ->
             exists a, In a (Arguments.flat_all (FunctionSchema.arguments x))
                       /\ Argument.annotation a = Return.annotation r
                       /\ Argument.name a = n)
       /\ (Return.is_write r = true -> o <> None))
    (FunctionSchema.returns x) l.
Proof.
  intros Hmk Hal. apply make_post_init in Hmk as [_ Hpost].
  unfold aliased_return_names in Hal. apply map_opt_Forall2 in Hal.
  assert (Hin : forall r, In r (FunctionSchema.returns x) ->
                          In r (FunctionSchema.returns x)) by auto.
  revert Hin Hal.
  generalize (FunctionSchema.returns x) at 1 3 4 as rs. intros rs Hin Hal.
  induction Hal as [|r o rs l' Hro _ IH];
    constructor; [|apply IH; intros r' Hr'; apply Hin; now right].
  specialize (Hin r (or_introl eq_refl)).
  set (p := fun a : Argument.t =>
              match Argument.annotation a with
              | Some _ => Annotation.opt_eqb (Argument.annotation a)
                                             (Return.annotation r)
              | None => false
              end) in *.
  split; [|split].
  - intros Hnone. rewrite filter_none in Hro; [now injection Hro as <-|].
    intros a _. unfold p. rewrite Hnone.
    now destruct (Argument.annotation a).
  - intros n ->.
    destruct (filter p _) as [|a [|b rest]] eqn:Ef; try discriminate Hro.
    injection Hro as <-.
    assert (Ha : In a (filter p (Arguments.flat_all
                                   (FunctionSchema.arguments x))))
      by (rewrite Ef; now left).
    apply filter_In in Ha as [Ha Hp]. exists a. repeat split; auto.
    unfold p in Hp. destruct (Argument.annotation a) eqn:Ea; [|discriminate].
    now apply Annotation_opt_eqb_eq.
  - intros Hw ->.
    destruct (post_init_mutable_return x r Hpost Hin Hw) as (a & Ha & Heq).
    assert (Hf : In a (filter p (Arguments.flat_all
                                   (FunctionSchema.arguments x)))).
    { apply filter_In. split; [exact Ha|]. unfold p. rewrite Heq.
      unfold Return.is_write, Annotation.opt_is_write in Hw.
      destruct (Return.annotation r) as [ann|]; [|discriminate Hw].
      simpl. apply Annotation_eqb_refl. }
    destruct (filter p _) as [|a' [|b rest]]; try discriminate Hro.
    contradiction.
Qed.

Lemma aliased_return_names_entries_witness :
  exists x,
    FunctionSchema.parse
      "add.out(Tensor self, Tensor other, *, Scalar alpha=1, Tensor(a!) out) -> Tensor(a!)"
    = Some x
    /\ aliased_return_names x = Some [Some "out"].
Proof.
  eexists. split; [vm_compute; reflexivity|].
  match goal with
  | |- aliased_return_names ?x = _ =>
      pose proof (aliased_return_names_entries
                    (FunctionSchema.name x) (FunctionSchema.arguments x)
                    (FunctionSchema.returns x) x [Some "out"]
                    eq_refl eq_refl) as H
  end.
  vm_compute. reflexivity.
Defined.

(** ** What a constructed group guarantees *)

Lemma check_kind_ok (f : NativeFunction.t) (k : SchemaKind.t) (u : unit) :
  NativeFunctionsGroup.check_kind f k = inr u ->
  FunctionSchema.kind (NativeFunction.func f) = Some k.
Proof.
  unfold NativeFunctionsGroup.check_kind.
  destruct (FunctionSchema.kind _) as [k'|]; [|discriminate].
  destruct k', k; simpl; intros H; try discriminate H; reflexivity.
Qed.

Lemma opt_name_eqb_ok (a : option OperatorName.t) (b : OperatorName.t)
    (u : unit) :
  NativeFunctionsGroup.check (NativeFunctionsGroup.opt_name_eqb a b) = inr u ->
  a = Some b.
Proof.
  destruct a as [x|]; simpl; [|discriminate].
  destruct (OperatorName.eqb x b) eqn:E; [|discriminate].
  intros _. f_equal. now apply OperatorName_eqb_eq.
Qed.

Lemma group_post_init_inv (g : NativeFunctionsGroup.t) (u : unit) :
  NativeFunctionsGroup.post_init g = inr u ->
  FunctionSchema.kind (NativeFunction.func (NativeFunctionsGroup.functional g))
  = Some SchemaKind.functional
  /\ FunctionSchema.kind (NativeFunction.func (NativeFunctionsGroup.out g))
     = Some SchemaKind.out
  /\ (forall f, NativeFunctionsGroup.inplace g = Some f ->
        FunctionSchema.kind (NativeFunction.func f) = Some SchemaKind.inplace)
  /\ (forall f, NativeFunctionsGroup.mutable g = Some f ->
        FunctionSchema.kind (NativeFunction.func f) = Some SchemaKind.mutable)
  /\ (NativeFunction.structured (NativeFunctionsGroup.out g) = true ->
      NativeFunction.has_composite_implicit_autograd_kernel
        (NativeFunctionsGroup.out g) = false
      /\ NativeFunction.structured_delegate (NativeFunctionsGroup.functional g)
         = Some (FunctionSchema.name
                   (NativeFunction.func (NativeFunctionsGroup.out g)))
      /\ forall f, NativeFunctionsGroup.inplace g = Some f ->
           NativeFunction.structured_delegate f
           = Some (FunctionSchema.name
                     (NativeFunction.func (NativeFunctionsGroup.out g)))).
Proof.
  unfold NativeFunctionsGroup.post_init. intros H.
  destruct (FunctionSchema.signature _ _ _ _) as [t|]; [|discriminate H].
  destruct (NativeFunctionsGroup.check_signatures t _) as [e|u0];
    [discriminate H|].
  destruct (NativeFunctionsGroup.check_kind
              (NativeFunctionsGroup.functional g) _) as [e|u1] eqn:E1;
    [discriminate H|].
  destruct (NativeFunctionsGroup.check_kind
              (NativeFunctionsGroup.out g) _) as [e|u2] eqn:E2;
    [discriminate H|].
  apply check_kind_ok in E1, E2.
  split; [exact E1|]. split; [exact E2|].
  assert (Hi : forall f, NativeFunctionsGroup.inplace g = Some f ->
                 FunctionSchema.kind (NativeFunction.func f)
                 = Some SchemaKind.inplace).
  { intros f Hf. rewrite Hf in H.
    destruct (NativeFunctionsGroup.check_kind f _) as [e|u3] eqn:E3;
      [discriminate H|]. now apply check_kind_ok in E3. }
  split; [exact Hi|].
  destruct (match NativeFunctionsGroup.inplace g with
            | Some f => NativeFunctionsGroup.check_kind f SchemaKind.inplace
            | None => inr tt
            end) as [e|u3]; [discriminate H|].
  assert (Hm : forall f, NativeFunctionsGroup.mutable g = Some f ->
                 FunctionSchema.kind (NativeFunction.func f)
                 = Some SchemaKind.mutable).
  { intros f Hf. rewrite Hf in H.
    destruct (NativeFunctionsGroup.check_kind f _) as [e|u4] eqn:E4;
      [discriminate H|]. now apply check_kind_ok in E4. }
  split; [exact Hm|].
  destruct (match NativeFunctionsGroup.mutable g with
            | Some f => NativeFunctionsGroup.check_kind f SchemaKind.mutable
            | None => inr tt
            end) as [e|u4]; [discriminate H|].
  intros Hs. unfold NativeFunctionsGroup.structured in H. rewrite Hs in H.
  destruct (NativeFunction.has_composite_implicit_autograd_kernel _);
    [discriminate H|]. simpl in H.
  split; [reflexivity|].
  destruct (NativeFunctionsGroup.check (NativeFunctionsGroup.opt_name_eqb
              (NativeFunction.structured_delegate
                 (NativeFunctionsGroup.functional g)) _)) as [e|u5] eqn:E5;
    [discriminate H|].
  apply opt_name_eqb_ok in E5. split; [exact E5|].
  intros f Hf. rewrite Hf in H.
  destruct (NativeFunctionsGroup.check (NativeFunctionsGroup.opt_name_eqb
              (NativeFunction.structured_delegate f) _)) as [e|u6] eqn:E6;
    [discriminate H|].
  now apply opt_name_eqb_ok in E6.
Qed.

(** Every member of a constructed group has the schema kind of its slot;
    and if the out member is structured, it has no composite implicit
    autograd kernel and the functional member and the inplace member, if
    any, name its operator as their structured delegate. *)
Theorem constructed_group_members functional inplace mutable out g :
  NativeFunctionsGroup.make functional inplace mutable out = inr g ->
  FunctionSchema.kind (NativeFunction.func functional)
  = Some SchemaKind.functional
  /\ FunctionSchema.kind (NativeFunction.func out) = Some SchemaKind.out
  /\ (forall f, inplace = Some f ->
        FunctionSchema.kind (NativeFunction.func f) = Some SchemaKind.inplace)
  /\ (forall f, mutable = Some f ->
        FunctionSchema.kind (NativeFunction.func f) = Some SchemaKind.mutable)
  /\ (NativeFunction.structured out = true ->
      NativeFunction.has_composite_implicit_autograd_kernel out = false
      /\ NativeFunction.structured_delegate functional
         = Some (FunctionSchema.name (NativeFunction.func out))
      /\ forall f, inplace = Some f ->
           NativeFunction.structured_delegate f
           = Some (FunctionSchema.name (NativeFunction.func out))).
Proof.
  unfold NativeFunctionsGroup.make.
  destruct (NativeFunctionsGroup.post_init _) as [e|u] eqn:E; [discriminate|].
  intros _. apply group_post_init_inv in E. exact E.
Qed.

Lemma constructed_group_members_witness :
  exists x_functional x_out,
    FunctionSchema.parse "add.Tensor(Tensor self, Tensor other) -> Tensor"
    = Some x_functional
    /\ FunctionSchema.parse
         "add.out(Tensor self, Tensor other, *, Tensor(a!) out) -> Tensor(a!)"
       = Some x_out
    /\ exists g,
         NativeFunctionsGroup.make
           (NativeFunction.mk x_functional [] false None false [])
           None None
           (NativeFunction.mk x_out [] false None false [])
         = inr g
         /\ FunctionSchema.kind x_out = Some SchemaKind.out.
Proof.
  eexists. eexists.
  split; [vm_compute; reflexivity|]. split; [vm_compute; reflexivity|].
  match goal with
  | |- exists g, NativeFunctionsGroup.make ?f ?i ?m ?o = inr g /\ _ =>
      destruct (NativeFunctionsGroup.make f i m o) as [e|g0] eqn:Em;
      [vm_compute in Em; discriminate Em|];
      exists g0; split; [reflexivity|];
      exact (proj1 (proj2 (constructed_group_members f i m o g0 Em)))
  end.
Defined.

(** [from_dict] fails on an empty dictionary and on one without functional
    entry, returns [None] for a single entry or a missing out entry, and
    when it returns a group, the group holds the entries of the dictionary
    and every entry has the schema kind of its key. *)
Theorem from_dict_outcomes (d : NativeFunctionsGroup.dict) :
  (NativeFunctionsGroup.dict_len d = 0 ->
   NativeFunctionsGroup.from_dict d = inl NativeFunctionsGroup.AssertionFailed)
  /\ (NativeFunctionsGroup.dict_len d = 1 ->
      NativeFunctionsGroup.from_dict d = inr None)
  /\ (1 < NativeFunctionsGroup.dict_len d ->
      d SchemaKind.functional = None ->
      NativeFunctionsGroup.from_dict d
      = inl NativeFunctionsGroup.AssertionFailed)
  /\ (1 < NativeFunctionsGroup.dict_len d ->
      d SchemaKind.functional <> None -> d SchemaKind.out = None ->
      NativeFunctionsGroup.from_dict d = inr None)
  /\ (forall g,
         NativeFunctionsGroup.from_dict d = inr (Some g) ->
         d SchemaKind.functional = Some (NativeFunctionsGroup.functional g)
         /\ d SchemaKind.inplace = NativeFunctionsGroup.inplace g
         /\ d SchemaKind.mutable = NativeFunctionsGroup.mutable g
         /\ d SchemaKind.out = Some (NativeFunctionsGroup.out g)
         /\ forall k f, d k = Some f ->
              FunctionSchema.kind (NativeFunction.func f) = Some k).
Proof.
  unfold NativeFunctionsGroup.from_dict.
  split; [intros ->; reflexivity|].
  split; [intros ->; reflexivity|].
  assert (Hlen : forall n, 1 < n -> Nat.ltb 0 n = true /\ Nat.eqb n 1 = false).
  { intros n Hn. split; [apply Nat.ltb_lt; lia|apply Nat.eqb_neq; lia]. }
  split; [|split].
  - intros Hn Hf. destruct (Hlen _ Hn) as [-> ->]. simpl. now rewrite Hf.
  - intros Hn Hf Ho. destruct (Hlen _ Hn) as [-> ->]. simpl.
    rewrite Ho. destruct (d SchemaKind.functional); [reflexivity|].
    now elim Hf.
  - intros g H.
    destruct (Nat.ltb 0 _); [|discriminate H]. simpl in H.
    destruct (Nat.eqb _ 1); [discriminate H|].
    destruct (d SchemaKind.functional) as [f|] eqn:Ef; [|discriminate H].
    destruct (d SchemaKind.out) as [o|] eqn:Eo; [|discriminate H].
    destruct (NativeFunctionsGroup.make f _ _ o) as [e|g'] eqn:Em;
      [discriminate H|].
    injection H as <-.
    pose proof Em as Hinv. unfold NativeFunctionsGroup.make in Hinv.
    destruct (NativeFunctionsGroup.post_init _) as [e|u] eqn:Ep;
      [discriminate Hinv|].
    injection Hinv as <-. simpl.
    apply group_post_init_inv in Ep as (Hkf & Hko & Hki & Hkm & _).
    simpl in *. repeat split.
    intros k h Hk. destruct k.
    + rewrite Ef in Hk. now injection Hk as <-.
    + now apply Hki.
    + rewrite Eo in Hk. now injection Hk as <-.
    + now apply Hkm.
Qed.

Lemma from_dict_outcomes_witness :
  exists x,
    FunctionSchema.parse "add.Tensor(Tensor self, Tensor other) -> Tensor"
    = Some x
    /\ NativeFunctionsGroup.from_dict
         (fun k =>
            match k with
            | SchemaKind.functional =>
                Some (NativeFunction.mk x [] false None false [])
            | _ => None
            end)
       = inr None.
Proof.
  eexists. split; [vm_compute; reflexivity|].
  apply (proj1 (proj2 (from_dict_outcomes _))). reflexivity.
Defined.

(** ** How operator names are read *)

Lemma string_length_append (a b : string) :
  String.length (a ++ b) = String.length a + String.length b.
Proof. induction a as [|c a IH]; simpl; [reflexivity|now rewrite IH]. Qed.

Lemma partition_dot_parts (s a b : string) :
  Py.partition s "." = Some (a, b) -> s = a ++ "." ++ b.
Proof.
  revert a. induction s as [|c s IH]; intros a; [discriminate|].
  cbn [Py.partition]. rewrite prefix_cons, prefix_empty, andb_true_r.
  destruct (Ascii.eqb "." c) eqn:Ec.
  - apply Ascii.eqb_eq in Ec. subst c.
    intros H. injection H as <- <-. reflexivity.
  - destruct (Py.partition s ".") as [[a' b']|]; [|discriminate].
    intros H. injection H as <- <-. simpl. f_equal. now apply IH.
Qed.

Lemma contains_dot_append (a b : string) :
  Py.contains (a ++ String "." b) "." = true.
Proof.
  induction a as [|c a IH].
  - cbn [append Py.contains]. rewrite prefix_cons, prefix_empty. reflexivity.
  - change (String c a ++ String "." b) with (String c (a ++ String "." b)).
    cbn [Py.contains]. rewrite IH. apply orb_true_r.
Qed.

(** For a name that [OperatorName.parse] accepts: the overload name is
    empty exactly when the name has no dot; otherwise the name is the
    printed base name, which has no dot, a dot, and the overload name. *)
Theorem overload_name_follows_first_dot (s : string) (n : OperatorName.t) :
  OperatorName.parse s = Some n ->
  Py.contains (BaseOperatorName.str (OperatorName.name n)) "." = false
  /\ (OperatorName.overload_name n = "" <-> Py.contains s "." = false)
  /\ (OperatorName.overload_name n <> "" ->
      s = BaseOperatorName.str (OperatorName.name n) ++ "."
          ++ OperatorName.overload_name n).
Proof.
  intros H. split; [eapply OperatorName_parse_no_dot; eauto|].
  pose proof (OperatorName_parse_str _ _ H) as Hstr.
  pose proof (OperatorName_parse_no_dot _ _ H) as Hdot.
  unfold OperatorName.str in Hstr.
  destruct (OperatorName.overload_name n) as [|c o] eqn:Eo; simpl in Hstr.
  - subst s. split; [tauto|]. intros Hne. now elim Hne.
  - subst s. split; [|reflexivity].
    change ("." ++ String c o) with (String "." (String c o)).
    rewrite contains_dot_append.
    split; intros Hx; discriminate Hx.
Qed.

Lemma overload_name_follows_first_dot_witness :
  exists n,
    OperatorName.parse "add.Tensor" = Some n
    /\ OperatorName.overload_name n <> "".
Proof.
  eexists. split; [vm_compute; reflexivity|].
  intros Hempty.
  apply (proj1 (proj2 (overload_name_follows_first_dot "add.Tensor" _ eq_refl)))
    in Hempty.
  vm_compute in Hempty. discriminate Hempty.
Defined.

Lemma span_all (p : ascii -> bool) (s a b : string) :
  Py.span p s = (a, b) -> Py.all_chars p a = true.
Proof.
  revert a b. induction s as [|c s IH]; simpl; intros a b H.
  - now injection H as <- _.
  - destruct (p c) eqn:Ec.
    + destruct (Py.span p s) as [a' b'].
      injection H as <- _. simpl. rewrite Ec. now apply (IH a' b').
    + now injection H as <- _.
Qed.

Lemma re_dunder_inner (op g : string) :
  BaseOperatorName.re_dunder op = Some g ->
  Py.all_chars BaseOperatorName.not_underscore g = true.
Proof.
  unfold BaseOperatorName.re_dunder. intros H.
  apply dollar_inv in H as (op' & H & _).
  destruct (Py.strip_prefix "__" op') as [rest|]; [|discriminate H].
  destruct (Py.span BaseOperatorName.not_underscore rest) as [g' tail] eqn:Es.
  destruct (Py.truthy g'); [|discriminate H].
  destruct (String.eqb tail "__"); [|discriminate H].
  injection H as <-. eapply span_all; eauto.
Qed.

(** For a name that [BaseOperatorName.parse] accepts: it is not empty and
    does not end in [_out]; a dunder name is inplace only for one of the
    eleven augmented-assignment names, its base has no underscore and, when
    not inplace, does not start with [i]; any other name is inplace exactly
    when it ends in an underscore. *)
Theorem base_operator_name_flags (op : string) (b : BaseOperatorName.t) :
  BaseOperatorName.parse op = Some b ->
  op <> ""
  /\ Py.endswith op "_out" = false
  /\ (BaseOperatorName.dunder_method b = true ->
      (if BaseOperatorName.inplace b
       then In (BaseOperatorName.base b) AUGMENTED_ASSIGNMENT_NAMES
       else Py.startswith (BaseOperatorName.base b) "i" = false)
      /\ Py.all_chars BaseOperatorName.not_underscore
           (BaseOperatorName.base b) = true)
  /\ (BaseOperatorName.dunder_method b = false ->
      (BaseOperatorName.inplace b = true <-> Py.endswith op "_" = true)).
Proof.
  unfold BaseOperatorName.parse. intros H.
  destruct (String.eqb op "") eqn:Ee; [discriminate H|].
  destruct (Py.endswith op "_out") eqn:Eo; [discriminate H|].
  cbv beta iota delta [negb] in H.
  split; [intros ->; discriminate Ee|]. split; [reflexivity|].
  destruct (BaseOperatorName.re_dunder op) as [g|] eqn:Er.
  - apply re_dunder_inner in Er.
    destruct (existsb _ AUGMENTED_ASSIGNMENT_NAMES) eqn:Ex.
    + destruct (String.eqb _ op); [|discriminate H]. injection H as <-.
      simpl. split; [|discriminate].
      intros _. apply existsb_exists in Ex as (n & Hn & Hg).
      apply String.eqb_eq in Hg. subst g. simpl in *.
      split; [exact Hn|exact Er].
    + destruct (Py.startswith g "i") eqn:Ei; [discriminate H|].
      cbv beta iota delta [negb] in H.
      destruct (String.eqb _ op); [|discriminate H]. injection H as <-.
      simpl. split; [auto|discriminate].
  - unfold BaseOperatorName.strip_last_underscore, Py.strip_suffix,
      Py.strip_prefix in H.
    unfold Py.endswith.
    destruct (String.prefix (Py.rev "_") (Py.rev op)); simpl in H;
      (destruct (String.eqb _ op); [|discriminate H]); injection H as <-;
      simpl; (split; [discriminate|]); intros _; split; auto; discriminate.
Qed.

Lemma base_operator_name_flags_witness :
  exists b,
    BaseOperatorName.parse "__iadd__" = Some b
    /\ In (BaseOperatorName.base b) AUGMENTED_ASSIGNMENT_NAMES.
Proof.
  eexists. split; [vm_compute; reflexivity|].
  exact (proj1 (proj1 (proj2 (proj2 (base_operator_name_flags "__iadd__" _
                                       eq_refl))) eq_refl)).
Defined.

(** ** [Arguments.signature] and the rewriting methods *)

(** Adding out-arguments to an argument list, which is possible only when
    it has none, or removing the annotation of [self], which is possible
    only when there is a [self], changes nothing in its signature. *)
Theorem signature_ignores_out_and_self_annotation (strip_default : bool)
    (a a' : Arguments.t) :
  (forall outs,
      with_out_args a outs = Some a' ->
      Arguments.out a = [] /\ Arguments.out a' = outs
      /\ Arguments.signature strip_default a'
         = Arguments.signature strip_default a)
  /\ (remove_self_annotation a = Some a' ->
      Arguments.self_arg a <> None
      /\ (forall s, Arguments.self_arg a' = Some s ->
            Argument.annotation (SelfArgument.argument s) = None)
      /\ Arguments.signature strip_default a'
         = Arguments.signature strip_default a).
Proof.
  split.
  - intros outs H. unfold with_out_args in H.
    destruct (Nat.eqb _ 0) eqn:E; [|discriminate H].
    apply Nat.eqb_eq, length_zero_iff_nil in E.
    apply Arguments_make_fields in H. subst a'.
    split; [exact E|]. split; reflexivity.
  - intros H. unfold remove_self_annotation in H.
    destruct (Arguments.self_arg a) as [s|] eqn:Es; [|discriminate H].
    apply Arguments_make_fields in H. subst a'.
    split; [discriminate|]. split.
    + simpl. intros s' Hs'. now injection Hs' as <-.
    + unfold Arguments.signature. simpl. rewrite Es. reflexivity.
Qed.

Lemma signature_ignores_out_and_self_annotation_witness :
  exists a a',
    Arguments.parse "Tensor(a!) self, Tensor other" = Some a
    /\ remove_self_annotation a = Some a'
    /\ Arguments.signature false a' = Arguments.signature false a.
Proof.
  eexists. eexists. split; [vm_compute; reflexivity|].
  match goal with
  | |- remove_self_annotation ?a = Some ?a' /\ _ =>
      assert (H : remove_self_annotation a = Some a')
        by (vm_compute; reflexivity);
      split; [exact H|];
      exact (proj2 (proj2 (proj2 (signature_ignores_out_and_self_annotation
                                    false a a') H)))
  end.
Defined.

(** ** What a constructed view group guarantees *)

Lemma signatures_equal_eq (a b : option FunctionSchema.t) :
  signatures_equal a b = true -> a = b /\ a <> None.
Proof.
  destruct a as [x|], b as [y|]; simpl; try discriminate.
  intros H. apply FunctionSchema_eqb_eq in H. subst y.
  split; [reflexivity|discriminate].
Qed.

(** In a constructed view group the primary operator is a view operator;
    without a copy variant it has a composite implicit autograd kernel or
    the [inplace_view] tag; a copy variant has a base name ending in
    [_copy], the [view_copy] tag and, after stripping the copy name, the
    signature of the view; an inplace variant has the signature of the view
    and a composite implicit autograd kernel whenever the view has one. *)
Theorem constructed_view_group view view_copy view_inplace g :
  NativeFunctionsViewGroup.make view view_copy view_inplace = Some g ->
  is_view_op view = true
  /\ (view_copy = None ->
      NativeFunction.has_composite_implicit_autograd_kernel view = true
      \/ has_tag "inplace_view" view = true)
  /\ (forall vc, view_copy = Some vc ->
        Py.endswith (root_name vc) "_copy" = true
        /\ has_tag "view_copy" vc = true
        /\ view_signature (NativeFunction.func vc)
           = default_signature (NativeFunction.func view)
        /\ default_signature (NativeFunction.func view) <> None)
  /\ (forall vi, view_inplace = Some vi ->
        default_signature (NativeFunction.func vi)
        = default_signature (NativeFunction.func view)
        /\ (NativeFunction.has_composite_implicit_autograd_kernel view = true ->
            NativeFunction.has_composite_implicit_autograd_kernel vi = true)).
Proof.
  unfold NativeFunctionsViewGroup.make.
  destruct (NativeFunctionsViewGroup.post_init _) eqn:E; [|discriminate].
  intros _. unfold NativeFunctionsViewGroup.post_init in E. simpl in E.
  apply andb_true_iff in E as [E Hcomp].
  apply andb_true_iff in E as [E Hinp].
  apply andb_true_iff in E as [Hview Hcopy].
  split; [exact Hview|]. split; [|split].
  - intros ->. unfold gets_generated_view_copy in Hcopy.
    rewrite Hview in Hcopy. simpl in Hcopy.
    destruct (NativeFunction.has_composite_implicit_autograd_kernel view);
      [now left|].
    destruct (has_tag "inplace_view" view); [now right|discriminate Hcopy].
  - intros vc ->.
    apply andb_true_iff in Hcopy as [Hcopy Htag].
    apply andb_true_iff in Hcopy as [Hend Hsig].
    apply signatures_equal_eq in Hsig as [Hsig Hsome].
    repeat split; auto.
  - intros vi ->.
    apply signatures_equal_eq in Hinp as [Hsig _].
    split; [now symmetry|].
    intros Hc. now rewrite Hc in Hcomp.
Qed.

Lemma constructed_view_group_witness :
  exists x_view x_copy,
    FunctionSchema.parse "view(Tensor(a) self, int[] size) -> Tensor(a)"
    = Some x_view
    /\ FunctionSchema.parse "view_copy(Tensor self, int[] size) -> Tensor"
       = Some x_copy
    /\ exists g,
         NativeFunctionsViewGroup.make
           (NativeFunction.mk x_view [] false None false [])
           (Some (NativeFunction.mk x_copy [] false None false ["view_copy"]))
           None
         = Some g
         /\ view_signature x_copy = default_signature x_view.
Proof.
  eexists. eexists.
  split; [vm_compute; reflexivity|]. split; [vm_compute; reflexivity|].
  match goal with
  | |- exists g, NativeFunctionsViewGroup.make ?v ?c ?i = Some g /\ _ =>
      destruct (NativeFunctionsViewGroup.make v c i) as [g0|] eqn:Em;
      [|vm_compute in Em; discriminate Em];
      exists g0; split; [reflexivity|];
      destruct (proj1 (proj2 (proj2 (constructed_view_group v c i g0 Em)))
                  _ eq_refl) as (_ & _ & Hsig & _);
      exact Hsig
  end.
Defined.

(** ** Which arguments can be write-annotated *)

Lemma preparse_step_mutability (st st' : Arguments.preparse_state)
    (arg : string) :
  Forall (fun a => Argument.is_write a = false) (Arguments.kwarg_only st) ->
  Forall (fun a => Argument.is_write a = true) (Arguments.st_out st) ->
  Arguments.preparse_step st arg = Some st' ->
  Forall (fun a => Argument.is_write a = false) (Arguments.kwarg_only st')
  /\ Forall (fun a => Argument.is_write a = true) (Arguments.st_out st').
Proof.
  intros Hk Ho. unfold Arguments.preparse_step.
  destruct (negb (Py.truthy arg)); [intros H; injection H as <-; auto|].
  destruct (String.eqb arg "*").
  { destruct (Arguments.bucket_eqb _ _); [|discriminate].
    intros H. injection H as <-. auto. }
  destruct (Argument.parse arg) as [parg|]; [|discriminate].
  destruct (Argument.is_write parg) eqn:Ew;
    destruct (Arguments.arguments_acc st); simpl; try discriminate;
    intros H; injection H as <-; simpl; split; auto;
    apply Forall_app; split; auto.
Qed.

Lemma preparse_loop_mutability (pieces : list string) :
  forall st st',
    Forall (fun a => Argument.is_write a = false) (Arguments.kwarg_only st) ->
    Forall (fun a => Argument.is_write a = true) (Arguments.st_out st) ->
    Arguments.preparse_loop st pieces = Some st' ->
    Forall (fun a => Argument.is_write a = false) (Arguments.kwarg_only st')
    /\ Forall (fun a => Argument.is_write a = true) (Arguments.st_out st').
Proof.
  induction pieces as [|arg rest IH]; simpl; intros st st' Hk Ho H.
  - injection H as <-. auto.
  - destruct (Arguments.preparse_step st arg) as [st1|] eqn:E; [|discriminate].
    destruct (preparse_step_mutability _ _ _ Hk Ho E) as [Hk1 Ho1].
    eapply IH; eauto.
Qed.

Lemma Arguments_parse_mutability (args : string) (a : Arguments.t) :
  Arguments.parse args = Some a ->
  Forall (fun x => Argument.is_write x = true) (Arguments.out a)
  /\ Forall (fun x => Argument.is_write x = false) (Arguments.flat_kwarg_only a)
  /\ Forall (fun x => Argument.is_write x = false)
            (Arguments.pre_self_positional a).
Proof.
  intros Hparse.
  destruct (Arguments._preparse args) as [[[p k] o]|] eqn:Hpre.
  2:{ unfold Arguments.parse in Hparse. rewrite Hpre in Hparse.
      discriminate Hparse. }
  destruct (Arguments_parse_flat _ _ _ _ _ Hpre Hparse) as (_ & -> & ->).
  unfold Arguments._preparse in Hpre.
  destruct (Arguments.preparse_loop _ _) as [st|] eqn:E; [|discriminate].
  injection Hpre as _ <- <-.
  apply preparse_loop_mutability in E as [Hk Ho];
    [|apply Forall_nil|apply Forall_nil].
  split; [exact Ho|]. split; [exact Hk|].
  apply Arguments_parse_post_init in Hparse.
  unfold Arguments.post_init in Hparse.
  apply andb_true_iff in Hparse as [_ Hlen].
  apply Nat.eqb_eq, length_zero_iff_nil in Hlen.
  apply Forall_forall. intros x Hx. now apply (filter_nil_inv _ _ Hlen).
Qed.

(** In a parsed argument list every out-argument is write-annotated, and
    no kwarg-only argument (tensor options included) and no positional
    argument before [self] is. *)
Theorem parsed_arguments_mutability (args : string) (a : Arguments.t) :
  Arguments.parse args = Some a ->
  (forall x, In x (Arguments.out a) -> Argument.is_write x = true)
  /\ (forall x, In x (Arguments.pre_tensor_options_kwarg_only a)
                \/ In x (Arguments.post_tensor_options_kwarg_only a)
                \/ (exists o, Arguments.tensor_options a = Some o
                              /\ In x (TensorOptionsArguments.all o)) ->
                Argument.is_write x = false)
  /\ (forall x, In x (Arguments.pre_self_positional a) ->
                Argument.is_write x = false).
Proof.
  intros H. apply Arguments_parse_mutability in H as (Ho & Hk & Hp).
  rewrite Forall_forall in Ho, Hk, Hp.
  split; [exact Ho|]. split; [|exact Hp].
  intros x Hx. apply Hk. unfold Arguments.flat_kwarg_only.
  destruct Hx as [Hx|[Hx|(o & Heq & Hx)]].
  - apply in_or_app. now left.
  - apply in_or_app. right. apply in_or_app. now right.
  - rewrite Heq. apply in_or_app. right. apply in_or_app. now left.
Qed.

Lemma parsed_arguments_mutability_witness :
  exists a,
    Arguments.parse "Tensor self, *, Scalar alpha=1, Tensor(a!) out" = Some a
    /\ forall x, In x (Arguments.out a) -> Argument.is_write x = true.
Proof.
  eexists. split; [vm_compute; reflexivity|].
  apply (parsed_arguments_mutability
           "Tensor self, *, Scalar alpha=1, Tensor(a!) out").
  vm_compute. reflexivity.
Defined.

(** ** The [self] argument *)

Lemma find_self_ix_spec (l : list Argument.t) :
  match Arguments.find_self_ix l with
  | Some ix =>
      (exists x, nth_error l ix = Some x /\ Argument.name x = "self")
      /\ Forall (fun y => Argument.name y <> "self") (firstn ix l)
  | None => Forall (fun y => Argument.name y <> "self") l
  end.
Proof.
  induction l as [|a l IH]; simpl; [constructor|].
  destruct (String.eqb (Argument.name a) "self") eqn:E.
  - apply String.eqb_eq in E. split; [exists a; auto|constructor].
  - apply String.eqb_neq in E.
    destruct (Arguments.find_self_ix l) as [ix|]; simpl.
    + destruct IH as [Hx Hpre]. split; [exact Hx|]. now constructor.
    + now constructor.
Qed.

Lemma Arguments_parse_self (args : string) (a : Arguments.t) :
  Arguments.parse args = Some a ->
  match Arguments.self_arg a with
  | Some s =>
      Argument.name (SelfArgument.argument s) = "self"
      /\ Forall (fun y => Argument.name y <> "self")
                (Arguments.pre_self_positional a)
  | None =>
      Arguments.pre_self_positional a = []
      /\ Forall (fun y => Argument.name y <> "self")
                (Arguments.post_self_positional a)
  end.
Proof.
  unfold Arguments.parse.
  destruct (Arguments._preparse args) as [[[p k] o]|]; [|discriminate].
  cbn beta iota zeta.
  pose proof (find_self_ix_spec p) as Hspec.
  destruct (Arguments.find_self_ix p) as [ix|];
    destruct (Arguments.group_loop k Arguments.group_init) as [st|];
    try discriminate; cbn beta iota zeta; intros H;
    apply Arguments_make_fields in H; subst a; simpl.
  - destruct Hspec as [(x & Hx & Hname) Hpre]. rewrite Hx. simpl. auto.
  - auto.
Qed.

(** The [self] argument of a parsed argument list is the first positional
    argument named [self]: it has that name and no positional argument
    before it has; without a [self] argument no positional argument is
    named [self]. *)
Theorem parsed_self_is_first_named_self (args : string) (a : Arguments.t) :
  Arguments.parse args = Some a ->
  (forall s, Arguments.self_arg a = Some s ->
             Argument.name (SelfArgument.argument s) = "self")
  /\ (forall x, In x (Arguments.pre_self_positional a) ->
                Argument.name x <> "self")
  /\ (Arguments.self_arg a = None ->
      forall x, In x (Arguments.flat_positional a) ->
                Argument.name x <> "self").
Proof.
  intros H. apply Arguments_parse_self in H.
  unfold Arguments.flat_positional.
  destruct (Arguments.self_arg a) as [s|]; destruct H as [H1 H2].
  - rewrite Forall_forall in H2.
    split; [intros s' E; now injection E as <-|].
    split; [exact H2|discriminate].
  - rewrite Forall_forall in H2. rewrite H1.
    split; [discriminate|]. split; [contradiction|].
    intros _ x Hx. apply H2. exact Hx.
Qed.

Lemma parsed_self_is_first_named_self_witness :
  exists a,
    Arguments.parse "Tensor other, Tensor self, Scalar self" = Some a
    /\ forall x, In x (Arguments.pre_self_positional a) ->
                 Argument.name x <> "self".
Proof.
  eexists. split; [vm_compute; reflexivity|].
  apply (parsed_self_is_first_named_self
           "Tensor other, Tensor self, Scalar self").
  vm_compute. reflexivity.
Defined.

(** In a parsed schema of functional kind only [self] can be
    write-annotated, so [mutable_arg_names] is empty or holds the one
    name [self]; such a schema has no out-argument and
    [modifies_arguments] answers [False] for it. *)
Theorem functional_schema_mutates_only_self (s : string)
    (x : FunctionSchema.t) :
  FunctionSchema.parse s = Some x ->
  FunctionSchema.kind x = Some SchemaKind.functional ->
  (forall a, In a (schema_order_arguments x) ->
             Argument.is_write a = true ->
             Arguments.self_arg (FunctionSchema.arguments x)
             = Some (SelfArgument.mk a))
  /\ (mutable_arg_names (FunctionSchema.arguments x) = []
      \/ mutable_arg_names (FunctionSchema.arguments x) = ["self"])
  /\ is_out_fn x = false
  /\ modifies_arguments x = Some false.
Proof.
  intros Hparse Hkind.
  destruct (FunctionSchema_parse_parts _ _ Hparse) as (_ & (args & Ha) & _).
  pose proof (Arguments_parse_self _ _ Ha) as Hself.
  apply Arguments_parse_mutability in Ha as (_ & Hk & Hp).
  rewrite Forall_forall in Hk, Hp.
  unfold modifies_arguments. rewrite Hkind.
  unfold FunctionSchema.kind in Hkind. unfold is_out_fn.
  destruct (nonempty (Arguments.out (FunctionSchema.arguments x))) eqn:Eo;
    destruct (BaseOperatorName.inplace _); simpl in Hkind;
    try discriminate Hkind.
  destruct (existsb Argument.is_write _) eqn:Ee; [discriminate Hkind|].
  assert (Hq : forall a,
             In a (Arguments.post_self_positional (FunctionSchema.arguments x))
             -> Argument.is_write a = false).
  { intros a Hin. destruct (Argument.is_write a) eqn:Ew; [|reflexivity].
    rewrite <- Ee. symmetry. apply existsb_exists. eauto. }
  destruct (Arguments.out (FunctionSchema.arguments x)) eqn:Eout;
    [|discriminate Eo].
  split; [|split; [|split; reflexivity]].
  - intros a Hin Hw. unfold schema_order_arguments in Hin.
    rewrite Eout, app_nil_r in Hin.
    apply in_app_or in Hin as [Hin|Hin];
      [|now rewrite (Hk a Hin) in Hw].
    unfold Arguments.flat_positional in Hin.
    apply in_app_or in Hin as [Hin|Hin]; [now rewrite (Hp a Hin) in Hw|].
    apply in_app_or in Hin as [Hin|Hin]; [|now rewrite (Hq a Hin) in Hw].
    destruct (Arguments.self_arg (FunctionSchema.arguments x)) as [[sa]|];
      [|contradiction].
    destruct Hin as [<-|[]]. reflexivity.
  - unfold mutable_arg_names, Arguments.flat_all, Arguments.flat_positional.
    rewrite Eout, app_nil_r, !filter_app.
    rewrite (filter_none _ _ Hk), (filter_none _ _ Hp), (filter_none _ _ Hq).
    rewrite app_nil_r. cbn [app].
    destruct (Arguments.self_arg (FunctionSchema.arguments x)) as [sa|];
      [|now left].
    destruct Hself as [Hname _]. cbn [filter].
    destruct (Argument.is_write (SelfArgument.argument sa));
      [right|left]; cbn [app map]; [now rewrite Hname|reflexivity].
Qed.

Lemma functional_schema_mutates_only_self_witness :
  exists x,
    FunctionSchema.parse "set_data(Tensor(a!) self, Tensor new_data) -> ()"
    = Some x
    /\ modifies_arguments x = Some false.
Proof.
  eexists. split; [vm_compute; reflexivity|].
  apply (functional_schema_mutates_only_self
           "set_data(Tensor(a!) self, Tensor new_data) -> ()");
    vm_compute; reflexivity.
Defined.

(** ** The name of the copy variant of a view operator *)

Lemma rev_onto_app (a b acc : string) :
  Py.rev_onto (a ++ b) acc = Py.rev_onto b (Py.rev_onto a acc).
Proof.
  revert acc. induction a as [|c a IH]; intros acc; simpl; [reflexivity|].
  apply IH.
Qed.

Lemma endswith_copy (b : string) : Py.endswith (b ++ "_copy") "_copy" = true.
Proof.
  unfold Py.endswith, Py.rev. rewrite rev_onto_app.
  cbn [Py.rev_onto]. rewrite !prefix_cons, prefix_empty. reflexivity.
Qed.

Lemma prefix_app_r (p s t : string) :
  String.prefix p s = true -> String.prefix p (s ++ t) = true.
Proof.
  revert s. induction p as [|c p IH]; intros s H.
  - apply prefix_empty.
  - destruct s as [|c' s]; [discriminate H|].
    change (String c' s ++ t) with (String c' (s ++ t)).
    rewrite prefix_cons in *. apply andb_true_iff in H as [-> H].
    now rewrite (IH _ H).
Qed.

Lemma contains_app_r (s t p : string) :
  Py.contains s p = true -> Py.contains (s ++ t) p = true.
Proof.
  induction s as [|c s IH]; cbn [Py.contains]; intros H.
  - rewrite orb_false_r in H. destruct p; [|discriminate H].
    destruct t; cbn [append Py.contains]; now rewrite prefix_empty.
  - change (String c s ++ t) with (String c (s ++ t)). cbn [Py.contains].
    apply orb_true_iff in H as [H|H].
    + change (String c (s ++ t)) with (String c s ++ t).
      now rewrite (prefix_app_r _ _ _ H).
    + rewrite (IH H). apply orb_true_r.
Qed.

Lemma contains_app_l (a s p : string) :
  Py.contains s p = true -> Py.contains (a ++ s) p = true.
Proof.
  intros H. induction a as [|c a IH]; [exact H|].
  change (String c a ++ s) with (String c (a ++ s)). cbn [Py.contains].
  rewrite IH. apply orb_true_r.
Qed.

(** The two names that [signature()] treats specially do not contain
    [_copy]. *)
Lemma copy_name_not_reparsed (b : string) (d : bool) (ov : string) :
  reparsed_name
    (OperatorName.mk (BaseOperatorName.mk (b ++ "_copy") false d) ov)
  = false.
Proof.
  assert (Hc : Py.contains
                 (OperatorName.str
                    (OperatorName.mk
                       (BaseOperatorName.mk (b ++ "_copy") false d) ov))
                 "_copy" = true).
  { assert (Hb : forall t, Py.contains ((b ++ "_copy") ++ t) "_copy" = true).
    { intros t. apply contains_app_r, contains_app_l. reflexivity. }
    assert (Hn : Py.contains
                   (BaseOperatorName.str
                      (BaseOperatorName.mk (b ++ "_copy") false d))
                   "_copy" = true).
    { unfold BaseOperatorName.str. cbn [BaseOperatorName.dunder_method
        BaseOperatorName.inplace BaseOperatorName.base].
      destruct d; [|apply Hb].
      apply (contains_app_l "__"). apply (contains_app_l ""). apply Hb. }
    unfold OperatorName.str.
    cbn [OperatorName.overload_name OperatorName.name].
    destruct (Py.truthy ov); [|exact Hn]. now apply contains_app_r. }
  unfold reparsed_name. apply orb_false_iff.
  split; match goal with
         | |- String.eqb ?s ?k = false =>
             destruct (String.eqb s k) eqn:E; [|reflexivity];
             apply String.eqb_eq in E; rewrite E in Hc;
             vm_compute in Hc; discriminate Hc
         end.
Qed.

(** Appending [_copy] creates no occurrence of [_copy] that starts earlier
    than the appended one. *)
Lemma prefix_copy_app (c : ascii) (s : string) :
  String.prefix "_copy" (String c s ++ "_copy")
  = String.prefix "_copy" (String c s).
Proof.
  destruct s as [|c1 [|c2 [|c3 [|c4 s]]]]; cbn [append];
    rewrite ?prefix_cons, ?prefix_empty;
    repeat match goal with
           | |- context [Ascii.eqb ?a ?x] =>
               is_var x; destruct (Ascii.eqb a x)
           end; reflexivity.
Qed.

Lemma replace_copy (b : string) :
  Py.contains b "_copy" = false ->
  Py.replace (b ++ "_copy") "_copy" "" = b.
Proof.
  unfold Py.replace. induction b as [|c b IH]; [reflexivity|].
  cbn [Py.contains]. intros H. apply orb_false_iff in H as [Hp Hc].
  rewrite <- prefix_copy_app in Hp.
  change (String c b ++ "_copy") with (String c (b ++ "_copy")) in *.
  cbn [Py.replace_aux]. rewrite Hp. now rewrite (IH Hc).
Qed.

(** When the base name of a view operator does not contain [_copy] and
    its name is not one that [signature()] treats specially, the schema
    renamed to the name that [get_view_copy_name] gives passes the two
    checks the view group makes of a copy variant: its base name ends in
    [_copy], and stripping the copy name gives the signature of the view
    operator. *)
Theorem view_copy_name_pairs_with_view (f : NativeFunction.t)
    (n : OperatorName.t) (y : FunctionSchema.t) :
  get_view_copy_name f = Some n ->
  with_name (NativeFunction.func f) n = Some y ->
  Py.contains (root_name f) "_copy" = false ->
  reparsed_name (FunctionSchema.name (NativeFunction.func f)) = false ->
  Py.endswith
    (BaseOperatorName.base (OperatorName.name (FunctionSchema.name y)))
    "_copy" = true
  /\ view_signature y = default_signature (NativeFunction.func f).
Proof.
  intros Hn Hy Hc Hr. unfold get_view_copy_name in Hn. cbv zeta in Hn.
  match type of Hn with
  | (assert ?b ;; _) = _ => destruct b; [|discriminate Hn]
  end.
  injection Hn as <-.
  unfold with_name, FunctionSchema.make in Hy.
  destruct (FunctionSchema.post_init _); [|discriminate Hy].
  injection Hy as <-. unfold root_name in Hc.
  cbn [FunctionSchema.name OperatorName.name BaseOperatorName.base].
  split; [apply endswith_copy|].
  destruct (reparsed_name_false _ Hr) as [Ha Hb].
  pose proof (copy_name_not_reparsed
                (BaseOperatorName.base
                   (OperatorName.name
                      (FunctionSchema.name (NativeFunction.func f))))
                (BaseOperatorName.dunder_method
                   (OperatorName.name
                      (FunctionSchema.name (NativeFunction.func f))))
                (OperatorName.overload_name
                   (FunctionSchema.name (NativeFunction.func f)))) as Hr'.
  destruct (reparsed_name_false _ Hr') as [Ha' Hb'].
  unfold view_signature, default_signature, FunctionSchema.signature.
  cbv zeta.
  cbn [FunctionSchema.name FunctionSchema.arguments FunctionSchema.returns
       OperatorName.name BaseOperatorName.base
       BaseOperatorName.dunder_method].
  unfold FunctionSchema.reparse_with_default.
  rewrite Ha, Hb, Ha', Hb', endswith_copy, (replace_copy _ Hc).
  reflexivity.
Qed.

Lemma view_copy_name_pairs_with_view_witness :
  exists x_view n y,
    FunctionSchema.parse "view(Tensor(a) self, int[] size) -> Tensor(a)"
    = Some x_view
    /\ get_view_copy_name (NativeFunction.mk x_view [] false None false [])
       = Some n
    /\ with_name x_view n = Some y
    /\ view_signature y = default_signature x_view.
Proof.
  eexists. eexists. eexists.
  split; [vm_compute; reflexivity|]. split; [vm_compute; reflexivity|].
  split; [vm_compute; reflexivity|].
  match goal with
  | |- view_signature ?y = default_signature ?x =>
      exact (proj2 (view_copy_name_pairs_with_view
                      (NativeFunction.mk x [] false None false [])
                      (FunctionSchema.name y) y
                      eq_refl eq_refl eq_refl eq_refl))
  end.
Defined.

(** Every operator that [functions(include_copy=False)] yields for a
    constructed view group has the signature of the view operator; when
    the group is composite each of them has a composite implicit autograd
    kernel; with the copy variant included the same operators are
    yielded, followed by the copy variant when there is one. *)
Theorem view_group_functions_consistent
    (v : NativeFunction.t) (c i : option NativeFunction.t)
    (g : NativeFunctionsViewGroup.t) :
  NativeFunctionsViewGroup.make v c i = Some g ->
  (forall f, In f (NativeFunctionsViewGroup.functions false g) ->
     default_signature (NativeFunction.func f)
     = default_signature (NativeFunction.func v)
     /\ (NativeFunctionsViewGroup.composite g = true ->
         NativeFunction.has_composite_implicit_autograd_kernel f = true))
  /\ NativeFunctionsViewGroup.functions true g
     = (NativeFunctionsViewGroup.functions false g
        ++ match c with Some vc => [vc] | None => [] end)%list.
Proof.
  unfold NativeFunctionsViewGroup.make.
  destruct (NativeFunctionsViewGroup.post_init _) eqn:Hpost; [|discriminate].
  intros H. injection H as <-.
  unfold NativeFunctionsViewGroup.post_init in Hpost.
  cbn [NativeFunctionsViewGroup.view NativeFunctionsViewGroup.view_copy
       NativeFunctionsViewGroup.view_inplace] in Hpost.
  apply andb_true_iff in Hpost as [Hpost Hcomp].
  apply andb_true_iff in Hpost as [_ Hinp].
  unfold NativeFunctionsViewGroup.functions, NativeFunctionsViewGroup.composite.
  cbn [NativeFunctionsViewGroup.view NativeFunctionsViewGroup.view_copy
       NativeFunctionsViewGroup.view_inplace].
  split.
  - intros f Hf. destruct i as [vi|].
    + apply signatures_equal_eq in Hinp as [Heq _].
      change (FunctionSchema.signature false false false)
        with default_signature in Heq.
      assert (Hf' : f = v \/ f = vi).
      { destruct c; cbn in Hf; intuition. }
      destruct Hf' as [->| ->].
      * split; [reflexivity|now intros ->].
      * split; [now rewrite Heq|].
        intros Hv. now rewrite Hv in Hcomp.
    + assert (Hf' : f = v) by (destruct c; cbn in Hf; intuition).
      subst f. split; [reflexivity|auto].
  - destruct i, c; reflexivity.
Qed.

Lemma view_group_functions_consistent_witness :
  exists x_view x_inplace,
    FunctionSchema.parse "transpose.int(Tensor(a) self, int dim0, int dim1) -> Tensor(a)"
    = Some x_view
    /\ FunctionSchema.parse "transpose_(Tensor(a!) self, int dim0, int dim1) -> Tensor(a!)"
       = Some x_inplace
    /\ exists g,
         NativeFunctionsViewGroup.make
           (NativeFunction.mk x_view [] false None true [])
           None
           (Some (NativeFunction.mk x_inplace [] false None true
                                    ["inplace_view"]))
         = Some g
         /\ default_signature x_inplace = default_signature x_view.
Proof.
  eexists. eexists.
  split; [vm_compute; reflexivity|]. split; [vm_compute; reflexivity|].
  match goal with
  | |- exists g, NativeFunctionsViewGroup.make ?v ?c (Some ?i) = Some g /\ _ =>
      destruct (NativeFunctionsViewGroup.make v c (Some i)) as [g0|] eqn:Em;
      [|vm_compute in Em; discriminate Em];
      exists g0; split; [reflexivity|];
      refine (proj1 (proj1 (view_group_functions_consistent
                              v c (Some i) g0 Em) i _));
      vm_compute in Em; injection Em as <-; right; left; reflexivity
  end.
Defined.

(** ** Printing a type and parsing it again *)

Lemma append_assoc (a b c : string) : (a ++ b) ++ c = a ++ b ++ c.
Proof. induction a as [|x a IH]; simpl; [reflexivity|now rewrite IH]. Qed.

Lemma rev_onto_rev_onto (s acc acc' : string) :
  Py.rev_onto (Py.rev_onto s acc) acc' = Py.rev_onto acc (s ++ acc').
Proof.
  revert acc acc'. induction s as [|c s IH]; intros acc acc'; simpl.
  - reflexivity.
  - rewrite IH. reflexivity.
Qed.

Lemma rev_rev (s : string) : Py.rev (Py.rev s) = s.
Proof.
  unfold Py.rev. rewrite rev_onto_rev_onto. simpl. apply append_empty_r.
Qed.

(** Removing a one-character suffix. *)
Lemma strip_suffix_last (c : ascii) (s : string) :
  Py.strip_suffix (String c "") (s ++ String c "") = Some s.
Proof.
  unfold Py.strip_suffix, Py.rev at 2 3. rewrite rev_onto_app.
  cbn [Py.rev_onto]. unfold Py.strip_prefix.
  rewrite prefix_cons, prefix_empty, Ascii.eqb_refl. cbn.
  f_equal. apply rev_rev.
Qed.

Lemma strip_suffix_other (c d : ascii) (s : string) :
  Ascii.eqb c d = false ->
  Py.strip_suffix (String c "") (s ++ String d "") = None.
Proof.
  intros H. unfold Py.strip_suffix, Py.rev at 2 3. rewrite rev_onto_app.
  cbn [Py.rev_onto]. unfold Py.strip_prefix.
  now rewrite prefix_cons, H.
Qed.

Lemma all_chars_app (p : ascii -> bool) (a b : string) :
  Py.all_chars p (a ++ b) = Py.all_chars p a && Py.all_chars p b.
Proof.
  induction a as [|c a IH]; simpl; [reflexivity|].
  now rewrite IH, andb_assoc.
Qed.

Lemma truthy_app_l (a b : string) :
  Py.truthy a = true -> Py.truthy (a ++ b) = true.
Proof. destruct a; [discriminate|reflexivity]. Qed.

Lemma digits_of_uint (u : Decimal.uint) :
  Py.all_chars Py.is_digit (NilEmpty.string_of_uint u) = true.
Proof. induction u; simpl; auto. Qed.

Lemma digits_of_nilzero (u : Decimal.uint) :
  Py.all_chars Py.is_digit (NilZero.string_of_uint u) = true.
Proof.
  unfold NilZero.string_of_uint.
  destruct u; try apply digits_of_uint. reflexivity.
Qed.

Lemma digits_of_int (n : Z) :
  Z.ltb 0 n = true -> Py.all_chars Py.is_digit (Py.str_of_int n) = true.
Proof.
  destruct n as [|p|p]; try discriminate. intros _.
  apply digits_of_nilzero.
Qed.

Lemma truthy_of_int (n : Z) : Py.truthy (Py.str_of_int n) = true.
Proof.
  destruct n as [|p|p]; try reflexivity.
  unfold Py.str_of_int. cbn [Z.to_int NilZero.string_of_int].
  unfold NilZero.string_of_uint. destruct (Pos.to_uint p); reflexivity.
Qed.

Lemma all_chars_impl (p q : ascii -> bool) (s : string) :
  (forall c, p c = true -> q c = true) ->
  Py.all_chars p s = true -> Py.all_chars q s = true.
Proof.
  intros Hpq. induction s as [|c s IH]; simpl; [reflexivity|].
  intros H. apply andb_true_iff in H as [H1 H2].
  now rewrite (Hpq _ H1), (IH H2).
Qed.

Lemma digit_not (c d : ascii) :
  Py.is_digit d = false -> Py.is_digit c = true -> Ascii.eqb d c = false.
Proof.
  intros Hd Hc. destruct (Ascii.eqb d c) eqn:E; [|reflexivity].
  apply Ascii.eqb_eq in E. subst d. now rewrite Hc in Hd.
Qed.

Lemma digit_is_dot (c : ascii) : Py.is_digit c = true -> Py.is_dot c = true.
Proof.
  intros H. unfold Py.is_dot. rewrite Ascii.eqb_sym.
  now rewrite (digit_not c Py.newline eq_refl H).
Qed.

(** [int] reads back what [str] prints. *)
Lemma int_of_digits_snoc (s : string) (c : ascii) :
  Py.int_of_digits (s ++ String c "")
  = (Py.int_of_digits s * 10 + N.of_nat (nat_of_ascii c - 48))%N.
Proof.
  unfold Py.int_of_digits. generalize 0%N.
  induction s as [|x s IH]; intros acc; simpl; [reflexivity|apply IH].
Qed.

Ltac digit_value :=
  match goal with
  | |- context [N.of_nat ?e] =>
      let v := eval vm_compute in (N.of_nat e) in
      change (N.of_nat e) with v
  end.

Lemma int_of_digits_acc (u : Decimal.uint) :
  forall (acc : positive) (s0 : string),
    Py.int_of_digits s0 = N.pos acc ->
    Py.int_of_digits (s0 ++ NilEmpty.string_of_uint u)
    = N.pos (Pos.of_uint_acc u acc).
Proof.
  induction u; intros acc s0 H; cbn [NilEmpty.string_of_uint Pos.of_uint_acc];
    [now rewrite append_empty_r|..];
    match goal with
    | |- context [s0 ++ String ?c ?r] =>
        change (s0 ++ String c r) with (s0 ++ String c "" ++ r);
        rewrite <- append_assoc; apply IHu;
        rewrite int_of_digits_snoc, H; digit_value; lia
    end.
Qed.

Lemma int_of_digits_uint (u : Decimal.uint) :
  forall s0 : string,
    Py.int_of_digits s0 = 0%N ->
    Py.int_of_digits (s0 ++ NilEmpty.string_of_uint u) = N.of_uint u.
Proof.
  unfold N.of_uint.
  induction u; intros s0 H; cbn [NilEmpty.string_of_uint Pos.of_uint];
    [now rewrite append_empty_r|..];
    match goal with
    | |- context [s0 ++ String ?c ?r] =>
        change (s0 ++ String c r) with (s0 ++ String c "" ++ r);
        rewrite <- append_assoc;
        first [ apply IHu; rewrite int_of_digits_snoc, H; reflexivity
              | apply int_of_digits_acc; rewrite int_of_digits_snoc, H;
                digit_value; reflexivity ]
    end.
Qed.

Lemma int_of_str (n : Z) :
  Z.ltb 0 n = true -> Z.of_N (Py.int_of_digits (Py.str_of_int n)) = n.
Proof.
  destruct n as [|p|p]; try discriminate. intros _.
  assert (H : forall u, Py.int_of_digits (NilZero.string_of_uint u)
                        = N.of_uint u).
  { intros u. unfold NilZero.string_of_uint.
    destruct u as [|u|u|u|u|u|u|u|u|u|u]; [reflexivity|..];
      match goal with
      | |- Py.int_of_digits (NilEmpty.string_of_uint ?d) = _ =>
          apply (int_of_digits_uint d ""); reflexivity
      end. }
  unfold Py.str_of_int. cbn [Z.to_int NilZero.string_of_int]. rewrite H.
  change (Pos.to_uint p) with (N.to_uint (N.pos p)).
  now rewrite DecimalN.Unsigned.of_to.
Qed.

Lemma str_of_int_dot (n : Z) :
  Py.all_chars Py.is_dot (Py.str_of_int n) = true.
Proof.
  assert (H : forall u, Py.all_chars Py.is_dot (NilZero.string_of_uint u)
                        = true).
  { intros u. apply (all_chars_impl Py.is_digit); [apply digit_is_dot|].
    apply digits_of_nilzero. }
  destruct n as [|p|p]; unfold Py.str_of_int;
    cbn [Z.to_int NilZero.string_of_int]; apply H.
Qed.

(** The regular expressions of [Type._parse] on a printed type. *)
Lemma re_optional_app (g : string) :
  Py.truthy g = true -> Py.all_chars Py.is_dot g = true ->
  Ty.re_optional (g ++ "?") = Some g.
Proof.
  intros Ht Hd. unfold Ty.re_optional, Py.dollar.
  now rewrite strip_suffix_last, Ht, Hd.
Qed.

Lemma re_optional_bracket (s : string) :
  Ty.re_optional (s ++ "]") = None.
Proof.
  unfold Ty.re_optional, Py.dollar.
  now rewrite !strip_suffix_other.
Qed.

Lemma rpartition_digits (d : string) :
  Py.all_chars Py.is_digit d = true -> Py.rpartition d "[" = None.
Proof.
  induction d as [|c d IH]; [reflexivity|].
  cbn [Py.all_chars Py.rpartition]. intros H.
  apply andb_true_iff in H as [Hc Hd]. rewrite (IH Hd).
  now rewrite prefix_cons, (digit_not c "[" eq_refl Hc).
Qed.

Lemma rpartition_last (g d : string) :
  Py.rpartition d "[" = None ->
  Py.rpartition (g ++ "[" ++ d) "[" = Some (g, d).
Proof.
  intros Hd. induction g as [|c g IH].
  - cbn [append Py.rpartition]. rewrite Hd.
    now rewrite prefix_cons, prefix_empty.
  - change (String c g ++ "[" ++ d) with (String c (g ++ "[" ++ d)).
    cbn [Py.rpartition]. now rewrite IH.
Qed.

Lemma re_list_app (g d : string) :
  Py.truthy g = true -> Py.all_chars Py.is_dot g = true ->
  Py.all_chars Py.is_digit d = true ->
  Ty.re_list (g ++ "[" ++ d ++ "]")
  = Some (g, if Py.truthy d then Some d else None).
Proof.
  intros Ht Hg Hd. unfold Ty.re_list, Py.dollar.
  replace (g ++ "[" ++ d ++ "]") with ((g ++ "[" ++ d) ++ "]")
    by now rewrite !append_assoc.
  rewrite strip_suffix_last, (rpartition_last _ _ (rpartition_digits _ Hd)).
  now rewrite Ht, Hg, Hd.
Qed.

Lemma Ty_str_shape (t : Ty.t) :
  Py.truthy (Ty.str t) = true /\ Py.all_chars Py.is_dot (Ty.str t) = true.
Proof.
  induction t as [b|e [IHt IHd]|e [IHt IHd] size]; cbn [Ty.str].
  - destruct b; split; reflexivity.
  - split; [now apply truthy_app_l|]. now rewrite all_chars_app, IHd.
  - split; [now apply truthy_app_l|].
    rewrite !all_chars_app, IHd. cbn.
    rewrite andb_true_r.
    destruct size as [n|]; [|reflexivity].
    destruct (Z.eqb n 0); [reflexivity|].
    apply str_of_int_dot.
Qed.

Lemma Ty_parse_fuel_printed (t : Ty.t) :
  sized_lists_positive t = true ->
  forall fuel, String.length (Ty.str t) < fuel ->
               Ty.parse_fuel fuel (Ty.str t) = Some t.
Proof.
  induction t as [b|e IH|e IH size]; cbn [sized_lists_positive]; intros Hok.
  - intros fuel Hf.
    rewrite (Ty_parse_fuel_enough fuel
               (S (String.length (Ty.str (Ty.BaseType b)))) _ Hf
               (Nat.lt_succ_diag_r _)).
    destruct b; vm_compute; reflexivity.
  - intros [|fuel] Hf; [lia|]. cbn [Ty.str] in *.
    rewrite string_length_append in Hf. cbn [String.length] in Hf.
    destruct (Ty_str_shape e) as [Ht Hd].
    cbn [Ty.parse_fuel]. rewrite (re_optional_app _ Ht Hd).
    rewrite (IH Hok fuel) by lia.
    cbn [Ty.str]. now rewrite String.eqb_refl.
  - intros [|fuel] Hf; [lia|]. apply andb_true_iff in Hok as [Hok Hsize].
    cbn [Ty.str] in *. cbv zeta in *.
    set (d := match size with
              | Some n => if Z.eqb n 0 then "" else Py.str_of_int n
              | None => ""
              end) in *.
    rewrite !string_length_append in Hf. cbn [String.length] in Hf.
    destruct (Ty_str_shape e) as [Ht Hd].
    assert (Hdig : Py.all_chars Py.is_digit d = true).
    { subst d. destruct size as [n|]; [|reflexivity].
      destruct (Z.eqb n 0); [reflexivity|now apply digits_of_int]. }
    cbn [Ty.parse_fuel].
    replace (Ty.str e ++ "[" ++ d ++ "]")
      with ((Ty.str e ++ "[" ++ d) ++ "]") at 1
      by now rewrite !append_assoc.
    rewrite re_optional_bracket, (re_list_app _ _ Ht Hd Hdig).
    rewrite (IH Hok fuel) by lia.
    assert (Hs : option_map (fun d => Z.of_N (Py.int_of_digits d))
                   (if Py.truthy d then Some d else None) = size).
    { subst d. destruct size as [n|]; [|reflexivity].
      destruct (Z.eqb_spec n 0) as [->|_]; [discriminate Hsize|].
      rewrite truthy_of_int. cbn [option_map]. now rewrite int_of_str. }
    rewrite Hs. cbn [Ty.str]. cbv zeta. fold d.
    now rewrite String.eqb_refl.
Qed.

Lemma Ty_parse_fuel_positive (fuel : nat) :
  forall s t, Ty.parse_fuel fuel s = Some t -> sized_lists_positive t = true.
Proof.
  induction fuel as [|fuel IH]; intros s t; [discriminate|].
  cbn [Ty.parse_fuel].
  destruct (Ty.re_optional s) as [g1|] eqn:Eo.
  - destruct (Ty.parse_fuel fuel g1) as [e|] eqn:Ee; [|discriminate].
    cbn beta iota. destruct (String.eqb _ s); [|discriminate].
    intros H. injection H as <-. cbn [sized_lists_positive]. eauto.
  - destruct (Ty.re_list s) as [[g1 g2]|] eqn:El.
    + destruct (Ty.parse_fuel fuel g1) as [e|] eqn:Ee; [|discriminate].
      cbn beta iota zeta.
      destruct (String.eqb _ s) eqn:Es; [|discriminate].
      intros H. injection H as <-. cbn [sized_lists_positive].
      rewrite (IH _ _ Ee). cbn [andb].
      destruct g2 as [d|]; [|reflexivity]. cbn [option_map] in *.
      destruct (Z.eqb (Z.of_N (Py.int_of_digits d)) 0) eqn:Ez;
        [|apply Z.eqb_neq in Ez; apply Z.ltb_lt; lia].
      exfalso. apply String.eqb_eq in Es. cbn [Ty.str] in Es.
      rewrite Ez in Es. subst s.
      destruct (Ty_str_shape e) as [Ht Hd].
      rewrite (re_list_app _ "" Ht Hd eq_refl) in El. discriminate El.
    + destruct (BaseTy.lookup s); [|discriminate].
      cbn beta iota. destruct (String.eqb _ s); [|discriminate].
      intros H. injection H as <-. reflexivity.
Qed.

(** A type prints to a string that [Type.parse] reads back as the same
    type exactly when each of its explicit list sizes is a positive
    integer (size zero prints like no size, and a negative size prints
    with a minus sign that the grammar has not); [Type.parse] returns no
    other types. *)
Theorem type_print_then_parse (t : Ty.t) :
  (Ty.parse (Ty.str t) = Some t <-> sized_lists_positive t = true)
  /\ (forall s, Ty.parse s = Some t -> sized_lists_positive t = true).
Proof.
  assert (H : forall s, Ty.parse s = Some t -> sized_lists_positive t = true).
  { intros s. apply Ty_parse_fuel_positive. }
  split; [split; [apply H|]|exact H].
  intros Hok. unfold Ty.parse. apply (Ty_parse_fuel_printed t Hok). lia.
Qed.

Lemma type_print_then_parse_witness :
  exists t, Ty.parse "int?[3]" = Some t /\ sized_lists_positive t = true.
Proof.
  eexists. split; [vm_compute; reflexivity|].
  match goal with
  | |- sized_lists_positive ?t = true =>
      apply (proj2 (type_print_then_parse t) "int?[3]")
  end.
  vm_compute. reflexivity.
Defined.
